(** * idlecat: a pass-through filter that watches the liveliness of its input

    A shallow embedding of [idlecat.c] and the properties of its activity
    monitor.

    The program talks to its environment through a handful of libc calls
    ([getopt], [atoi], [fcntl], [select], [time], [read], [write], [system],
    [perror], [fprintf], [exit]).  What the environment answers is an input of
    the model: the sequence of [getopt] results, the values returned at
    startup, and, for every turn of the main loop, the answers of [select],
    [time], [read] and of the successive [write] calls.  What the program does
    to the environment is recorded as a list of events.

    [time_t] and [ssize_t] values are modelled as [Z]; the program only
    subtracts and compares them, and C gives no wrap-around to signed
    arithmetic. *)

From Stdlib Require Import ZArith String Ascii List Bool Lia.
From Stdlib Require Import Strings.Byte.
Import ListNotations.

Local Open Scope string_scope.
Local Open Scope list_scope.
Local Open Scope Z_scope.

(** ** Constants of the C library and of the source *)

Definition EXIT_SUCCESS : Z := 0.
Definition EXIT_FAILURE : Z := 1.

(** [errno] values, as on Linux; [EAGAIN] and [EWOULDBLOCK] are one number
    there.  The theorems below hold whatever the numbers are; only the
    worked examples compute with them. *)
Definition EINTR : Z := 4.
Definition EAGAIN : Z := 11.
Definition EWOULDBLOCK : Z := 11.

Definition BUFFER_SIZE : Z := 4096.
Definition DEFAULT_IDLE_TIMEOUT : Z := 5.
Definition DEFAULT_IDLE_TO_ACTIVE_THRESHOLD : Z := 2 * 60.
Definition DEFAULT_ACTIVE_TO_IDLE_THRESHOLD : Z := 3 * 60.

(** ** libc's [atoi]

    [atoi(s)] is [(int) strtol(s, NULL, 10)]: leading white space is skipped,
    an optional sign is read, then decimal digits up to the first character
    that is not a digit; the rest of the string is ignored, and a string with
    no digits there gives 0.  A value that does not fit a [long] saturates in
    [strtol], and the conversion to [int] keeps the low 32 bits (glibc on
    LP64; the C standard leaves the out-of-range case of [atoi] open). *)

Definition isspace (c : ascii) : bool :=
  let n := Z.of_nat (nat_of_ascii c) in
  (n =? 32) || ((9 <=? n) && (n <=? 13)).

Definition isdigit (c : ascii) : bool :=
  let n := Z.of_nat (nat_of_ascii c) in
  (48 <=? n) && (n <=? 57).

Definition digit_value (c : ascii) : Z := Z.of_nat (nat_of_ascii c) - 48.

Fixpoint skip_space (s : string) : string :=
  match s with
  | String c s' => if isspace c then skip_space s' else s
  | EmptyString => s
  end.

(** The value of the longest prefix of digits of [s], continuing [acc]. *)
Fixpoint leading_digits (acc : Z) (s : string) : Z :=
  match s with
  | String c s' =>
      if isdigit c then leading_digits (acc * 10 + digit_value c) s' else acc
  | EmptyString => acc
  end.

Definition LONG_MAX : Z := 2 ^ 63 - 1.
Definition LONG_MIN : Z := - 2 ^ 63.

Definition strtol10 (s : string) : Z :=
  let v :=
    match skip_space s with
    | String "-" s' => - leading_digits 0 s'
    | String "+" s' => leading_digits 0 s'
    | s' => leading_digits 0 s'
    end in
  Z.max LONG_MIN (Z.min LONG_MAX v).

(** Conversion of a [long] to [int]: the low 32 bits, read as two's
    complement. *)
Definition to_int (v : Z) : Z := (v + 2 ^ 31) mod 2 ^ 32 - 2 ^ 31.

Definition atoi (s : string) : Z := to_int (strtol10 s).

(** ** What the program does to its environment *)

(** The three places where the source calls [system]. *)
Inductive action : Type :=
| IdleToActive   (* system(config.idle_to_active_command) *)
| ActiveToIdle   (* system(config.active_to_idle_command) *)
| OnEof.         (* system(config.eof_command) *)

Inductive printf_arg : Type :=
| ArgStr (s : string)
| ArgInt (n : Z).

(** What [read(STDIN_FILENO, buffer, BUFFER_SIZE)] answers: the bytes it put
    in the buffer (at most [BUFFER_SIZE] of them, none at end of stream), or
    -1 with [errno] set. *)
Inductive read_result : Type :=
| RdBytes (chunk : list byte)
| RdErr (errno : Z).

(** What one [write] answers: the number of bytes it took, of those it was
    offered, or -1 with [errno] set. *)
Inductive write_result : Type :=
| WrOk (n : nat)
| WrErr (errno : Z).

Inductive event : Type :=
| Fprintf (fmt : string) (args : list printf_arg)  (* fprintf(stderr, ...) *)
| Perror (s : string)
| Read (r : read_result)
| Write (req : list byte) (r : write_result)
    (* write(STDOUT_FILENO, ...) offered the bytes [req] *)
| System (site : action) (cmd : string).

(** The system call in which a run is left when the answers of the
    environment end. *)
Inductive syscall : Type := InSelect | InWrite.

Inductive result (A : Type) : Type :=
| Done (a : A)
| Exited (code : Z)          (* exit(code) was called *)
| Blocked (call : syscall).  (* still running, no more answers *)

Arguments Done {A} a.
Arguments Exited {A} code.
Arguments Blocked {A} call.

(** A computation returns a result and the events it caused, in order. *)
Definition M (A : Type) : Type := (result A * list event)%type.

Definition ret {A : Type} (a : A) : M A := (Done a, []).

Definition bind {A B : Type} (m : M A) (f : A -> M B) : M B :=
  match m with
  | (Done a, ev) => let (r, ev') := f a in (r, ev ++ ev')
  | (Exited code, ev) => (Exited code, ev)
  | (Blocked call, ev) => (Blocked call, ev)
  end.

Notation "x <- m ;; k" := (bind m (fun x => k))
  (at level 61, m at next level, right associativity).
Notation "m ;; k" := (bind m (fun _ => k))
  (at level 61, right associativity).

Definition emit (e : event) : M unit := (Done tt, [e]).
Definition exit {A : Type} (code : Z) : M A := (Exited code, []).
Definition blocked {A : Type} (call : syscall) : M A := (Blocked call, []).

Definition fprintf_stderr (fmt : string) (args : list printf_arg) : M unit :=
  emit (Fprintf fmt args).
Definition perror (s : string) : M unit := emit (Perror s).
Definition system (site : action) (cmd : string) : M unit :=
  emit (System site cmd).

(** ** Configuration *)

Record Config : Type := mkConfig {
  idle_timeout : Z;
  idle_to_active_threshold : Z;
  active_to_idle_threshold : Z;
  idle_to_active_command : option string;   (* None is NULL *)
  active_to_idle_command : option string;
  eof_command : option string
}.

Definition nl : string := String (ascii_of_nat 10) EmptyString.

Definition print_usage {A : Type} (program_name : string) : M A :=
  fprintf_stderr ("Usage: %s [options]" ++ nl)%string [ArgStr program_name] ;;
  fprintf_stderr ("Options:" ++ nl)%string [] ;;
  fprintf_stderr
    ("  -t SECONDS   Set idle timeout (default: %d seconds)" ++ nl)%string
    [ArgInt DEFAULT_IDLE_TIMEOUT] ;;
  fprintf_stderr
    ("  -i SECONDS   Set idle to active threshold (default: %d seconds)" ++ nl)%string
    [ArgInt DEFAULT_IDLE_TO_ACTIVE_THRESHOLD] ;;
  fprintf_stderr
    ("  -a SECONDS   Set active to idle threshold (default: %d seconds)" ++ nl)%string
    [ArgInt DEFAULT_ACTIVE_TO_IDLE_THRESHOLD] ;;
  fprintf_stderr
    ("  -I COMMAND   Command to run on transition from idle to active" ++ nl)%string
    [] ;;
  fprintf_stderr
    ("  -A COMMAND   Command to run on transition from active to idle" ++ nl)%string
    [] ;;
  fprintf_stderr ("  -E COMMAND   Command to run on EOF" ++ nl)%string [] ;;
  fprintf_stderr ("  -h           Show this help message" ++ nl)%string [] ;;
  exit EXIT_FAILURE.

Definition set_idle_timeout (v : Z) (c : Config) : Config :=
  mkConfig v (idle_to_active_threshold c) (active_to_idle_threshold c)
    (idle_to_active_command c) (active_to_idle_command c) (eof_command c).
Definition set_idle_to_active_threshold (v : Z) (c : Config) : Config :=
  mkConfig (idle_timeout c) v (active_to_idle_threshold c)
    (idle_to_active_command c) (active_to_idle_command c) (eof_command c).
Definition set_active_to_idle_threshold (v : Z) (c : Config) : Config :=
  mkConfig (idle_timeout c) (idle_to_active_threshold c) v
    (idle_to_active_command c) (active_to_idle_command c) (eof_command c).
Definition set_idle_to_active_command (v : string) (c : Config) : Config :=
  mkConfig (idle_timeout c) (idle_to_active_threshold c)
    (active_to_idle_threshold c)
    (Some v) (active_to_idle_command c) (eof_command c).
Definition set_active_to_idle_command (v : string) (c : Config) : Config :=
  mkConfig (idle_timeout c) (idle_to_active_threshold c)
    (active_to_idle_threshold c)
    (idle_to_active_command c) (Some v) (eof_command c).
Definition set_eof_command (v : string) (c : Config) : Config :=
  mkConfig (idle_timeout c) (idle_to_active_threshold c)
    (active_to_idle_threshold c)
    (idle_to_active_command c) (active_to_idle_command c) (Some v).

(** One answer of [getopt(argc, argv, "t:i:a:I:A:E:h")] other than -1: the
    character it returns and the [optarg] it leaves ("?" is what it returns
    for an unknown option or a missing argument). *)
Definition getopt_result : Type := (ascii * string)%type.

(** One turn of the [switch] in [parse_args]. *)
Definition parse_opt (program_name : string) (config : Config)
    (o : getopt_result) : M Config :=
  let (opt, optarg) := o in
  if Ascii.eqb opt "t" then
    let config := set_idle_timeout (atoi optarg) config in
    if idle_timeout config <=? 0 then
      fprintf_stderr ("Idle timeout must be positive" ++ nl)%string [] ;;
      exit EXIT_FAILURE
    else ret config
  else if Ascii.eqb opt "i" then
    let config := set_idle_to_active_threshold (atoi optarg) config in
    if idle_to_active_threshold config <=? 0 then
      fprintf_stderr ("Idle to active threshold must be positive" ++ nl)%string [] ;;
      exit EXIT_FAILURE
    else ret config
  else if Ascii.eqb opt "a" then
    let config := set_active_to_idle_threshold (atoi optarg) config in
    if active_to_idle_threshold config <=? 0 then
      fprintf_stderr ("Active to idle threshold must be positive" ++ nl)%string [] ;;
      exit EXIT_FAILURE
    else ret config
  else if Ascii.eqb opt "I" then ret (set_idle_to_active_command optarg config)
  else if Ascii.eqb opt "A" then ret (set_active_to_idle_command optarg config)
  else if Ascii.eqb opt "E" then ret (set_eof_command optarg config)
  else (* 'h' and default *) print_usage program_name.

(** The [while ((opt = getopt(...)) != -1)] loop, over the answers of
    [getopt] that come before -1. *)
Fixpoint parse_loop (program_name : string) (config : Config)
    (opts : list getopt_result) : M Config :=
  match opts with
  | [] => ret config
  | o :: opts' =>
      config' <- parse_opt program_name config o ;;
      parse_loop program_name config' opts'
  end.

Definition default_config : Config :=
  mkConfig DEFAULT_IDLE_TIMEOUT DEFAULT_IDLE_TO_ACTIVE_THRESHOLD
    DEFAULT_ACTIVE_TO_IDLE_THRESHOLD None None None.

Definition parse_args (program_name : string) (opts : list getopt_result)
    : M Config :=
  parse_loop program_name default_config opts.

(** ** The monitor *)

(** The local variables of [main] that live across the loop. *)
Record locals : Type := mkLocals {
  config : Config;
  last_data_time : Z;
  state_start_time : Z;
  is_idle : bool;
  eof_reached : bool
}.

Definition set_last_data_time (t : Z) (st : locals) : locals :=
  mkLocals (config st) t (state_start_time st) (is_idle st) (eof_reached st).
Definition set_state_start_time (t : Z) (st : locals) : locals :=
  mkLocals (config st) (last_data_time st) t (is_idle st) (eof_reached st).
Definition set_is_idle (b : bool) (st : locals) : locals :=
  mkLocals (config st) (last_data_time st) (state_start_time st) b
    (eof_reached st).
Definition set_eof_reached (b : bool) (st : locals) : locals :=
  mkLocals (config st) (last_data_time st) (state_start_time st) (is_idle st)
    b.

Inductive activity : Type := Idle | Active.

Definition activity_state (st : locals) : activity :=
  if is_idle st then Idle else Active.

(** What the environment answers during one turn of the main loop. *)
Record iter_env : Type := mkIter {
  select_ret : Z;                (* the value of select *)
  stdin_isset : bool;            (* FD_ISSET(STDIN_FILENO, &read_fds) *)
  time_now : Z;                  (* time(NULL) *)
  read_ans : read_result;        (* read, when it is called *)
  write_ans : list write_result  (* the successive calls of write *)
}.

(** The inner loop [while (bytes_written < bytes_read)]; [chunk] is the part
    of [buffer] that [read] filled. *)
Fixpoint write_loop (chunk : list byte) (bytes_written : Z)
    (answers : list write_result) : M unit :=
  let bytes_read := Z.of_nat (length chunk) in
  if bytes_written <? bytes_read then
    match answers with
    | [] => blocked InWrite
    | a :: answers' =>
        emit (Write (skipn (Z.to_nat bytes_written) chunk) a) ;;
        match a with
        | WrErr errno =>
            if errno =? EINTR then write_loop chunk bytes_written answers'
            else perror "write" ;; exit EXIT_FAILURE
        | WrOk n => write_loop chunk (bytes_written + Z.of_nat n) answers'
        end
    end
  else ret tt.

(** [if (cond && cmd) system(cmd);] *)
Definition run_if_set (cond : bool) (site : action) (cmd : option string)
    : M unit :=
  match cmd with
  | Some c => if cond then system site c else ret tt
  | None => ret tt
  end.

(** The block "Check for transition from idle to active". *)
Definition idle_to_active (current_time : Z) (st : locals) : M locals :=
  if is_idle st then
    let idle_duration := current_time - state_start_time st in
    run_if_set (idle_duration >=? idle_to_active_threshold (config st))
      IdleToActive (idle_to_active_command (config st)) ;;
    ret (set_state_start_time current_time (set_is_idle false st))
  else ret st.

(** The block "Process data if available". *)
Definition process_data (current_time : Z) (e : iter_env) (st : locals)
    : M locals :=
  if (select_ret e >? 0) && stdin_isset e then
    emit (Read (read_ans e)) ;;
    match read_ans e with
    | RdBytes chunk =>
        let bytes_read := Z.of_nat (length chunk) in
        if bytes_read >? 0 then
          write_loop chunk 0 (write_ans e) ;;
          st <- idle_to_active current_time st ;;
          ret (set_last_data_time current_time st)
        else (* bytes_read == 0 *)
          let st := set_eof_reached true st in
          run_if_set true OnEof (eof_command (config st)) ;;
          ret st
    | RdErr errno => (* bytes_read == -1 *)
        if negb (errno =? EAGAIN) && negb (errno =? EWOULDBLOCK) then
          perror "read" ;; exit EXIT_FAILURE
        else ret st
    end
  else ret st.

(** The block "Check for transition to idle state". *)
Definition active_to_idle (current_time : Z) (st : locals) : M locals :=
  let time_since_last_data := current_time - last_data_time st in
  if negb (is_idle st) && (time_since_last_data >=? idle_timeout (config st))
  then
    let active_duration := current_time - state_start_time st in
    run_if_set (active_duration >=? active_to_idle_threshold (config st))
      ActiveToIdle (active_to_idle_command (config st)) ;;
    ret (set_state_start_time current_time (set_is_idle true st))
  else ret st.

(** One turn of [while (!eof_reached)]. *)
Definition loop_body (st : locals) (e : iter_env) : M locals :=
  if select_ret e =? -1 then perror "select" ;; exit EXIT_FAILURE
  else
    let current_time := time_now e in
    st <- process_data current_time e st ;;
    active_to_idle current_time st.

Fixpoint main_loop (st : locals) (envs : list iter_env) : M locals :=
  if eof_reached st then ret st
  else
    match envs with
    | [] => blocked InSelect
    | e :: envs' => st' <- loop_body st e ;; main_loop st' envs'
    end.

(** What the environment answers before the loop. *)
Record startup_env : Type := mkStartup {
  getfl_ans : Z;   (* fcntl(STDIN_FILENO, F_GETFL, 0) *)
  setfl_ans : Z;   (* fcntl(STDIN_FILENO, F_SETFL, flags | O_NONBLOCK) *)
  time_ans1 : Z;   (* time(NULL), for last_data_time *)
  time_ans2 : Z    (* time(NULL), for state_start_time *)
}.

Definition initial_locals (config : Config) (su : startup_env) : locals :=
  mkLocals config (time_ans1 su) (time_ans2 su) true false.

Definition main (program_name : string) (opts : list getopt_result)
    (su : startup_env) (envs : list iter_env) : M Z :=
  config <- parse_args program_name opts ;;
  if getfl_ans su =? -1 then perror "fcntl F_GETFL" ;; exit EXIT_FAILURE
  else if setfl_ans su =? -1 then perror "fcntl F_SETFL" ;; exit EXIT_FAILURE
  else
    main_loop (initial_locals config su) envs ;;
    ret EXIT_SUCCESS.

(** ** Reading a trace *)

(** The bytes that the reads delivered, in order. *)
Definition delivered (tr : list event) : list byte :=
  flat_map (fun e => match e with Read (RdBytes chunk) => chunk | _ => [] end)
    tr.

(** The bytes that the writes put on the output, in order. *)
Definition forwarded (tr : list event) : list byte :=
  flat_map
    (fun e => match e with Write req (WrOk n) => firstn n req | _ => [] end)
    tr.

Definition is_read (e : event) : bool :=
  match e with Read _ => true | _ => false end.
Definition is_write (e : event) : bool :=
  match e with Write _ _ => true | _ => false end.

(** The calls of [system], in order. *)
Definition system_calls (tr : list event) : list (action * string) :=
  flat_map (fun e => match e with System a c => [(a, c)] | _ => [] end) tr.

(** The diagnostics on the error stream. *)
Definition is_diagnostic (e : event) : bool :=
  match e with Fprintf _ _ | Perror _ => true | _ => false end.

Definition valid_config (c : Config) : Prop :=
  0 < idle_timeout c /\ 0 < idle_to_active_threshold c /\
  0 < active_to_idle_threshold c.

(** The bytes that the successful answers took. *)
Fixpoint taken (answers : list write_result) : Z :=
  match answers with
  | [] => 0
  | WrOk n :: answers' => Z.of_nat n + taken answers'
  | WrErr _ :: answers' => taken answers'
  end.

Definition only_interrupted (answers : list write_result) : Prop :=
  forall errno, In (WrErr errno) answers -> errno = EINTR.

(** The events of [run_if_set]. *)
Definition action_events (cond : bool) (site : action) (cmd : option string)
    : list event :=
  match cmd with
  | Some c => if cond then [System site c] else []
  | None => []
  end.

(** [st'] differs from [st], if at all, by a flip of the state that puts
    [now] in [state_start_time]. *)
Definition change_together (now : Z) (st st' : locals) : Prop :=
  (is_idle st' <> is_idle st -> state_start_time st' = now) /\
  (state_start_time st' <> state_start_time st -> is_idle st' <> is_idle st).

(** The turns [envs] of the loop lead from [st] at the head of the loop to
    [st'] at the head of the loop, with the events [tr]. *)
Inductive loop_reaches : locals -> list iter_env -> locals -> list event -> Prop :=
| reaches_here st : loop_reaches st [] st []
| reaches_turn st e st1 ev envs st2 tr :
    eof_reached st = false ->
    loop_body st e = (Done st1, ev) ->
    loop_reaches st1 envs st2 tr ->
    loop_reaches st (e :: envs) st2 (ev ++ tr).

(** What a computation has written is a prefix of what it has read, and
    all of it unless the computation is left in the write loop: still
    writing, or ended by a write error. *)
Definition forwards_what_it_reads {A : Type} (m : M A) : Prop :=
  exists rest,
    delivered (snd m) = forwarded (snd m) ++ rest /\
    (rest = [] \/
     fst m = Blocked InWrite \/
     (fst m = Exited EXIT_FAILURE /\
      exists tr, snd m = tr ++ [Perror "write"])).

(** Strings made of decimal digits only. *)
Fixpoint all_digits (s : string) : bool :=
  match s with
  | String c s' => isdigit c && all_digits s'
  | EmptyString => true
  end.

(** The first character of [s], if any, is of the class [p]. *)
Definition starts_with (p : ascii -> bool) (s : string) : bool :=
  match s with
  | String c _ => p c
  | EmptyString => false
  end.

Definition is_sign (c : ascii) : bool := Ascii.eqb c "-" || Ascii.eqb c "+".

(** The field that a numeric option sets. *)
Definition numeric_setting (opt : ascii) (c : Config) : Z :=
  if Ascii.eqb opt "t" then idle_timeout c
  else if Ascii.eqb opt "i" then idle_to_active_threshold c
  else active_to_idle_threshold c.

(** The calls of [system] on the EOF command. *)
Definition eof_calls (tr : list event) : list (action * string) :=
  filter (fun p => match fst p with OnEof => true | _ => false end)
    (system_calls tr).

(** ** One turn of the loop, seen from outside *)

(** The local variables after the block "Check for transition from idle to
    active" and the assignment of [last_data_time] that follows it. *)
Definition after_data (now : Z) (st : locals) : locals :=
  set_last_data_time now
    (if is_idle st then set_state_start_time now (set_is_idle false st)
     else st).

(** The events of that block. *)
Definition data_events (now : Z) (st : locals) : list event :=
  if is_idle st then
    action_events
      (now - state_start_time st >=? idle_to_active_threshold (config st))
      IdleToActive (idle_to_active_command (config st))
  else [].

(** The local variables after the block "Check for transition to idle
    state", and its events. *)
Definition idle_due (now : Z) (st : locals) : bool :=
  negb (is_idle st) && (now - last_data_time st >=? idle_timeout (config st)).

Definition after_idle_check (now : Z) (st : locals) : locals :=
  if idle_due now st then set_state_start_time now (set_is_idle true st)
  else st.

Definition idle_check_events (now : Z) (st : locals) : list event :=
  if idle_due now st then
    action_events
      (now - state_start_time st >=? active_to_idle_threshold (config st))
      ActiveToIdle (active_to_idle_command (config st))
  else [].

Definition ready (e : iter_env) : Prop :=
  select_ret e > 0 /\ stdin_isset e = true.

(** The ways a turn of the loop can go: its result and its events, by what
    the environment answers. *)
Inductive turn (st : locals) (e : iter_env)
    : result locals -> list event -> Prop :=
| turn_select_fails :
    select_ret e = -1 ->
    turn st e (Exited EXIT_FAILURE) [Perror "select"]
| turn_no_input :
    select_ret e <> -1 ->
    (select_ret e >? 0) && stdin_isset e = false ->
    turn st e (Done (after_idle_check (time_now e) st))
      (idle_check_events (time_now e) st)
| turn_would_block errno :
    ready e -> read_ans e = RdErr errno ->
    errno = EAGAIN \/ errno = EWOULDBLOCK ->
    turn st e (Done (after_idle_check (time_now e) st))
      (Read (RdErr errno) :: idle_check_events (time_now e) st)
| turn_read_fails errno :
    ready e -> read_ans e = RdErr errno ->
    errno <> EAGAIN -> errno <> EWOULDBLOCK ->
    turn st e (Exited EXIT_FAILURE) [Read (RdErr errno); Perror "read"]
| turn_eof :
    ready e -> read_ans e = RdBytes [] ->
    turn st e
      (Done (after_idle_check (time_now e) (set_eof_reached true st)))
      (Read (RdBytes []) ::
       action_events true OnEof (eof_command (config st)) ++
       idle_check_events (time_now e) (set_eof_reached true st))
| turn_data chunk wev :
    ready e -> read_ans e = RdBytes chunk -> chunk <> [] ->
    write_loop chunk 0 (write_ans e) = (Done tt, wev) ->
    turn st e
      (Done (after_idle_check (time_now e) (after_data (time_now e) st)))
      (Read (RdBytes chunk) :: wev ++ data_events (time_now e) st ++
       idle_check_events (time_now e) (after_data (time_now e) st))
| turn_write_fails chunk wev code :
    ready e -> read_ans e = RdBytes chunk -> chunk <> [] ->
    write_loop chunk 0 (write_ans e) = (Exited code, wev) ->
    turn st e (Exited code) (Read (RdBytes chunk) :: wev)
| turn_write_blocked chunk wev call :
    ready e -> read_ans e = RdBytes chunk -> chunk <> [] ->
    write_loop chunk 0 (write_ans e) = (Blocked call, wev) ->
    turn st e (Blocked call) (Read (RdBytes chunk) :: wev).

(** The command that the configuration holds for a call of [system]. *)
Definition command_of (a : action) (c : Config) : option string :=
  match a with
  | IdleToActive => idle_to_active_command c
  | ActiveToIdle => active_to_idle_command c
  | OnEof => eof_command c
  end.

Definition action_eqb (a b : action) : bool :=
  match a, b with
  | IdleToActive, IdleToActive | ActiveToIdle, ActiveToIdle
  | OnEof, OnEof => true
  | _, _ => false
  end.

(** The calls of [system] made from the place [a]. *)
Definition calls_of (a : action) (tr : list event) : list (action * string) :=
  filter (fun p => action_eqb (fst p) a) (system_calls tr).

(** Events that are calls of [system], all of them. *)
Definition only_calls (tr : list event) : Prop :=
  forall x, In x tr -> exists a c, x = System a c.

(** ** Whole runs *)

(** The clock of the turns [envs] never reads less than before, from [t]
    on. *)
Fixpoint clock_never_goes_back (t : Z) (envs : list iter_env) : Prop :=
  match envs with
  | [] => True
  | e :: envs' => t <= time_now e /\ clock_never_goes_back (time_now e) envs'
  end.

(** The last reading of the clock in the turns [envs], [t] when there is
    none. *)
Fixpoint last_time (t : Z) (envs : list iter_env) : Z :=
  match envs with
  | [] => t
  | e :: envs' => last_time (time_now e) envs'
  end.

(** A computation that exits does so with [EXIT_FAILURE], and its
    diagnostics are the last things it does; one that does not exit writes
    no diagnostic. *)
Definition diagnoses_its_exit {A : Type} (m : M A) : Prop :=
  match fst m with
  | Exited code =>
      code = EXIT_FAILURE /\
      exists quiet diag,
        snd m = quiet ++ diag /\ filter is_diagnostic quiet = [] /\
        forallb is_diagnostic diag = true /\ diag <> []
  | _ => filter is_diagnostic (snd m) = []
  end.

(** Whenever a computation calls [system], it has written all it has
    read. *)
Definition calls_after_writes {A : Type} (m : M A) : Prop :=
  forall pre a c post,
    snd m = pre ++ System a c :: post -> forwarded pre = delivered pre.

(** ** The command line *)

Definition is_numeric_option (opt : ascii) : bool :=
  Ascii.eqb opt "t" || Ascii.eqb opt "i" || Ascii.eqb opt "a".

Definition is_command_option (opt : ascii) : bool :=
  Ascii.eqb opt "I" || Ascii.eqb opt "A" || Ascii.eqb opt "E".

(** The options that [parse_args] lets pass. *)
Definition option_accepted (o : getopt_result) : bool :=
  if is_numeric_option (fst o) then 0 <? atoi (snd o)
  else is_command_option (fst o).

(** The argument of the last occurrence of the option [c]. *)
Fixpoint last_arg (c : ascii) (opts : list getopt_result) : option string :=
  match opts with
  | [] => None
  | o :: opts' =>
      match last_arg c opts' with
      | Some s => Some s
      | None => if Ascii.eqb (fst o) c then Some (snd o) else None
      end
  end.

Definition setting_from (default : Z) (arg : option string) : Z :=
  match arg with
  | Some s => atoi s
  | None => default
  end.

Definition command_from (default arg : option string) : option string :=
  match arg with
  | Some s => Some s
  | None => default
  end.

Definition INT_MAX : Z := 2 ^ 31 - 1.

(** The threshold that gates a command. *)
Definition threshold_of (a : action) (c : Config) : Z :=
  match a with
  | IdleToActive => idle_to_active_threshold c
  | ActiveToIdle => active_to_idle_threshold c
  | OnEof => 0
  end.

(** ** Numbers and input, as the outside sees them *)

(** The number that a string of decimal digits denotes: each digit counts
    for its value times the power of ten of its place. *)
Fixpoint decimal_value (s : string) : Z :=
  match s with
  | EmptyString => 0
  | String c s' =>
      digit_value c * 10 ^ Z.of_nat (String.length s') + decimal_value s'
  end.

(** An [errno] value with which [write] fails for good: no space left on
    the device, as on Linux. *)
Definition ENOSPC : Z := 28.

(** The bytes that the environment has for the reads of the turns [envs],
    in order, up to the end of the stream: a turn gives its chunk when
    [select] reports the input readable and [read] answers with bytes. *)
Fixpoint input_of (envs : list iter_env) : list byte :=
  match envs with
  | [] => []
  | e :: envs' =>
      if (select_ret e >? 0) && stdin_isset e then
        match read_ans e with
        | RdBytes [] => []
        | RdBytes chunk => chunk ++ input_of envs'
        | RdErr _ => input_of envs'
        end
      else input_of envs'
  end.

(** The turn is one in which the input is readable and at its end. *)
Definition reads_eof (e : iter_env) : bool :=
  (select_ret e >? 0) && stdin_isset e &&
  match read_ans e with
  | RdBytes [] => true
  | _ => false
  end.

(** Nothing fails in the turn: [select] does not, [read] fails at most by
    would-block, and the writes fail at most by interruption and take, in
    all, as many bytes as were read. *)
Definition answers_suffice (e : iter_env) : Prop :=
  select_ret e <> -1 /\
  ((select_ret e >? 0) && stdin_isset e = true ->
   match read_ans e with
   | RdErr errno => errno = EAGAIN \/ errno = EWOULDBLOCK
   | RdBytes chunk =>
       only_interrupted (write_ans e) /\
       Z.of_nat (length chunk) <= taken (write_ans e)
   end).

(** ** Concrete inputs used below

    A configuration with every command set, the chunk ["hello"], a startup
    at time 10, a turn that reads the end of the stream, the options
    [-t 1 -a 1 -A "notify idle"] with the configuration they give, and a
    turn that reads ["hello"] and writes it in one call. *)

Definition cfg_ex : Config :=
  mkConfig 1 2 2 (Some "touch /tmp/marker") (Some "notify idle") (Some "bye").
Definition hello : list byte := list_byte_of_string "hello".
Definition su_ex : startup_env := mkStartup 0 0 10 10.
Definition eof_turn (now : Z) : iter_env := mkIter 1 true now (RdBytes []) [].
Definition opts_ex : list getopt_result :=
  [("t"%char, "1"); ("a"%char, "1"); ("A"%char, "notify idle")].
Definition cfg_opts_ex : Config :=
  mkConfig 1 DEFAULT_IDLE_TO_ACTIVE_THRESHOLD 1 None (Some "notify idle") None.
Definition data_turn (now : Z) : iter_env :=
  mkIter 1 true now (RdBytes hello) [WrOk 5].

(** * Properties *)

(** ** The monad *)

Lemma bind_emit {A : Type} (e : event) (k : M A) :
  (emit e ;; k) = (fst k, e :: snd k).
Proof. unfold bind, emit. destruct k as [r ev]. reflexivity. Qed.

Lemma bind_Done {A B : Type} (m : M A) (f : A -> M B) (b : B) ev :
  bind m f = (Done b, ev) ->
  exists a ev1 ev2,
    m = (Done a, ev1) /\ f a = (Done b, ev2) /\ ev = ev1 ++ ev2.
Proof.
  unfold bind. destruct m as [[a | code | call] ev1]; try discriminate.
  destruct (f a) as [r ev2] eqn:Hf. intros H. inversion H; subst.
  exists a, ev1, ev2. auto.
Qed.

Lemma bind_eq {A B : Type} (m : M A) (f : A -> M B) a ev1 :
  m = (Done a, ev1) -> bind m f = (fst (f a), ev1 ++ snd (f a)).
Proof. intros ->. unfold bind. destruct (f a). reflexivity. Qed.

Lemma bind_assoc {A B C : Type} (m : M A) (f : A -> M B) (g : B -> M C) :
  bind (bind m f) g = bind m (fun a => bind (f a) g).
Proof.
  destruct m as [[a | code | call] ev]; try reflexivity.
  unfold bind at 2 3. destruct (f a) as [[b | code | call] ev2]; try reflexivity.
  unfold bind. destruct (g b) as [r ev3]. rewrite app_assoc. reflexivity.
Qed.

(** ** Reading a trace *)

Lemma forwarded_app tr1 tr2 : forwarded (tr1 ++ tr2) = forwarded tr1 ++ forwarded tr2.
Proof. apply flat_map_app. Qed.

Lemma forwarded_cons e tr : forwarded (e :: tr) = forwarded [e] ++ forwarded tr.
Proof. apply (forwarded_app [e] tr). Qed.

Lemma delivered_app tr1 tr2 : delivered (tr1 ++ tr2) = delivered tr1 ++ delivered tr2.
Proof. apply flat_map_app. Qed.

Lemma system_calls_app tr1 tr2 :
  system_calls (tr1 ++ tr2) = system_calls tr1 ++ system_calls tr2.
Proof. apply flat_map_app. Qed.

Lemma in_system_calls a c tr :
  In (System a c) tr <-> In (a, c) (system_calls tr).
Proof.
  unfold system_calls. rewrite in_flat_map. split.
  - intros H. exists (System a c). split; [assumption | left; reflexivity].
  - intros [x [Hx Hin]]. destruct x; simpl in Hin; try contradiction.
    destruct Hin as [Heq | []]. inversion Heq; subst. assumption.
Qed.

Lemma system_calls_action_events cond site cmd :
  system_calls (action_events cond site cmd) =
    match cmd with
    | Some c => if cond then [(site, c)] else []
    | None => []
    end.
Proof. destruct cmd as [c |]; [destruct cond |]; reflexivity. Qed.

Lemma in_action_events a c cond site cmd :
  In (System a c) (action_events cond site cmd) <->
  a = site /\ cond = true /\ cmd = Some c.
Proof.
  unfold action_events. destruct cmd as [c' |]; [destruct cond |]; simpl.
  - split.
    + intros [H | []]. inversion H; subst. auto.
    + intros [-> [_ H]]. inversion H; subst. left. reflexivity.
  - split; [intros [] | intros [_ [H _]]; discriminate].
  - split; [intros [] | intros [_ [_ H]]; discriminate].
Qed.

Lemma action_events_no_bytes cond site cmd :
  delivered (action_events cond site cmd) = [] /\
  forwarded (action_events cond site cmd) = [].
Proof. destruct cmd as [c |]; [destruct cond |]; split; reflexivity. Qed.

Lemma diagnostics_no_bytes ev :
  forallb is_diagnostic ev = true ->
  delivered ev = [] /\ forwarded ev = [] /\ system_calls ev = [] /\
  filter is_read ev = [] /\ filter is_write ev = [].
Proof.
  induction ev as [| x ev IH]; [repeat split |].
  simpl. intros H. apply andb_prop in H. destruct H as [Hx Hev].
  destruct (IH Hev) as [H1 [H2 [H3 [H4 H5]]]].
  destruct x; try discriminate; simpl; auto.
Qed.

Lemma eof_calls_none tr :
  (forall c, ~ In (System OnEof c) tr) -> eof_calls tr = [].
Proof.
  unfold eof_calls. induction tr as [| x tr IH]; [reflexivity |].
  intros H.
  assert (Htl : forall c, ~ In (System OnEof c) tr)
    by (intros c Hin; apply (H c); right; exact Hin).
  specialize (IH Htl).
  destruct x as [fmt args | s | r | req r | site cmd]; try exact IH.
  destruct site; try exact IH.
  exfalso. apply (H cmd). left. reflexivity.
Qed.

Lemma eof_calls_app tr1 tr2 : eof_calls (tr1 ++ tr2) = eof_calls tr1 ++ eof_calls tr2.
Proof. unfold eof_calls. rewrite system_calls_app. apply filter_app. Qed.

Create Rewrite HintDb trace.
#[local] Hint Rewrite delivered_app forwarded_app system_calls_app
  eof_calls_app : trace.

(** Closes the side conditions of a concrete example. *)
Ltac by_evaluation :=
  first [ reflexivity | discriminate | simpl; lia
        | left; reflexivity | right; left; reflexivity ].

(** ** The write loop *)

Lemma skipn_past {A : Type} (l : list A) (w : Z) :
  ~ w < Z.of_nat (length l) -> skipn (Z.to_nat w) l = [].
Proof. intros H. apply skipn_all2. lia. Qed.

Lemma nonempty_length {A : Type} (l : list A) :
  l <> [] -> (Z.of_nat (length l) >? 0) = true.
Proof.
  intros H. destruct l; [contradiction |]. simpl length.
  apply Z.gtb_lt. lia.
Qed.

Lemma write_loop_step chunk w a answers :
  w < Z.of_nat (length chunk) ->
  write_loop chunk w (a :: answers) =
    (emit (Write (skipn (Z.to_nat w) chunk) a) ;;
     match a with
     | WrErr errno =>
         if errno =? EINTR then write_loop chunk w answers
         else perror "write" ;; exit EXIT_FAILURE
     | WrOk n => write_loop chunk (w + Z.of_nat n) answers
     end).
Proof.
  intros H. cbn [write_loop]. apply Z.ltb_lt in H. rewrite H. reflexivity.
Qed.

Lemma write_loop_done chunk w answers :
  ~ w < Z.of_nat (length chunk) -> write_loop chunk w answers = ret tt.
Proof.
  intros H. destruct answers; cbn [write_loop];
    destruct (Z.ltb_spec w (Z.of_nat (length chunk))); try lia; reflexivity.
Qed.

(** Whatever the answers, the loop writes a prefix of what is left of the
    chunk, all of it when it ends, and does nothing else. *)
Lemma write_loop_trace answers : forall chunk w r ev,
  0 <= w ->
  write_loop chunk w answers = (r, ev) ->
  (exists rest, skipn (Z.to_nat w) chunk = forwarded ev ++ rest /\
                (r = Done tt -> rest = [])) /\
  delivered ev = [] /\ system_calls ev = [] /\
  filter is_read ev = [] /\
  (forall code, r = Exited code -> code = EXIT_FAILURE) /\
  r <> Blocked InSelect.
Proof.
  induction answers as [| a answers IH]; intros chunk w r ev Hw H.
  - cbn [write_loop] in H.
    destruct (Z.ltb_spec w (Z.of_nat (length chunk))) as [Hlt | Hge].
    + inversion H; subst. repeat split; try reflexivity; try discriminate.
      exists (skipn (Z.to_nat w) chunk). split; [reflexivity | discriminate].
    + inversion H; subst. repeat split; try reflexivity; try discriminate.
      exists []. split; [| reflexivity]. apply skipn_past. lia.
  - destruct (Z.ltb_spec w (Z.of_nat (length chunk))) as [Hlt | Hge].
    + rewrite write_loop_step in H by assumption. rewrite bind_emit in H.
      destruct a as [n | errno].
      * destruct (write_loop chunk (w + Z.of_nat n) answers) as [r' ev'] eqn:E.
        simpl in H. inversion H; subst.
        assert (Hw' : 0 <= w + Z.of_nat n) by lia.
        destruct (IH _ _ _ _ Hw' E) as [[rest [Hr Hd]] [H1 [H2 [H3 [H4 H5]]]]].
        repeat split; auto.
        exists rest. split; [| assumption].
        rewrite forwarded_cons. cbn [forwarded flat_map].
        rewrite app_nil_r, <- app_assoc. fold (forwarded ev'). rewrite <- Hr.
        replace (Z.to_nat (w + Z.of_nat n)) with (n + Z.to_nat w)%nat by lia.
        rewrite <- skipn_skipn. symmetry. apply firstn_skipn.
      * destruct (Z.eqb_spec errno EINTR) as [-> | Hne].
        -- destruct (write_loop chunk w answers) as [r' ev'] eqn:E.
           simpl in H. inversion H; subst.
           destruct (IH _ _ _ _ Hw E) as [[rest [Hr Hd]] [H1 [H2 [H3 [H4 H5]]]]].
           repeat split; auto.
           exists rest. split; [exact Hr | assumption].
        -- simpl in H. inversion H; subst.
           repeat split; try reflexivity; try discriminate.
           ++ exists (skipn (Z.to_nat w) chunk). split; [reflexivity | discriminate].
           ++ intros code Hc. inversion Hc. reflexivity.
    + rewrite write_loop_done in H by lia. inversion H; subst.
      repeat split; try reflexivity; try discriminate.
      exists []. split; [| reflexivity]. apply skipn_past. lia.
Qed.

Lemma write_loop_progress answers : forall chunk w,
  only_interrupted answers ->
  Z.of_nat (length chunk) <= w + taken answers ->
  exists ev, write_loop chunk w answers = (Done tt, ev).
Proof.
  induction answers as [| a answers IH]; intros chunk w Hok Hsum.
  - exists []. apply write_loop_done. simpl in Hsum. lia.
  - destruct (Z.ltb_spec w (Z.of_nat (length chunk))) as [Hlt | Hge].
    + rewrite write_loop_step by assumption. rewrite bind_emit.
      assert (Hok' : only_interrupted answers).
      { intros errno Hin. apply Hok. right. assumption. }
      destruct a as [n | errno].
      * destruct (IH chunk (w + Z.of_nat n) Hok') as [ev E].
        { simpl in Hsum. lia. }
        rewrite E. eexists. reflexivity.
      * rewrite (Hok errno (or_introl eq_refl)).
        rewrite Z.eqb_refl.
        destruct (IH chunk w Hok') as [ev E].
        { simpl in Hsum. lia. }
        rewrite E. eexists. reflexivity.
    + exists []. apply write_loop_done. lia.
Qed.

Lemma write_loop_blocked answers : forall chunk w,
  only_interrupted answers ->
  w + taken answers < Z.of_nat (length chunk) ->
  exists ev, write_loop chunk w answers = (Blocked InWrite, ev).
Proof.
  induction answers as [| a answers IH]; intros chunk w Hok Hsum.
  - exists []. cbn [write_loop]. simpl in Hsum.
    destruct (Z.ltb_spec w (Z.of_nat (length chunk))); [reflexivity | lia].
  - assert (Hok' : only_interrupted answers).
    { intros errno Hin. apply Hok. right. assumption. }
    assert (0 <= taken answers).
    { clear. induction answers as [| [n | x] l IHl]; simpl; lia. }
    destruct a as [n | errno]; simpl in Hsum.
    + rewrite write_loop_step by lia. rewrite bind_emit.
      destruct (IH chunk (w + Z.of_nat n) Hok') as [ev E]; [lia |].
      rewrite E. eexists. reflexivity.
    + rewrite write_loop_step by lia. rewrite bind_emit.
      rewrite (Hok errno (or_introl eq_refl)), Z.eqb_refl.
      destruct (IH chunk w Hok') as [ev E]; [lia |].
      rewrite E. eexists. reflexivity.
Qed.

(** The write loop ends with the chunk written, or by a write error; or
    it has not ended. *)
Lemma write_loop_ends answers : forall chunk w r ev,
  write_loop chunk w answers = (r, ev) ->
  r = Done tt \/ r = Blocked InWrite \/
  (r = Exited EXIT_FAILURE /\ exists tr, ev = tr ++ [Perror "write"]).
Proof.
  induction answers as [| a answers IH]; intros chunk w r ev H.
  - cbn [write_loop] in H.
    destruct (w <? Z.of_nat (length chunk)); inversion H; auto.
  - destruct (Z.ltb_spec w (Z.of_nat (length chunk))) as [Hlt | Hge].
    + rewrite write_loop_step in H by assumption. rewrite bind_emit in H.
      destruct a as [n | errno].
      * destruct (write_loop chunk (w + Z.of_nat n) answers) as [r' ev'] eqn:E.
        simpl in H. inversion H; subst.
        destruct (IH _ _ _ _ E) as [-> | [-> | [-> [tr ->]]]]; auto.
        right. right. split; [reflexivity |]. eexists (_ :: tr). reflexivity.
      * destruct (errno =? EINTR).
        -- destruct (write_loop chunk w answers) as [r' ev'] eqn:E.
           simpl in H. inversion H; subst.
           destruct (IH _ _ _ _ E) as [-> | [-> | [-> [tr ->]]]]; auto.
           right. right. split; [reflexivity |]. eexists (_ :: tr).
           reflexivity.
        -- simpl in H. inversion H; subst. right. right.
           split; [reflexivity |]. eexists [_]. reflexivity.
    + rewrite write_loop_done in H by lia. inversion H. auto.
Qed.

(** ** The blocks of the loop *)

Lemma run_if_set_eq cond site cmd :
  run_if_set cond site cmd = (Done tt, action_events cond site cmd).
Proof. destruct cmd as [c |]; [destruct cond |]; reflexivity. Qed.

Lemma idle_to_active_eq now st :
  idle_to_active now st =
    if is_idle st then
      (Done (set_state_start_time now (set_is_idle false st)),
       action_events
         (now - state_start_time st >=? idle_to_active_threshold (config st))
         IdleToActive (idle_to_active_command (config st)))
    else (Done st, []).
Proof.
  unfold idle_to_active. destruct (is_idle st); [| reflexivity].
  rewrite run_if_set_eq. simpl. rewrite app_nil_r. reflexivity.
Qed.

Lemma active_to_idle_eq now st :
  active_to_idle now st =
    if negb (is_idle st) && (now - last_data_time st >=? idle_timeout (config st))
    then
      (Done (set_state_start_time now (set_is_idle true st)),
       action_events
         (now - state_start_time st >=? active_to_idle_threshold (config st))
         ActiveToIdle (active_to_idle_command (config st)))
    else (Done st, []).
Proof.
  unfold active_to_idle.
  destruct (negb (is_idle st) && _); [| reflexivity].
  rewrite run_if_set_eq. simpl. rewrite app_nil_r. reflexivity.
Qed.

Lemma readable_true e :
  select_ret e > 0 -> stdin_isset e = true ->
  (select_ret e >? 0) && stdin_isset e = true /\ (select_ret e =? -1) = false.
Proof.
  intros H1 H2. rewrite H2. split.
  - rewrite andb_true_r. apply Z.gtb_lt. lia.
  - apply Z.eqb_neq. lia.
Qed.

(** After data the idle check does nothing when [idle_timeout] is positive. *)
Lemma active_to_idle_after_data now st :
  0 < idle_timeout (config st) ->
  active_to_idle now (set_last_data_time now st) =
    (Done (set_last_data_time now st), []).
Proof.
  intros H. rewrite active_to_idle_eq. simpl.
  replace (now - now >=? idle_timeout (config st)) with false.
  - rewrite andb_false_r. reflexivity.
  - symmetry. rewrite Z.geb_leb. apply Z.leb_gt. lia.
Qed.

Lemma process_data_chunk now e st chunk wev :
  select_ret e > 0 -> stdin_isset e = true ->
  read_ans e = RdBytes chunk -> chunk <> [] ->
  write_loop chunk 0 (write_ans e) = (Done tt, wev) ->
  process_data now e st =
    (Done (set_last_data_time now
             (if is_idle st
              then set_state_start_time now (set_is_idle false st) else st)),
     Read (RdBytes chunk) :: wev ++
       (if is_idle st then
          action_events
            (now - state_start_time st >=? idle_to_active_threshold (config st))
            IdleToActive (idle_to_active_command (config st))
        else [])).
Proof.
  intros Hs Hi Hr Hne Hw. unfold process_data.
  destruct (readable_true e Hs Hi) as [-> _].
  rewrite Hr, bind_emit, (nonempty_length chunk Hne).
  rewrite (bind_eq _ _ tt wev Hw), idle_to_active_eq.
  destruct (is_idle st); simpl; rewrite ?app_nil_r; reflexivity.
Qed.

Lemma process_data_Done now e st st1 ev1 :
  process_data now e st = (Done st1, ev1) ->
  ((select_ret e >? 0) && stdin_isset e = false /\ st1 = st /\ ev1 = []) \/
  ((select_ret e >? 0) && stdin_isset e = true /\
   ((exists errno,
       read_ans e = RdErr errno /\ st1 = st /\ ev1 = [Read (RdErr errno)]) \/
    (read_ans e = RdBytes [] /\ st1 = set_eof_reached true st /\
     ev1 = Read (RdBytes []) ::
             action_events true OnEof (eof_command (config st))) \/
    (exists chunk wev,
       read_ans e = RdBytes chunk /\ chunk <> [] /\
       write_loop chunk 0 (write_ans e) = (Done tt, wev) /\
       st1 = set_last_data_time now
               (if is_idle st
                then set_state_start_time now (set_is_idle false st)
                else st) /\
       ev1 = Read (RdBytes chunk) :: wev ++
               (if is_idle st then
                  action_events
                    (now - state_start_time st >=?
                     idle_to_active_threshold (config st))
                    IdleToActive (idle_to_active_command (config st))
                else [])))).
Proof.
  destruct ((select_ret e >? 0) && stdin_isset e) eqn:Hready.
  2: { unfold process_data. rewrite Hready. intros H. inversion H.
       left. auto. }
  intros H. right. split; [reflexivity |].
  destruct (read_ans e) as [chunk | errno] eqn:Hr.
  - destruct chunk as [| b chunk].
    + right. left. unfold process_data in H.
      rewrite Hready, Hr, bind_emit in H.
      simpl in H. rewrite run_if_set_eq in H. simpl in H.
      rewrite app_nil_r in H. inversion H. auto.
    + right. right.
      destruct (write_loop (b :: chunk) 0 (write_ans e)) as [rw wev] eqn:Hw.
      destruct rw as [[] | code | call].
      * apply andb_prop in Hready. destruct Hready as [Hs Hi].
        apply Z.gtb_lt in Hs.
        rewrite (process_data_chunk now e st (b :: chunk) wev) in H;
          try assumption; try discriminate; try lia.
        inversion H. exists (b :: chunk), wev.
        split; [reflexivity |]. split; [discriminate |]. auto.
      * unfold process_data in H. rewrite Hready, Hr, bind_emit in H.
        rewrite nonempty_length, Hw in H by discriminate. discriminate.
      * unfold process_data in H. rewrite Hready, Hr, bind_emit in H.
        rewrite nonempty_length, Hw in H by discriminate. discriminate.
  - left. exists errno. unfold process_data in H.
    rewrite Hready, Hr, bind_emit in H.
    destruct (negb (errno =? EAGAIN) && negb (errno =? EWOULDBLOCK));
      [discriminate |].
    inversion H. auto.
Qed.

Lemma loop_body_Done st e st' ev :
  loop_body st e = (Done st', ev) ->
  exists st1 ev1 acts,
    process_data (time_now e) e st = (Done st1, ev1) /\
    active_to_idle (time_now e) st1 = (Done st', acts) /\
    ev = ev1 ++ acts.
Proof.
  unfold loop_body. destruct (select_ret e =? -1); [discriminate |].
  intros H. apply bind_Done in H. destruct H as [st1 [ev1 [acts H]]].
  exists st1, ev1, acts. exact H.
Qed.

Lemma active_to_idle_Done now st st' acts :
  active_to_idle now st = (Done st', acts) ->
  config st' = config st /\ eof_reached st' = eof_reached st /\
  last_data_time st' = last_data_time st /\
  change_together now st st' /\
  (is_idle st = true -> st' = st /\ acts = []) /\
  (is_idle st' = false -> st' = st /\ acts = []) /\
  filter is_read acts = [] /\ filter is_write acts = [] /\
  delivered acts = [] /\
  (forall c, ~ In (System OnEof c) acts) /\
  (acts = [] \/ exists c, acts = [System ActiveToIdle c]).
Proof.
  rewrite active_to_idle_eq. unfold change_together.
  destruct (is_idle st) eqn:Hidle; simpl.
  - intros H. inversion H; subst. rewrite ?Hidle.
    repeat split; auto; try congruence; try (intros c []).
  - destruct (now - last_data_time st >=? idle_timeout (config st)).
    + intros H. inversion H; subst. simpl. rewrite ?Hidle.
      unfold action_events.
      destruct (active_to_idle_command (config st)) as [c |];
        [destruct (_ >=? _) |]; simpl;
        repeat split; auto; try discriminate; try congruence;
        try (intros c' [Hc | []]; discriminate);
        try (intros c' []).
      right. exists c. reflexivity.
    + intros H. inversion H; subst. rewrite ?Hidle.
      repeat split; auto; try congruence; try (intros c []).
Qed.

(** ** Forwarding a chunk *)

(** C7. While bytes of the chunk are left, the write loop answers an
    interrupted write ([EINTR]) by the same write again and a partial write
    by a write of what is left; it ends normally only with the whole chunk
    written, and does so as soon as the writes have taken all the bytes;
    until then it is still writing.  Any other write error ends the process
    at once: [perror], then [exit(EXIT_FAILURE)], also seen from the main
    loop. *)
Theorem write_loop_retries_until_written
    (chunk : list byte) (w : Z) (answers : list write_result) :
  0 <= w -> w < Z.of_nat (length chunk) ->
  let rest := skipn (Z.to_nat w) chunk in
  write_loop chunk w (WrErr EINTR :: answers) =
    (emit (Write rest (WrErr EINTR)) ;; write_loop chunk w answers) /\
  (forall n,
     write_loop chunk w (WrOk n :: answers) =
       (emit (Write rest (WrOk n)) ;;
        write_loop chunk (w + Z.of_nat n) answers)) /\
  (forall errno, errno <> EINTR ->
     write_loop chunk w (WrErr errno :: answers) =
       (Exited EXIT_FAILURE, [Write rest (WrErr errno); Perror "write"])) /\
  (forall ev, write_loop chunk w answers = (Done tt, ev) ->
     forwarded ev = rest) /\
  (only_interrupted answers ->
   Z.of_nat (length chunk) <= w + taken answers ->
   exists ev, write_loop chunk w answers = (Done tt, ev) /\
              forwarded ev = rest) /\
  (only_interrupted answers ->
   w + taken answers < Z.of_nat (length chunk) ->
   exists ev, write_loop chunk w answers = (Blocked InWrite, ev)) /\
  (forall st e code ev,
     select_ret e > 0 -> stdin_isset e = true ->
     read_ans e = RdBytes chunk ->
     write_loop chunk 0 (write_ans e) = (Exited code, ev) ->
     code = EXIT_FAILURE /\
     loop_body st e = (Exited EXIT_FAILURE, Read (RdBytes chunk) :: ev) /\
     forall envs, eof_reached st = false ->
       main_loop st (e :: envs) =
         (Exited EXIT_FAILURE, Read (RdBytes chunk) :: ev)).
Proof.
  intros Hw Hlt rest.
  assert (Hwritten : forall ev,
            write_loop chunk w answers = (Done tt, ev) -> forwarded ev = rest).
  { intros ev H.
    destruct (write_loop_trace _ _ _ _ _ Hw H) as [[tl [Hr Htl]] _].
    rewrite (Htl eq_refl), app_nil_r in Hr. symmetry. exact Hr. }
  split; [| split; [| split; [| split; [| split; [| split]]]]].
  - rewrite write_loop_step by assumption. reflexivity.
  - intros n. rewrite write_loop_step by assumption. reflexivity.
  - intros errno Hne. rewrite write_loop_step by assumption.
    rewrite bind_emit. apply Z.eqb_neq in Hne. rewrite Hne. reflexivity.
  - exact Hwritten.
  - intros Hok Hsum.
    destruct (write_loop_progress answers chunk w Hok Hsum) as [ev E].
    exists ev. split; [exact E | apply Hwritten; exact E].
  - apply write_loop_blocked.
  - intros st e code ev Hs Hi Hr Hex.
    destruct (write_loop_trace _ _ _ _ _ (Z.le_refl 0) Hex)
      as [_ [_ [_ [_ [Hcode _]]]]].
    pose proof (Hcode code eq_refl) as ->.
    assert (Hl : loop_body st e =
                 (Exited EXIT_FAILURE, Read (RdBytes chunk) :: ev)).
    { unfold loop_body, process_data.
      destruct (readable_true e Hs Hi) as [-> ->].
      rewrite Hr, bind_emit.
      rewrite nonempty_length by (intros ->; simpl in Hlt; lia).
      rewrite Hex. reflexivity. }
    split; [reflexivity |]. split; [exact Hl |].
    intros envs Heof. cbn [main_loop]. rewrite Heof, Hl. reflexivity.
Qed.

Lemma write_loop_retries_until_written_witness :
  write_loop hello 0 [WrOk 2; WrErr EINTR; WrOk 3] =
    (Done tt,
     [Write hello (WrOk 2); Write (skipn 2 hello) (WrErr EINTR);
      Write (skipn 2 hello) (WrOk 3)]) /\
  write_loop hello 2 [WrErr 32; WrOk 3] =
    (Exited EXIT_FAILURE, [Write (skipn 2 hello) (WrErr 32); Perror "write"]).
Proof.
  split.
  - destruct (write_loop_retries_until_written hello 0 [WrErr EINTR; WrOk 3])
      as [_ [Hpart _]]; [lia | simpl; lia |].
    rewrite Hpart.
    destruct (write_loop_retries_until_written hello 2 [WrOk 3])
      as [Hintr _]; [lia | simpl; lia |].
    change (0 + Z.of_nat 2) with 2. rewrite Hintr. reflexivity.
  - apply (write_loop_retries_until_written hello 2 [WrOk 3]);
      first [discriminate | simpl; lia].
Defined.

(** ** Data arriving *)

Section DataTurn.

(** A turn in which [select] reports input, [read] delivers the bytes
    [chunk], at least one, and the write loop forwards them, with the
    events [wev]. *)
Variables (st : locals) (e : iter_env) (chunk : list byte).
Variable wev : list event.
Hypothesis select_ready : select_ret e > 0.
Hypothesis stdin_ready : stdin_isset e = true.
Hypothesis read_chunk : read_ans e = RdBytes chunk.
Hypothesis chunk_not_empty : chunk <> [].
Hypothesis chunk_written :
  write_loop chunk 0 (write_ans e) = (Done tt, wev).

Lemma data_turn_events acts :
  system_calls (Read (RdBytes chunk) :: wev ++ acts) = system_calls acts /\
  forall a c, In (System a c) (Read (RdBytes chunk) :: wev ++ acts) ->
              In (System a c) acts.
Proof.
  destruct (write_loop_trace _ _ _ _ _ (Z.le_refl 0) chunk_written)
    as [_ [_ [Hsys _]]].
  split.
  - change (Read (RdBytes chunk) :: wev ++ acts)
      with ([Read (RdBytes chunk)] ++ wev ++ acts).
    autorewrite with trace. rewrite Hsys. reflexivity.
  - intros a c [Hin | Hin]; [discriminate |].
    apply in_app_or in Hin. destruct Hin as [Hin | Hin]; [| exact Hin].
    apply in_system_calls in Hin. rewrite Hsys in Hin. destruct Hin.
Qed.

(** C3. A read of one or more bytes while the monitor is idle (and whose
    chunk the write loop forwards) always makes the monitor active, with
    [state_start_time] the time snapshot of the turn, whatever the threshold;
    [system] is called on the idle-to-active command exactly when the time
    spent idle, [current_time - state_start_time], is at least
    [idle_to_active_threshold] and the command is set; [last_data_time] is
    untouched by the transition block and set to the snapshot after it.  With
    a positive [idle_timeout] the idle check of the same turn changes nothing
    more. *)
Theorem data_while_idle_enters_active :
  is_idle st = true ->
  let now := time_now e in
  let idle_duration := now - state_start_time st in
  exists st' acts,
    process_data now e st = (Done st', Read (RdBytes chunk) :: wev ++ acts) /\
    activity_state st' = Active /\
    state_start_time st' = now /\
    last_data_time st' = now /\
    eof_reached st' = eof_reached st /\ config st' = config st /\
    ((exists c, In (System IdleToActive c)
                  (Read (RdBytes chunk) :: wev ++ acts)) <->
     idle_duration >= idle_to_active_threshold (config st) /\
     idle_to_active_command (config st) <> None) /\
    system_calls (Read (RdBytes chunk) :: wev ++ acts) =
      match idle_to_active_command (config st) with
      | Some c =>
          if idle_duration >=? idle_to_active_threshold (config st)
          then [(IdleToActive, c)] else []
      | None => []
      end /\
    (exists st1,
       idle_to_active now st = (Done st1, acts) /\
       last_data_time st1 = last_data_time st /\
       st' = set_last_data_time now st1) /\
    (0 < idle_timeout (config st) ->
     loop_body st e = (Done st', Read (RdBytes chunk) :: wev ++ acts)).
Proof.
  intros Hidle now idle_duration.
  pose proof (process_data_chunk now e st chunk wev select_ready stdin_ready
                read_chunk chunk_not_empty chunk_written) as Hp.
  rewrite Hidle in Hp.
  eexists. eexists. split; [exact Hp |].
  do 5 (split; [reflexivity |]).
  split; [split |].
  - intros [c Hin]. apply data_turn_events in Hin.
    apply in_action_events in Hin. destruct Hin as [_ [Hc Hcmd]].
    apply Z.geb_le in Hc. split; [lia |]. rewrite Hcmd. discriminate.
  - intros [Hge Hcmd].
    destruct (idle_to_active_command (config st)) as [c |] eqn:Ec;
      [| contradiction].
    exists c. right. apply in_or_app. right.
    apply in_action_events. repeat split.
    apply Z.geb_le. lia.
  - split; [| split].
    + rewrite (proj1 (data_turn_events _)).
      apply system_calls_action_events.
    + exists (set_state_start_time now (set_is_idle false st)).
      rewrite idle_to_active_eq, Hidle. repeat split.
    + intros Hpos. unfold loop_body.
      destruct (readable_true e select_ready stdin_ready) as [_ ->].
      fold now. rewrite (bind_eq _ _ _ _ Hp).
      rewrite (active_to_idle_after_data now
                 (set_state_start_time now (set_is_idle false st)) Hpos).
      simpl. rewrite app_nil_r. reflexivity.
Qed.

(** C10. A read of one or more bytes while the monitor is already active
    (and whose chunk the write loop forwards) changes [last_data_time], which
    becomes the time snapshot of the turn, and nothing else: the state,
    [state_start_time], [eof_reached] and the configuration stay as they
    were, and [system] is not called. *)
Theorem data_while_active_only_sets_last_data_time :
  is_idle st = false ->
  let now := time_now e in
  exists st',
    process_data now e st = (Done st', Read (RdBytes chunk) :: wev) /\
    st' = set_last_data_time now st /\
    last_data_time st' = now /\
    activity_state st' = activity_state st /\
    state_start_time st' = state_start_time st /\
    eof_reached st' = eof_reached st /\
    config st' = config st /\
    system_calls (Read (RdBytes chunk) :: wev) = [] /\
    (0 < idle_timeout (config st) ->
     loop_body st e = (Done st', Read (RdBytes chunk) :: wev)).
Proof.
  intros Hact now.
  pose proof (process_data_chunk now e st chunk wev select_ready stdin_ready
                read_chunk chunk_not_empty chunk_written) as Hp.
  rewrite Hact, app_nil_r in Hp.
  exists (set_last_data_time now st).
  split; [exact Hp |]. do 6 (split; [reflexivity |]).
  split.
  - pose proof (proj1 (data_turn_events [])) as Hsys.
    rewrite app_nil_r in Hsys. exact Hsys.
  - intros Hpos. unfold loop_body.
    destruct (readable_true e select_ready stdin_ready) as [_ ->].
    fold now. rewrite (bind_eq _ _ _ _ Hp).
    rewrite (active_to_idle_after_data now st Hpos).
    simpl. rewrite app_nil_r. reflexivity.
Qed.

End DataTurn.

Lemma data_while_idle_enters_active_witness :
  exists st' acts,
    process_data 13
      (mkIter 1 true 13 (RdBytes hello) [WrOk 2; WrErr EINTR; WrOk 3])
      (mkLocals cfg_ex 10 10 true false) =
      (Done st', Read (RdBytes hello) ::
         [Write hello (WrOk 2); Write (skipn 2 hello) (WrErr EINTR);
          Write (skipn 2 hello) (WrOk 3)] ++ acts) /\
    activity_state st' = Active /\ state_start_time st' = 13 /\
    last_data_time st' = 13 /\ acts = [System IdleToActive "touch /tmp/marker"].
Proof.
  destruct (data_while_idle_enters_active
              (mkLocals cfg_ex 10 10 true false)
              (mkIter 1 true 13 (RdBytes hello) [WrOk 2; WrErr EINTR; WrOk 3])
              hello
              [Write hello (WrOk 2); Write (skipn 2 hello) (WrErr EINTR);
               Write (skipn 2 hello) (WrOk 3)])
    as [st' [acts [Hp [Ha [Hs [Hl [_ [_ [_ [Hc _]]]]]]]]]];
    [by_evaluation .. |].
  exists st', acts. repeat split; try assumption.
  simpl in Hp. inversion Hp. reflexivity.
Defined.

Lemma data_while_active_only_sets_last_data_time_witness :
  loop_body (mkLocals cfg_ex 10 7 false false)
    (mkIter 1 true 13 (RdBytes hello) [WrOk 5]) =
    (Done (mkLocals cfg_ex 13 7 false false),
     [Read (RdBytes hello); Write hello (WrOk 5)]).
Proof.
  destruct (data_while_active_only_sets_last_data_time
              (mkLocals cfg_ex 10 7 false false)
              (mkIter 1 true 13 (RdBytes hello) [WrOk 5])
              hello [Write hello (WrOk 5)])
    as [st' [_ [Hst [_ [_ [_ [_ [_ [_ Hloop]]]]]]]]];
    [by_evaluation .. |].
  rewrite Hloop by by_evaluation. rewrite Hst. reflexivity.
Defined.

(** ** The idle check *)

(** C4. In every turn of the loop that reaches the idle check, after data
    or without, if the monitor is active there and
    [current_time - last_data_time >= idle_timeout], the monitor becomes
    idle and [state_start_time] becomes the time snapshot of the turn,
    whatever the threshold; [system] is called on the active-to-idle command
    exactly when the time spent active, [current_time - state_start_time]
    with the value [state_start_time] has before the update, is at least
    [active_to_idle_threshold] and the command is set; the call is the last
    event of the turn and the updated state is its result. *)
Theorem idle_timeout_enters_idle
    (st : locals) (e : iter_env) (st1 : locals) (ev1 : list event) :
  select_ret e <> -1 ->
  process_data (time_now e) e st = (Done st1, ev1) ->
  is_idle st1 = false ->
  time_now e - last_data_time st1 >= idle_timeout (config st1) ->
  let now := time_now e in
  let active_duration := now - state_start_time st1 in
  exists st' acts,
    loop_body st e = (Done st', ev1 ++ acts) /\
    active_to_idle now st1 = (Done st', acts) /\
    st' = set_state_start_time now (set_is_idle true st1) /\
    activity_state st' = Idle /\
    state_start_time st' = now /\
    last_data_time st' = last_data_time st1 /\
    eof_reached st' = eof_reached st1 /\
    config st' = config st1 /\
    ((exists c, In (System ActiveToIdle c) acts) <->
     active_duration >= active_to_idle_threshold (config st1) /\
     active_to_idle_command (config st1) <> None) /\
    acts =
      match active_to_idle_command (config st1) with
      | Some c =>
          if active_duration >=? active_to_idle_threshold (config st1)
          then [System ActiveToIdle c] else []
      | None => []
      end /\
    active_to_idle now st1 =
      (run_if_set
         (active_duration >=? active_to_idle_threshold (config st1))
         ActiveToIdle (active_to_idle_command (config st1)) ;;
       ret (set_state_start_time now (set_is_idle true st1))).
Proof.
  intros Hsel Hp Hact Hto now active_duration.
  assert (Ha : active_to_idle now st1 =
               (Done (set_state_start_time now (set_is_idle true st1)),
                action_events
                  (active_duration >=? active_to_idle_threshold (config st1))
                  ActiveToIdle (active_to_idle_command (config st1)))).
  { rewrite active_to_idle_eq, Hact.
    replace (now - last_data_time st1 >=? idle_timeout (config st1))
      with true; [reflexivity |].
    symmetry. apply Z.geb_le. unfold now. lia. }
  eexists. eexists. split; [| split; [exact Ha |]].
  - unfold loop_body. apply Z.eqb_neq in Hsel. rewrite Hsel.
    fold now. rewrite (bind_eq _ _ _ _ Hp), Ha. reflexivity.
  - do 6 (split; [reflexivity |]). split; [split |].
    + intros [c Hin]. apply in_action_events in Hin.
      destruct Hin as [_ [Hc Hcmd]]. apply Z.geb_le in Hc.
      split; [lia |]. rewrite Hcmd. discriminate.
    + intros [Hge Hcmd].
      destruct (active_to_idle_command (config st1)) as [c |] eqn:Ec;
        [| contradiction].
      exists c. apply in_action_events. repeat split.
      apply Z.geb_le. lia.
    + split; [reflexivity |].
      unfold active_to_idle. rewrite Hact.
      replace (now - last_data_time st1 >=? idle_timeout (config st1))
        with true; [reflexivity |].
      symmetry. apply Z.geb_le. unfold now. lia.
Qed.

Lemma idle_timeout_enters_idle_witness :
  loop_body (mkLocals cfg_ex 10 10 false false)
    (mkIter 0 false 11 (RdErr EAGAIN) []) =
    (Done (mkLocals cfg_ex 10 11 true false), []) /\
  loop_body (mkLocals cfg_ex 10 9 false false)
    (mkIter 0 false 11 (RdErr EAGAIN) []) =
    (Done (mkLocals cfg_ex 10 11 true false),
     [System ActiveToIdle "notify idle"]).
Proof.
  split.
  - destruct (idle_timeout_enters_idle
                (mkLocals cfg_ex 10 10 false false)
                (mkIter 0 false 11 (RdErr EAGAIN) [])
                (mkLocals cfg_ex 10 10 false false) [])
      as [st' [acts [Hl [_ [Hst [_ [_ [_ [_ [_ [_ [Hacts _]]]]]]]]]]]].
    + discriminate.
    + reflexivity.
    + reflexivity.
    + simpl. lia.
    + rewrite Hl, Hst, Hacts. reflexivity.
  - destruct (idle_timeout_enters_idle
                (mkLocals cfg_ex 10 9 false false)
                (mkIter 0 false 11 (RdErr EAGAIN) [])
                (mkLocals cfg_ex 10 9 false false) [])
      as [st' [acts [Hl [_ [Hst [_ [_ [_ [_ [_ [_ [Hacts _]]]]]]]]]]]].
    + discriminate.
    + reflexivity.
    + reflexivity.
    + simpl. lia.
    + rewrite Hl, Hst, Hacts. reflexivity.
Defined.

(** ** Read errors *)

(** C8. A read that fails with [EAGAIN] or [EWOULDBLOCK] leaves the turn as
    one without data: the local variables reach the idle check as they were
    at the head of the loop, nothing is written to the error stream, and the
    turn goes on exactly as a turn in which [select] reported nothing, the
    [read] call apart.  A read that fails with any other [errno] ends the
    process: [perror], then [exit(EXIT_FAILURE)]. *)
Theorem would_block_is_no_data
    (st : locals) (e : iter_env) (errno : Z) :
  select_ret e > 0 -> stdin_isset e = true ->
  read_ans e = RdErr errno ->
  let now := time_now e in
  (errno = EAGAIN \/ errno = EWOULDBLOCK ->
   process_data now e st = (Done st, [Read (RdErr errno)]) /\
   (exists st' acts,
      loop_body st e = (Done st', Read (RdErr errno) :: acts) /\
      loop_body st (mkIter 0 false now (read_ans e) (write_ans e)) =
        (Done st', acts) /\
      last_data_time st' = last_data_time st /\
      eof_reached st' = eof_reached st /\
      filter is_diagnostic (Read (RdErr errno) :: acts) = [])) /\
  (errno <> EAGAIN -> errno <> EWOULDBLOCK ->
   loop_body st e = (Exited EXIT_FAILURE, [Read (RdErr errno); Perror "read"]) /\
   forall envs,
     eof_reached st = false ->
     main_loop st (e :: envs) =
       (Exited EXIT_FAILURE, [Read (RdErr errno); Perror "read"])).
Proof.
  intros Hs Hi Hr now.
  destruct (readable_true e Hs Hi) as [Hready Hsel].
  split.
  - intros Hwb.
    assert (Hp : process_data now e st = (Done st, [Read (RdErr errno)])).
    { unfold process_data. rewrite Hready, Hr, bind_emit.
      replace (negb (errno =? EAGAIN) && negb (errno =? EWOULDBLOCK))
        with false; [reflexivity |].
      destruct Hwb as [-> | ->]; rewrite Z.eqb_refl; simpl;
        rewrite ?andb_false_r; reflexivity. }
    split; [exact Hp |].
    pose proof (active_to_idle_eq now st) as Ha.
    destruct (negb (is_idle st) &&
              (now - last_data_time st >=? idle_timeout (config st))).
    + eexists. eexists. split; [| split; [| split; [| split]]].
      * unfold loop_body. rewrite Hsel. fold now.
        rewrite (bind_eq _ _ _ _ Hp), Ha. reflexivity.
      * unfold loop_body, process_data. simpl. rewrite Ha. reflexivity.
      * reflexivity.
      * reflexivity.
      * unfold action_events.
        destruct (active_to_idle_command (config st));
          [destruct (_ >=? _) |]; reflexivity.
    + exists st, []. split; [| split; [| split; [| split]]].
      * unfold loop_body. rewrite Hsel. fold now.
        rewrite (bind_eq _ _ _ _ Hp), Ha. reflexivity.
      * unfold loop_body, process_data. simpl. rewrite Ha. reflexivity.
      * reflexivity.
      * reflexivity.
      * reflexivity.
  - intros H1 H2.
    assert (Hl : loop_body st e =
                 (Exited EXIT_FAILURE, [Read (RdErr errno); Perror "read"])).
    { unfold loop_body, process_data. rewrite Hsel, Hready, Hr, bind_emit.
      apply Z.eqb_neq in H1, H2. rewrite H1, H2. reflexivity. }
    split; [exact Hl |].
    intros envs Heof. cbn [main_loop]. rewrite Heof, Hl. reflexivity.
Qed.

Lemma would_block_is_no_data_witness :
  loop_body (mkLocals cfg_ex 10 7 false false)
    (mkIter 1 true 10 (RdErr EINTR) []) =
    (Exited EXIT_FAILURE, [Read (RdErr EINTR); Perror "read"]) /\
  process_data 10 (mkIter 1 true 10 (RdErr EAGAIN) [])
    (mkLocals cfg_ex 10 7 false false) =
    (Done (mkLocals cfg_ex 10 7 false false), [Read (RdErr EAGAIN)]).
Proof.
  split.
  - apply (would_block_is_no_data (mkLocals cfg_ex 10 7 false false)
             (mkIter 1 true 10 (RdErr EINTR) []) EINTR);
      first [reflexivity | discriminate | simpl; lia].
  - apply (would_block_is_no_data (mkLocals cfg_ex 10 7 false false)
             (mkIter 1 true 10 (RdErr EAGAIN) []) EAGAIN);
      first [reflexivity | left; reflexivity | simpl; lia].
Defined.

(** ** The command line *)

Lemma parse_opt_cases prog cfg o :
  (exists cfg', parse_opt prog cfg o = (Done cfg', []) /\
                (valid_config cfg -> valid_config cfg')) \/
  (exists ev, parse_opt prog cfg o = (Exited EXIT_FAILURE, ev) /\
              forallb is_diagnostic ev = true /\ ev <> []).
Proof.
  destruct o as [opt optarg]. unfold parse_opt, valid_config.
  destruct (Ascii.eqb opt "t").
  { simpl. destruct (Z.leb_spec (atoi optarg) 0).
    - right. eexists. split; [reflexivity |]. split; [reflexivity | discriminate].
    - left. eexists. split; [reflexivity |]. simpl. tauto. }
  destruct (Ascii.eqb opt "i").
  { simpl. destruct (Z.leb_spec (atoi optarg) 0).
    - right. eexists. split; [reflexivity |]. split; [reflexivity | discriminate].
    - left. eexists. split; [reflexivity |]. simpl. tauto. }
  destruct (Ascii.eqb opt "a").
  { simpl. destruct (Z.leb_spec (atoi optarg) 0).
    - right. eexists. split; [reflexivity |]. split; [reflexivity | discriminate].
    - left. eexists. split; [reflexivity |]. simpl. tauto. }
  destruct (Ascii.eqb opt "I").
  { left. eexists. split; [reflexivity |]. simpl. tauto. }
  destruct (Ascii.eqb opt "A").
  { left. eexists. split; [reflexivity |]. simpl. tauto. }
  destruct (Ascii.eqb opt "E").
  { left. eexists. split; [reflexivity |]. simpl. tauto. }
  right. eexists. split; [reflexivity |]. split; [reflexivity | discriminate].
Qed.

Lemma parse_loop_cases prog opts : forall cfg,
  (exists cfg', parse_loop prog cfg opts = (Done cfg', []) /\
                (valid_config cfg -> valid_config cfg')) \/
  (exists ev, parse_loop prog cfg opts = (Exited EXIT_FAILURE, ev) /\
              forallb is_diagnostic ev = true /\ ev <> []).
Proof.
  induction opts as [| o opts IH]; intros cfg; cbn [parse_loop].
  - left. exists cfg. split; [reflexivity | auto].
  - destruct (parse_opt_cases prog cfg o) as [[cfg1 [E1 V1]] | [ev [E1 Hev]]].
    + rewrite E1. destruct (IH cfg1) as [[cfg2 [E2 V2]] | [ev [E2 Hev]]].
      * left. exists cfg2. unfold bind. rewrite E2. split; [reflexivity | auto].
      * right. exists ev. unfold bind. rewrite E2. split; [reflexivity | auto].
    + right. exists ev. rewrite E1. split; [reflexivity | auto].
Qed.

Lemma parse_loop_app prog opts1 : forall cfg cfg1 opts2,
  parse_loop prog cfg opts1 = (Done cfg1, []) ->
  parse_loop prog cfg (opts1 ++ opts2) = parse_loop prog cfg1 opts2.
Proof.
  induction opts1 as [| o opts1 IH]; intros cfg cfg1 opts2 H.
  - inversion H. reflexivity.
  - cbn [parse_loop app] in *.
    destruct (parse_opt_cases prog cfg o) as [[cfg' [E1 _]] | [ev [E1 _]]];
      rewrite E1 in *.
    + unfold bind in H |- *.
      destruct (parse_loop prog cfg' opts1) as [r ev1] eqn:E2.
      simpl in H. inversion H; subst.
      rewrite (IH cfg' cfg1 opts2 E2).
      destruct (parse_loop prog cfg1 opts2). reflexivity.
    + discriminate.
Qed.

(** The configuration that [parse_args] returns has positive numbers. *)
Lemma parse_args_valid prog opts cfg ev :
  parse_args prog opts = (Done cfg, ev) -> valid_config cfg /\ ev = [].
Proof.
  unfold parse_args. intros H.
  destruct (parse_loop_cases prog opts default_config)
    as [[cfg' [E V]] | [ev' [E _]]]; rewrite E in H; inversion H; subst.
  split; [| reflexivity]. apply V. repeat split.
Qed.

Lemma leading_digits_app digits : forall acc rest,
  all_digits digits = true -> starts_with isdigit rest = false ->
  leading_digits acc (digits ++ rest)%string = leading_digits acc digits.
Proof.
  induction digits as [| c digits IH]; intros acc rest Hd Hr.
  - destruct rest as [| c rest]; [reflexivity |].
    simpl in *. rewrite Hr. reflexivity.
  - simpl in *. apply andb_prop in Hd. destruct Hd as [Hc Hd].
    rewrite Hc. apply IH; assumption.
Qed.

Lemma isdigit_not_space_or_sign c :
  isdigit c = true -> isspace c = false /\ is_sign c = false.
Proof.
  unfold isdigit, isspace, is_sign. intros H.
  apply andb_prop in H. destruct H as [H1 H2].
  apply Z.leb_le in H1, H2.
  assert (Hne : forall d, Z.of_nat (nat_of_ascii d) < 48 ->
                          Ascii.eqb c d = false).
  { intros d Hd. apply Ascii.eqb_neq. intros ->. lia. }
  split.
  - apply orb_false_intro; [apply Z.eqb_neq; lia |].
    apply andb_false_intro2. apply Z.leb_gt. lia.
  - apply orb_false_intro; apply Hne; simpl; lia.
Qed.

(** What follows a leading number is ignored by [atoi]. *)
Lemma atoi_ignores_tail digits rest :
  digits <> EmptyString -> all_digits digits = true ->
  starts_with isdigit rest = false ->
  atoi (digits ++ rest) = atoi digits.
Proof.
  intros Hne Hd Hr. destruct digits as [| c digits]; [contradiction |].
  simpl in Hd. apply andb_prop in Hd. destruct Hd as [Hc Hd].
  destruct (isdigit_not_space_or_sign c Hc) as [Hsp Hsg].
  unfold atoi, strtol10. simpl skip_space. rewrite Hsp.
  assert (forall tl, match String c tl with
                     | String "-" s' => - leading_digits 0 s'
                     | String "+" s' => leading_digits 0 s'
                     | s' => leading_digits 0 s'
                     end = leading_digits 0 (String c tl)) as Hm.
  { intros tl. unfold is_sign in Hsg. apply orb_false_elim in Hsg.
    destruct Hsg as [Hm Hp]. apply Ascii.eqb_neq in Hm, Hp.
    destruct c as [[] [] [] [] [] [] [] []]; try reflexivity;
      contradiction. }
  rewrite !Hm.
  change (String c (digits ++ rest)) with (String c digits ++ rest)%string.
  rewrite leading_digits_app; [reflexivity | | assumption].
  simpl. rewrite Hc. assumption.
Qed.

(** A string that does not begin with white space, a sign or a digit has
    no number for [atoi]. *)
Lemma atoi_no_number s :
  starts_with isspace s = false -> starts_with is_sign s = false ->
  starts_with isdigit s = false -> atoi s = 0.
Proof.
  destruct s as [| c s]; [reflexivity |]. simpl. intros Hsp Hsg Hd.
  unfold atoi, strtol10. simpl skip_space. rewrite Hsp.
  unfold is_sign in Hsg. apply orb_false_elim in Hsg.
  destruct Hsg as [Hm Hp]. apply Ascii.eqb_neq in Hm, Hp.
  assert (match String c s with
          | String "-" s' => - leading_digits 0 s'
          | String "+" s' => leading_digits 0 s'
          | s' => leading_digits 0 s'
          end = 0) as ->.
  { destruct c as [[] [] [] [] [] [] [] []];
      try contradiction; simpl leading_digits; rewrite ?Hd; try reflexivity;
      simpl in Hd; try discriminate. }
  reflexivity.
Qed.

Lemma decimal_value_nonneg s : all_digits s = true -> 0 <= decimal_value s.
Proof.
  induction s as [| c s IH]; simpl; [lia |].
  intros H. apply andb_prop in H. destruct H as [Hc Hs].
  specialize (IH Hs). unfold isdigit in Hc. apply andb_prop in Hc.
  destruct Hc as [H1 H2]. apply Z.leb_le in H1, H2.
  unfold digit_value.
  assert (0 <= 10 ^ Z.of_nat (String.length s)) by (apply Z.pow_nonneg; lia).
  nia.
Qed.

(** Reading digits from the left, with an accumulator, gives the number
    they denote. *)
Lemma leading_digits_value s : forall acc,
  all_digits s = true ->
  leading_digits acc s =
    acc * 10 ^ Z.of_nat (String.length s) + decimal_value s.
Proof.
  induction s as [| c s IH]; intros acc H.
  - simpl. lia.
  - simpl in H. apply andb_prop in H. destruct H as [Hc Hs].
    cbn [leading_digits decimal_value String.length]. rewrite Hc, (IH _ Hs).
    rewrite Nat2Z.inj_succ, Z.pow_succ_r by lia. ring.
Qed.

(** [atoi] on a string that begins with a digit. *)
Lemma atoi_digit_led c s :
  isdigit c = true ->
  atoi (String c s) =
    to_int (Z.max LONG_MIN (Z.min LONG_MAX (leading_digits 0 (String c s)))).
Proof.
  intros Hc. destruct (isdigit_not_space_or_sign c Hc) as [Hsp Hsg].
  unfold atoi, strtol10. simpl skip_space. rewrite Hsp.
  unfold is_sign in Hsg. apply orb_false_elim in Hsg.
  destruct Hsg as [Hm Hp]. apply Ascii.eqb_neq in Hm, Hp.
  destruct c as [[] [] [] [] [] [] [] []]; try reflexivity; contradiction.
Qed.

(** What [atoi] makes of digits followed by something else: the number
    they denote, cut at [LONG_MAX] and then converted to [int]. *)
Lemma atoi_digits_then_tail digits rest :
  digits <> EmptyString -> all_digits digits = true ->
  starts_with isdigit rest = false ->
  atoi (digits ++ rest) = to_int (Z.min LONG_MAX (decimal_value digits)).
Proof.
  intros Hne Hd Hr. rewrite (atoi_ignores_tail digits rest Hne Hd Hr).
  destruct digits as [| c digits]; [contradiction |].
  pose proof (decimal_value_nonneg _ Hd) as Hpos.
  simpl in Hd. apply andb_prop in Hd. destruct Hd as [Hc Hd].
  rewrite (atoi_digit_led c digits Hc).
  rewrite leading_digits_value by (simpl; rewrite Hc; exact Hd).
  f_equal. unfold LONG_MIN, LONG_MAX in *.
  assert (0 < 2 ^ 63) by (apply Z.pow_pos_nonneg; lia). lia.
Qed.

Lemma to_int_small v : - 2 ^ 31 <= v < 2 ^ 31 -> to_int v = v.
Proof.
  intros H. unfold to_int.
  rewrite Z.mod_small; [lia |].
  change (2 ^ 32) with (2 * 2 ^ 31). lia.
Qed.

Lemma atoi_of_number digits rest :
  digits <> EmptyString -> all_digits digits = true ->
  starts_with isdigit rest = false ->
  decimal_value digits < 2 ^ 31 ->
  atoi (digits ++ rest) = decimal_value digits.
Proof.
  intros Hne Hd Hr Hv.
  rewrite (atoi_digits_then_tail digits rest Hne Hd Hr).
  pose proof (decimal_value_nonneg _ Hd) as Hpos.
  assert (H31 : 0 < 2 ^ 31) by (apply Z.pow_pos_nonneg; lia).
  assert (decimal_value digits <= LONG_MAX).
  { unfold LONG_MAX. change (2 ^ 63) with (2 ^ 31 * 2 ^ 32).
    assert (1 <= 2 ^ 32) by (change (2 ^ 32) with 4294967296; lia). nia. }
  rewrite Z.min_r by assumption. apply to_int_small. lia.
Qed.

(** C5, as the code has it.  A numeric option [-t], [-i] or [-a] is read
    with [atoi]: when the value is positive it becomes the setting, and
    otherwise the process writes a diagnostic to the error stream and exits
    with a failure status, having done nothing else.  [atoi] reads a leading
    number and ignores what follows it.  For an argument made of decimal
    digits and a tail that does not begin with a digit, the value is the
    number that the digits denote, cut at [LONG_MAX] and converted to [int];
    so when that number is between 1 and [INT_MAX] the argument is accepted
    and the setting is that number, and when it is 0 the argument is
    rejected.  An argument that begins with no number counts as 0 and is
    rejected. *)
Theorem numeric_option_positive_or_exit
    (prog : string) (before after : list getopt_result) (cfg : Config)
    (opt : ascii) (optarg : string) (su : startup_env)
    (envs : list iter_env) :
  parse_args prog before = (Done cfg, []) ->
  In opt ["t"; "i"; "a"]%char ->
  (0 < atoi optarg ->
   exists cfg',
     parse_opt prog cfg (opt, optarg) = (Done cfg', []) /\
     numeric_setting opt cfg' = atoi optarg /\ valid_config cfg') /\
  (atoi optarg <= 0 ->
   exists msg,
     parse_opt prog cfg (opt, optarg) =
       (Exited EXIT_FAILURE, [Fprintf msg []]) /\
     main prog (before ++ (opt, optarg) :: after) su envs =
       (Exited EXIT_FAILURE, [Fprintf msg []])) /\
  (forall digits rest,
     optarg = (digits ++ rest)%string ->
     digits <> EmptyString -> all_digits digits = true ->
     starts_with isdigit rest = false ->
     atoi optarg = atoi digits /\
     atoi optarg = to_int (Z.min LONG_MAX (decimal_value digits)) /\
     (0 < decimal_value digits <= INT_MAX ->
      exists cfg',
        parse_opt prog cfg (opt, optarg) = (Done cfg', []) /\
        numeric_setting opt cfg' = decimal_value digits /\
        valid_config cfg') /\
     (decimal_value digits = 0 ->
      exists msg,
        parse_opt prog cfg (opt, optarg) =
          (Exited EXIT_FAILURE, [Fprintf msg []]) /\
        main prog (before ++ (opt, optarg) :: after) su envs =
          (Exited EXIT_FAILURE, [Fprintf msg []]))) /\
  (starts_with isspace optarg = false ->
   starts_with is_sign optarg = false ->
   starts_with isdigit optarg = false ->
   atoi optarg = 0 /\
   exists msg,
     parse_opt prog cfg (opt, optarg) =
       (Exited EXIT_FAILURE, [Fprintf msg []]) /\
     main prog (before ++ (opt, optarg) :: after) su envs =
       (Exited EXIT_FAILURE, [Fprintf msg []])).
Proof.
  intros Hbefore Hopt.
  destruct (parse_args_valid _ _ _ _ Hbefore) as [Hvalid _].
  assert (Hexit : forall msg,
            parse_opt prog cfg (opt, optarg) =
              (Exited EXIT_FAILURE, [Fprintf msg []]) ->
            main prog (before ++ (opt, optarg) :: after) su envs =
              (Exited EXIT_FAILURE, [Fprintf msg []])).
  { intros msg E. unfold main, parse_args in *.
    rewrite (parse_loop_app prog before _ cfg _ Hbefore).
    cbn [parse_loop]. rewrite E. reflexivity. }
  assert (Haccept : 0 < atoi optarg ->
            exists cfg',
              parse_opt prog cfg (opt, optarg) = (Done cfg', []) /\
              numeric_setting opt cfg' = atoi optarg /\ valid_config cfg').
  { intros Hpos.
    assert (Hb : (atoi optarg <=? 0) = false) by (apply Z.leb_gt; exact Hpos).
    destruct Hvalid as [V1 [V2 V3]].
    destruct Hopt as [<- | [<- | [<- | []]]]; eexists;
      (split; [unfold parse_opt; simpl; rewrite Hb; reflexivity |]);
      (split; [reflexivity |]); unfold valid_config; simpl; lia. }
  assert (Hreject : atoi optarg <= 0 ->
            exists msg,
              parse_opt prog cfg (opt, optarg) =
                (Exited EXIT_FAILURE, [Fprintf msg []]) /\
              main prog (before ++ (opt, optarg) :: after) su envs =
                (Exited EXIT_FAILURE, [Fprintf msg []])).
  { intros Hneg.
    assert (Hb : (atoi optarg <=? 0) = true) by (apply Z.leb_le; exact Hneg).
    destruct Hopt as [<- | [<- | [<- | []]]]; eexists;
      (split; [unfold parse_opt; simpl; rewrite Hb; reflexivity |]);
      apply Hexit; unfold parse_opt; simpl; rewrite Hb; reflexivity. }
  split; [exact Haccept | split; [exact Hreject | split]].
  - intros digits rest Harg Hne Hd Hr.
    assert (Hsame : atoi optarg = atoi digits)
      by (rewrite Harg; apply atoi_ignores_tail; assumption).
    assert (Hcut : atoi optarg =
                     to_int (Z.min LONG_MAX (decimal_value digits)))
      by (rewrite Harg; apply atoi_digits_then_tail; assumption).
    assert (Hnum : decimal_value digits < 2 ^ 31 ->
                   atoi optarg = decimal_value digits)
      by (intros Hlt; rewrite Harg; apply atoi_of_number; assumption).
    split; [exact Hsame | split; [exact Hcut | split]].
    + intros [Hlo Hhi].
      assert (Hv : atoi optarg = decimal_value digits)
        by (apply Hnum; unfold INT_MAX in Hhi; lia).
      destruct Haccept as [cfg' [E [Hset Hval]]]; [lia |].
      exists cfg'. rewrite <- Hv. auto.
    + intros Hzero. apply Hreject. rewrite Hnum; [lia |].
      rewrite Hzero. apply Z.pow_pos_nonneg; lia.
  - intros Hsp Hsg Hdg.
    assert (Hzero : atoi optarg = 0) by (apply atoi_no_number; assumption).
    split; [exact Hzero |]. apply Hreject. lia.
Qed.

Lemma numeric_option_positive_or_exit_witness :
  parse_opt "idlecat" default_config ("t"%char, "5abc") =
    (Done (set_idle_timeout 5 default_config), []) /\
  main "idlecat" [("a"%char, "7"); ("i"%char, "abc")] su_ex [eof_turn 10] =
    (Exited EXIT_FAILURE,
     [Fprintf ("Idle to active threshold must be positive" ++ nl)%string []]) /\
  atoi "2147483647s" = 2147483647 /\
  atoi "4294967296abc" = 0 /\
  atoi "4294967297abc" = 1.
Proof.
  split; [| split; [| split; [| split]]].
  - destruct (numeric_option_positive_or_exit "idlecat" [] [] default_config
                "t"%char "5abc" su_ex [])
      as [Hpos _]; [reflexivity | left; reflexivity |].
    destruct Hpos as [cfg' [E _]]; [reflexivity |].
    rewrite E. simpl in E. inversion E. reflexivity.
  - destruct (numeric_option_positive_or_exit "idlecat" [("a"%char, "7")] []
                (set_active_to_idle_threshold 7 default_config)
                "i"%char "abc" su_ex [eof_turn 10])
      as [_ [Hneg _]]; [reflexivity | right; left; reflexivity |].
    destruct Hneg as [msg [E Hmain]]; [discriminate |].
    simpl in E. inversion E. subst. exact Hmain.
  - destruct (numeric_option_positive_or_exit "idlecat" [] [] default_config
                "t"%char "2147483647s" su_ex [])
      as [_ [_ [Hnum _]]]; [reflexivity | left; reflexivity |].
    destruct (Hnum "2147483647" "s") as [_ [Hcut _]];
      [reflexivity | discriminate | reflexivity | reflexivity |].
    exact Hcut.
  - destruct (numeric_option_positive_or_exit "idlecat" [] [] default_config
                "t"%char "4294967296abc" su_ex [])
      as [_ [_ [Hnum _]]]; [reflexivity | left; reflexivity |].
    destruct (Hnum "4294967296" "abc") as [_ [Hcut _]];
      [reflexivity | discriminate | reflexivity | reflexivity |].
    exact Hcut.
  - destruct (numeric_option_positive_or_exit "idlecat" [] [] default_config
                "t"%char "4294967297abc" su_ex [])
      as [_ [_ [Hnum _]]]; [reflexivity | left; reflexivity |].
    destruct (Hnum "4294967297" "abc") as [_ [Hcut _]];
      [reflexivity | discriminate | reflexivity | reflexivity |].
    exact Hcut.
Defined.

(** C5, as the claim has it, fails: ["5abc"] is not a positive integer, and
    [-t 5abc] is accepted as 5; the process goes on to read its input and
    ends with success. *)
Lemma malformed_number_is_accepted :
  all_digits "5abc" = false /\
  parse_args "idlecat" [("t"%char, "5abc")] =
    (Done (set_idle_timeout 5 default_config), []) /\
  main "idlecat" [("t"%char, "5abc")] su_ex [eof_turn 10] =
    (Done EXIT_SUCCESS, [Read (RdBytes [])]).
Proof. repeat split. Qed.

(** ** Pass-through *)

Lemma forwards_no_bytes {A : Type} (r : result A) ev :
  delivered ev = [] -> forwarded ev = [] -> forwards_what_it_reads (r, ev).
Proof.
  intros Hd Hf. exists []. simpl. rewrite Hd, Hf. auto.
Qed.

Lemma forwards_ret {A : Type} (a : A) : forwards_what_it_reads (ret a).
Proof. apply forwards_no_bytes; reflexivity. Qed.

Lemma forwards_bind {A B : Type} (m : M A) (f : A -> M B) :
  forwards_what_it_reads m ->
  (forall a, forwards_what_it_reads (f a)) ->
  forwards_what_it_reads (bind m f).
Proof.
  intros [rest [Hr Hrest]] Hf.
  destruct m as [[a | code | call] ev]; simpl in *.
  - assert (rest = []) as ->.
    { destruct Hrest as [H | [H | [H _]]]; [exact H | |]; discriminate. }
    rewrite app_nil_r in Hr.
    destruct (Hf a) as [rest2 [Hr2 Hrest2]].
    destruct (f a) as [r2 ev2]. simpl in *.
    exists rest2. simpl. rewrite delivered_app, forwarded_app, Hr, Hr2.
    rewrite app_assoc. split; [reflexivity |].
    destruct Hrest2 as [H | [H | [H [tr Htr]]]]; auto.
    right. right. split; [exact H |]. exists (ev ++ tr).
    rewrite Htr, app_assoc. reflexivity.
  - exists rest. simpl. split; [exact Hr |].
    destruct Hrest as [H | [H | [H Htr]]]; auto; [discriminate |].
    right. right. inversion H. auto.
  - exists rest. simpl. split; [exact Hr |].
    destruct Hrest as [H | [H | [H Htr]]]; auto; [| discriminate].
    right. left. inversion H. reflexivity.
Qed.

Lemma forwards_read_write chunk answers :
  forwards_what_it_reads
    (emit (Read (RdBytes chunk)) ;; write_loop chunk 0 answers).
Proof.
  rewrite bind_emit.
  destruct (write_loop chunk 0 answers) as [r wev] eqn:Hw.
  destruct (write_loop_trace _ _ _ _ _ (Z.le_refl 0) Hw)
    as [[rest [Hr Hd]] [Hdel _]].
  change (skipn (Z.to_nat 0) chunk) with chunk in Hr.
  exists rest. cbn [fst snd].
  change (Read (RdBytes chunk) :: wev) with ([Read (RdBytes chunk)] ++ wev).
  rewrite delivered_app, forwarded_app, Hdel. cbn [delivered forwarded flat_map].
  rewrite !app_nil_r. cbn [app]. split; [exact Hr |].
  destruct (write_loop_ends _ _ _ _ _ Hw) as [H | [H | [H [tr Htr]]]]; auto.
  right. right. split; [exact H |].
  exists (Read (RdBytes chunk) :: tr). rewrite Htr. reflexivity.
Qed.

Lemma forwards_run_if_set cond site cmd :
  forwards_what_it_reads (run_if_set cond site cmd).
Proof.
  rewrite run_if_set_eq.
  apply forwards_no_bytes; apply action_events_no_bytes.
Qed.

Lemma forwards_idle_to_active now st :
  forwards_what_it_reads (idle_to_active now st).
Proof.
  unfold idle_to_active. destruct (is_idle st); [| apply forwards_ret].
  apply forwards_bind; [apply forwards_run_if_set |].
  intros _. apply forwards_ret.
Qed.

Lemma forwards_active_to_idle now st :
  forwards_what_it_reads (active_to_idle now st).
Proof.
  unfold active_to_idle. destruct (_ && _); [| apply forwards_ret].
  apply forwards_bind; [apply forwards_run_if_set |].
  intros _. apply forwards_ret.
Qed.

Lemma forwards_process_data now e st :
  forwards_what_it_reads (process_data now e st).
Proof.
  unfold process_data.
  destruct ((select_ret e >? 0) && stdin_isset e); [| apply forwards_ret].
  destruct (read_ans e) as [chunk | errno].
  - destruct (Z.of_nat (length chunk) >? 0) eqn:Hlen.
    + rewrite <- bind_assoc. apply forwards_bind.
      * apply forwards_read_write.
      * intros _. apply forwards_bind; [apply forwards_idle_to_active |].
        intros st1. apply forwards_ret.
    + assert (chunk = []) as ->.
      { destruct chunk as [| b l]; [reflexivity |].
        rewrite nonempty_length in Hlen by discriminate. discriminate. }
      apply forwards_bind; [apply forwards_no_bytes; reflexivity |].
      intros _. apply forwards_bind; [apply forwards_run_if_set |].
      intros _. apply forwards_ret.
  - apply forwards_bind; [apply forwards_no_bytes; reflexivity |].
    intros _. destruct (_ && _); [| apply forwards_ret].
    apply forwards_no_bytes; reflexivity.
Qed.

Lemma forwards_loop_body st e : forwards_what_it_reads (loop_body st e).
Proof.
  unfold loop_body. destruct (select_ret e =? -1).
  - apply forwards_no_bytes; reflexivity.
  - apply forwards_bind; [apply forwards_process_data |].
    intros st1. apply forwards_active_to_idle.
Qed.

Lemma forwards_main_loop envs : forall st,
  forwards_what_it_reads (main_loop st envs).
Proof.
  induction envs as [| e envs IH]; intros st; cbn [main_loop];
    destruct (eof_reached st); try apply forwards_ret.
  - apply forwards_no_bytes; reflexivity.
  - apply forwards_bind; [apply forwards_loop_body | apply IH].
Qed.

Lemma forwards_main prog opts su envs :
  forwards_what_it_reads (main prog opts su envs).
Proof.
  unfold main. apply forwards_bind.
  - unfold parse_args.
    destruct (parse_loop_cases prog opts default_config)
      as [[cfg [E _]] | [ev [E [Hev _]]]]; rewrite E.
    + apply forwards_no_bytes; reflexivity.
    + destruct (diagnostics_no_bytes ev Hev) as [H1 [H2 _]].
      apply forwards_no_bytes; assumption.
  - intros cfg. destruct (getfl_ans su =? -1).
    { apply forwards_no_bytes; reflexivity. }
    destruct (setfl_ans su =? -1).
    { apply forwards_no_bytes; reflexivity. }
    apply forwards_bind; [apply forwards_main_loop |].
    intros _. apply forwards_ret.
Qed.

(** ** Runs of the loop *)

Lemma loop_body_config st e st' ev :
  loop_body st e = (Done st', ev) -> config st' = config st.
Proof.
  intros H. apply loop_body_Done in H.
  destruct H as [st1 [ev1 [acts [Hp [Ha _]]]]].
  apply active_to_idle_Done in Ha. destruct Ha as [-> _].
  apply process_data_Done in Hp.
  destruct Hp as [[_ [-> _]] | [_ [[errno [_ [-> _]]] | [[_ [-> _]] |
    [chunk [wev [_ [_ [_ [-> _]]]]]]]]]]; try reflexivity.
  destruct (is_idle st); reflexivity.
Qed.

Lemma loop_body_change_together st e st' ev :
  0 < idle_timeout (config st) ->
  loop_body st e = (Done st', ev) ->
  change_together (time_now e) st st'.
Proof.
  intros Hpos H. apply loop_body_Done in H.
  destruct H as [st1 [ev1 [acts [Hp [Ha _]]]]].
  apply process_data_Done in Hp.
  destruct Hp as [[_ [-> _]] | [_ [[errno [_ [-> _]]] | [[_ [-> _]] |
    [chunk [wev [_ [_ [_ [-> _]]]]]]]]]].
  - apply active_to_idle_Done in Ha. apply Ha.
  - apply active_to_idle_Done in Ha. apply Ha.
  - apply active_to_idle_Done in Ha. apply Ha.
  - rewrite active_to_idle_after_data in Ha
      by (destruct (is_idle st); exact Hpos).
    inversion Ha; subst. unfold change_together.
    destruct (is_idle st) eqn:Hi; simpl; rewrite ?Hi; split; intros Hx;
      first [reflexivity | discriminate | contradiction Hx; reflexivity].
Qed.

(** A turn that ends with [eof_reached] false has not read the end of the
    stream nor called the EOF command. *)
Lemma loop_body_before_eof st e st' ev :
  loop_body st e = (Done st', ev) -> eof_reached st' = false ->
  ~ In (Read (RdBytes [])) ev /\ forall c, ~ In (System OnEof c) ev.
Proof.
  intros H Heof. apply loop_body_Done in H.
  destruct H as [st1 [ev1 [acts [Hp [Ha ->]]]]].
  apply active_to_idle_Done in Ha.
  destruct Ha as [_ [He [_ [_ [_ [_ [Hrd [_ [_ [Hno Hacts]]]]]]]]]].
  rewrite He in Heof.
  assert (Hacts_rd : ~ In (Read (RdBytes [])) acts).
  { destruct Hacts as [-> | [c ->]]; [intros [] |].
    intros [Hx | []]; discriminate. }
  apply process_data_Done in Hp.
  destruct Hp as [[_ [-> ->]] | [_ [[errno [_ [-> ->]]] | [[_ [-> _]] |
    [chunk [wev [_ [Hne [Hw [-> ->]]]]]]]]]].
  - split; [exact Hacts_rd | exact Hno].
  - split.
    + intros [Hx | Hx]; [discriminate | exact (Hacts_rd Hx)].
    + intros c [Hx | Hx]; [discriminate | exact (Hno c Hx)].
  - discriminate.
  - destruct (write_loop_trace _ _ _ _ _ (Z.le_refl 0) Hw)
      as [_ [_ [Hsys [Hrd' _]]]].
    assert (Hwev_rd : forall r, ~ In (Read r) wev).
    { intros r Hin.
      assert (Hf : In (Read r) (filter is_read wev))
        by (apply filter_In; split; [exact Hin | reflexivity]).
      rewrite Hrd' in Hf. exact Hf. }
    assert (Hi2a : forall a c,
              In (System a c)
                (if is_idle st then
                   action_events
                     (time_now e - state_start_time st >=?
                      idle_to_active_threshold (config st))
                     IdleToActive (idle_to_active_command (config st))
                 else []) -> a = IdleToActive).
    { intros a c Hin. destruct (is_idle st); [| destruct Hin].
      apply in_action_events in Hin. apply Hin. }
    split.
    + intros [Hx | Hx].
      * inversion Hx. subst. apply Hne. reflexivity.
      * apply in_app_or in Hx.
        destruct Hx as [Hx | Hx]; [| exact (Hacts_rd Hx)].
        apply in_app_or in Hx. destruct Hx as [Hx | Hx].
        -- exact (Hwev_rd _ Hx).
        -- destruct (is_idle st); [| destruct Hx].
           unfold action_events in Hx.
           destruct (idle_to_active_command (config st));
             [destruct (_ >=? _) |]; simpl in Hx;
             try destruct Hx as [Hx | []]; try discriminate;
             try contradiction.
    + intros c [Hx | Hx]; [discriminate |].
      apply in_app_or in Hx.
      destruct Hx as [Hx | Hx]; [| exact (Hno c Hx)].
      apply in_app_or in Hx. destruct Hx as [Hx | Hx].
      * apply in_system_calls in Hx. rewrite Hsys in Hx. exact Hx.
      * apply Hi2a in Hx. discriminate.
Qed.

(** A turn without data leaves an idle monitor idle. *)
Lemma loop_body_stays_idle st e st' ev :
  loop_body st e = (Done st', ev) -> delivered ev = [] ->
  is_idle st = true ->
  is_idle st' = true /\ last_data_time st' = last_data_time st /\
  state_start_time st' = state_start_time st.
Proof.
  intros H Hdel Hidle. apply loop_body_Done in H.
  destruct H as [st1 [ev1 [acts [Hp [Ha ->]]]]].
  apply active_to_idle_Done in Ha.
  destruct Ha as [_ [_ [_ [_ [Hstay _]]]]].
  rewrite delivered_app in Hdel. apply app_eq_nil in Hdel.
  destruct Hdel as [Hdel _].
  apply process_data_Done in Hp.
  destruct Hp as [[_ [-> _]] | [_ [[errno [_ [-> _]]] | [[_ [-> _]] |
    [chunk [wev [_ [Hne [_ [_ ->]]]]]]]]]].
  - destruct (Hstay Hidle) as [-> _]. auto.
  - destruct (Hstay Hidle) as [-> _]. auto.
  - destruct (Hstay Hidle) as [-> _]. auto.
  - exfalso. apply Hne.
    change (Read (RdBytes chunk) :: ?l) with ([Read (RdBytes chunk)] ++ l)
      in Hdel.
    rewrite delivered_app in Hdel. apply app_eq_nil in Hdel.
    destruct Hdel as [Hdel _]. simpl in Hdel. rewrite app_nil_r in Hdel.
    exact Hdel.
Qed.

Lemma loop_reaches_main_loop st envs1 st1 tr :
  loop_reaches st envs1 st1 tr ->
  forall envs2,
    main_loop st (envs1 ++ envs2) =
      (fst (main_loop st1 envs2), tr ++ snd (main_loop st1 envs2)).
Proof.
  induction 1 as [st | st e st1 ev envs st2 tr Heof Hbody Hreach IH];
    intros envs2.
  - cbn [app]. destruct (main_loop st envs2). reflexivity.
  - cbn [app main_loop]. rewrite Heof, Hbody. unfold bind.
    rewrite IH. rewrite app_assoc. reflexivity.
Qed.

Lemma loop_reaches_invariant st envs st1 tr :
  loop_reaches st envs st1 tr ->
  config st1 = config st /\
  (eof_reached st1 = false ->
   eof_reached st = false /\
   ~ In (Read (RdBytes [])) tr /\ forall c, ~ In (System OnEof c) tr) /\
  (delivered tr = [] -> is_idle st = true ->
   is_idle st1 = true /\ last_data_time st1 = last_data_time st /\
   state_start_time st1 = state_start_time st).
Proof.
  induction 1 as [st | st e st1 ev envs st2 tr Heof Hbody Hreach IH].
  - split; [reflexivity |]. split.
    + intros H. split; [exact H |]. split; [intros [] | intros c []].
    + auto.
  - destruct IH as [Hcfg [Hbefore Hidle]]. split; [| split].
    + rewrite Hcfg. eapply loop_body_config. exact Hbody.
    + intros H2. destruct (Hbefore H2) as [H1 [Hrd Hsys]].
      destruct (loop_body_before_eof _ _ _ _ Hbody H1) as [Hrd' Hsys'].
      split; [exact Heof |]. split.
      * intros Hin. apply in_app_or in Hin. tauto.
      * intros c Hin. apply in_app_or in Hin.
        destruct Hin as [Hin | Hin]; [exact (Hsys' c Hin) | exact (Hsys c Hin)].
    + intros Hdel Hi. rewrite delivered_app in Hdel.
      apply app_eq_nil in Hdel. destruct Hdel as [Hd1 Hd2].
      destruct (loop_body_stays_idle _ _ _ _ Hbody Hd1 Hi) as [Hi1 [Hl1 Hs1]].
      destruct (Hidle Hd2 Hi1) as [Hi2 [Hl2 Hs2]].
      split; [exact Hi2 |]. split; congruence.
Qed.

(** ** End of stream *)




(** ** The state of the monitor *)

(** C6. The loop is entered with the monitor idle, [last_data_time] and
    [state_start_time] holding the time read at startup (one call of [time]
    for each, so one value for both when the clock does not move between the
    two calls), and [eof_reached] false; as long as no read has delivered
    data the monitor is idle, with both times as they were set at startup;
    and at every point of a run the monitor is in exactly one of the two
    states. *)
Theorem starts_idle (cfg : Config) (su : startup_env) :
  let st0 := initial_locals cfg su in
  activity_state st0 = Idle /\
  last_data_time st0 = time_ans1 su /\
  state_start_time st0 = time_ans2 su /\
  (forall start, time_ans1 su = start -> time_ans2 su = start ->
     last_data_time st0 = start /\ state_start_time st0 = start) /\
  eof_reached st0 = false /\
  (forall prog opts envs,
     parse_args prog opts = (Done cfg, []) ->
     getfl_ans su <> -1 -> setfl_ans su <> -1 ->
     main prog opts su envs = (main_loop st0 envs ;; ret EXIT_SUCCESS)) /\
  (forall envs st tr,
     loop_reaches st0 envs st tr -> delivered tr = [] ->
     activity_state st = Idle /\
     last_data_time st = time_ans1 su /\
     state_start_time st = time_ans2 su) /\
  (forall st : locals,
     (activity_state st = Idle /\ activity_state st <> Active) \/
     (activity_state st = Active /\ activity_state st <> Idle)).
Proof.
  intros st0. do 3 (split; [reflexivity |]).
  split; [intros start H1 H2; split; assumption |].
  split; [reflexivity |]. split; [| split].
  - intros prog opts envs Hparse Hget Hset. subst st0. unfold main.
    rewrite Hparse. apply Z.eqb_neq in Hget, Hset.
    unfold bind at 1. rewrite Hget, Hset.
    destruct (main_loop (initial_locals cfg su) envs ;; ret EXIT_SUCCESS).
    reflexivity.
  - intros envs st tr Hreach Hdel.
    destruct (loop_reaches_invariant _ _ _ _ Hreach) as [_ [_ Hidle]].
    destruct (Hidle Hdel eq_refl) as [Hi [Hl Hs]].
    unfold activity_state. rewrite Hi, Hl, Hs. auto.
  - intros st. unfold activity_state.
    destruct (is_idle st); [left | right]; split;
      [reflexivity | discriminate | reflexivity | discriminate].
Qed.

(** C9. In every state that the loop of the program reaches, a turn of the
    loop changes the state and [state_start_time] together or not at all:
    when the state flips, [state_start_time] is the time snapshot of the
    turn, and when [state_start_time] changes, the state has flipped.  The
    same holds of each of the two blocks that assign them, from every
    state, and these blocks touch nothing else. *)
Theorem state_and_entry_time_change_together
    (prog : string) (opts : list getopt_result) (cfg : Config)
    (su : startup_env) (envs : list iter_env) (st : locals)
    (tr : list event) (e : iter_env) (st' : locals) (ev : list event) :
  parse_args prog opts = (Done cfg, []) ->
  loop_reaches (initial_locals cfg su) envs st tr ->
  loop_body st e = (Done st', ev) ->
  change_together (time_now e) st st' /\
  (forall now s, exists s1 acts,
     idle_to_active now s = (Done s1, acts) /\ change_together now s s1 /\
     last_data_time s1 = last_data_time s /\
     eof_reached s1 = eof_reached s /\ config s1 = config s) /\
  (forall now s, exists s1 acts,
     active_to_idle now s = (Done s1, acts) /\ change_together now s s1 /\
     last_data_time s1 = last_data_time s /\
     eof_reached s1 = eof_reached s /\ config s1 = config s).
Proof.
  intros Hparse Hreach Hbody.
  destruct (parse_args_valid _ _ _ _ Hparse) as [[Hpos _] _].
  destruct (loop_reaches_invariant _ _ _ _ Hreach) as [Hcfg _].
  split; [| split].
  - apply (loop_body_change_together st e st' ev); [| exact Hbody].
    rewrite Hcfg. exact Hpos.
  - intros now s. rewrite idle_to_active_eq. unfold change_together.
    destruct (is_idle s) eqn:Hi; eexists; eexists;
      (split; [reflexivity |]); simpl; rewrite ?Hi;
      repeat split; intros Hx;
      first [reflexivity | discriminate | contradiction Hx; reflexivity].
  - intros now s.
    destruct (active_to_idle now s) as [r acts] eqn:Ha.
    assert (exists s1, r = Done s1) as [s1 ->].
    { pose proof (active_to_idle_eq now s) as Hx. rewrite Ha in Hx.
      destruct (negb (is_idle s) &&
                (now - last_data_time s >=? idle_timeout (config s)));
        inversion Hx; eexists; reflexivity. }
    exists s1, acts. split; [reflexivity |].
    apply active_to_idle_Done in Ha. tauto.
Qed.

Lemma state_and_entry_time_change_together_witness :
  change_together 11
    (mkLocals cfg_opts_ex 10 10 false false)
    (mkLocals cfg_opts_ex 10 11 true false).
Proof.
  apply (state_and_entry_time_change_together "idlecat" opts_ex cfg_opts_ex
           su_ex [data_turn 10] (mkLocals cfg_opts_ex 10 10 false false)
           [Read (RdBytes hello); Write hello (WrOk 5)]
           (mkIter 0 false 11 (RdErr EAGAIN) [])
           (mkLocals cfg_opts_ex 10 11 true false)
           [System ActiveToIdle "notify idle"]).
  - reflexivity.
  - apply (reaches_turn _ (data_turn 10)
             (mkLocals cfg_opts_ex 10 10 false false)
             [Read (RdBytes hello); Write hello (WrOk 5)] [] _ []);
      [reflexivity | reflexivity | apply reaches_here].
  - reflexivity.
Defined.

(** * Further properties *)

(** ** The turns of the loop as a relation *)

Lemma active_to_idle_result now st :
  active_to_idle now st =
    (Done (after_idle_check now st), idle_check_events now st).
Proof.
  rewrite active_to_idle_eq. unfold after_idle_check, idle_check_events, idle_due.
  destruct (negb (is_idle st) &&
            (now - last_data_time st >=? idle_timeout (config st)));
    reflexivity.
Qed.

(** Every turn goes one of the ways of [turn]. *)
Lemma loop_body_turn st e r ev :
  loop_body st e = (r, ev) -> turn st e r ev.
Proof.
  intros H.
  destruct (Z.eqb_spec (select_ret e) (-1)) as [Hsel | Hsel].
  { unfold loop_body in H. rewrite Hsel in H. simpl in H.
    inversion H. apply turn_select_fails. exact Hsel. }
  assert (Hbody : loop_body st e =
                  (st1 <- process_data (time_now e) e st ;;
                   active_to_idle (time_now e) st1)).
  { unfold loop_body. apply Z.eqb_neq in Hsel. rewrite Hsel. reflexivity. }
  rewrite Hbody in H. clear Hbody.
  destruct ((select_ret e >? 0) && stdin_isset e) eqn:Hready.
  2: { unfold process_data in H. rewrite Hready in H.
       unfold ret, bind in H. rewrite active_to_idle_result in H.
       inversion H. apply turn_no_input; assumption. }
  assert (Hr : ready e).
  { apply andb_prop in Hready. destruct Hready as [Hs Hi].
    apply Z.gtb_lt in Hs. split; [lia | exact Hi]. }
  destruct (read_ans e) as [chunk | errno] eqn:Hread.
  - destruct chunk as [| b chunk].
    + unfold process_data in H. rewrite Hready, Hread, bind_emit in H.
      simpl in H. rewrite run_if_set_eq in H. simpl in H.
      rewrite app_nil_r, active_to_idle_result in H.
      inversion H. apply turn_eof; assumption.
    + destruct (write_loop (b :: chunk) 0 (write_ans e)) as [rw wev] eqn:Hw.
      destruct rw as [[] | code | call].
      * destruct Hr as [Hs Hi].
        rewrite (process_data_chunk (time_now e) e st (b :: chunk) wev)
          in H by (assumption || discriminate).
        unfold bind in H. rewrite active_to_idle_result in H.
        inversion H.
        change (Read (RdBytes (b :: chunk)) :: ?x) with
          ([Read (RdBytes (b :: chunk))] ++ x).
        rewrite <- !app_assoc. simpl.
        apply (turn_data st e (b :: chunk) wev);
          [split; assumption | assumption | discriminate | assumption].
      * unfold process_data in H. rewrite Hready, Hread, bind_emit in H.
        rewrite nonempty_length, Hw in H by discriminate.
        inversion H. apply turn_write_fails; [assumption .. | discriminate | assumption].
      * unfold process_data in H. rewrite Hready, Hread, bind_emit in H.
        rewrite nonempty_length, Hw in H by discriminate.
        inversion H. apply turn_write_blocked; [assumption .. | discriminate | assumption].
  - unfold process_data in H. rewrite Hready, Hread, bind_emit in H.
    destruct (Z.eqb_spec errno EAGAIN) as [He1 | He1].
    + simpl in H. rewrite active_to_idle_result in H. inversion H.
      apply turn_would_block; auto.
    + destruct (Z.eqb_spec errno EWOULDBLOCK) as [He2 | He2].
      * simpl in H. rewrite active_to_idle_result in H. inversion H.
        apply turn_would_block; auto.
      * simpl in H. inversion H. apply turn_read_fails; assumption.
Qed.

Lemma only_calls_action_events cond site cmd :
  only_calls (action_events cond site cmd).
Proof.
  unfold only_calls, action_events. intros x Hin.
  destruct cmd as [c |]; [destruct cond |]; simpl in Hin;
    try contradiction.
  destruct Hin as [<- | []]. eauto.
Qed.

Lemma only_calls_data_events now st : only_calls (data_events now st).
Proof.
  unfold data_events. destruct (is_idle st).
  - apply only_calls_action_events.
  - intros x [].
Qed.

Lemma only_calls_idle_check_events now st :
  only_calls (idle_check_events now st).
Proof.
  unfold idle_check_events. destruct (idle_due now st).
  - apply only_calls_action_events.
  - intros x [].
Qed.

Lemma only_calls_app tr1 tr2 :
  only_calls tr1 -> only_calls tr2 -> only_calls (tr1 ++ tr2).
Proof.
  intros H1 H2 x Hin. apply in_app_or in Hin. destruct Hin; auto.
Qed.

Lemma only_calls_quiet tr :
  only_calls tr ->
  filter is_read tr = [] /\ filter is_write tr = [] /\
  delivered tr = [] /\ forwarded tr = [] /\ filter is_diagnostic tr = [].
Proof.
  induction tr as [| x tr IH]; intros H; [repeat split |].
  destruct (H x (or_introl eq_refl)) as [a [c ->]].
  assert (Htl : only_calls tr) by (intros y Hy; apply H; right; exact Hy).
  destruct (IH Htl) as [H1 [H2 [H3 [H4 H5]]]].
  repeat split; assumption.
Qed.

Lemma filter_nil_In {A : Type} (p : A -> bool) (l : list A) x :
  filter p l = [] -> In x l -> p x = false.
Proof.
  intros Hf Hin. destruct (p x) eqn:Hp; [| reflexivity].
  assert (Hx : In x (filter p l)) by (apply filter_In; split; assumption).
  rewrite Hf in Hx. destruct Hx.
Qed.

(** The write loop calls [write] on what is left of the chunk, never on
    nothing. *)
Lemma write_loop_requests answers : forall chunk w r ev req a,
  0 <= w ->
  write_loop chunk w answers = (r, ev) ->
  In (Write req a) ev ->
  exists k, (k < length chunk)%nat /\ req = skipn k chunk.
Proof.
  induction answers as [| x answers IH]; intros chunk w r ev req a Hw H Hin.
  - cbn [write_loop] in H.
    destruct (w <? Z.of_nat (length chunk)); inversion H; subst;
      destruct Hin.
  - destruct (Z.ltb_spec w (Z.of_nat (length chunk))) as [Hlt | Hge].
    + rewrite write_loop_step in H by assumption. rewrite bind_emit in H.
      assert (Hhead : exists k, (k < length chunk)%nat /\
                        skipn (Z.to_nat w) chunk = skipn k chunk).
      { exists (Z.to_nat w). split; [lia | reflexivity]. }
      destruct x as [n | errno].
      * destruct (write_loop chunk (w + Z.of_nat n) answers) as [r' ev'] eqn:E.
        simpl in H. inversion H; subst.
        destruct Hin as [Hin | Hin].
        -- inversion Hin; subst. exact Hhead.
        -- assert (Hw' : 0 <= w + Z.of_nat n) by lia.
           exact (IH _ _ _ _ _ _ Hw' E Hin).
      * destruct (errno =? EINTR).
        -- destruct (write_loop chunk w answers) as [r' ev'] eqn:E.
           simpl in H. inversion H; subst.
           destruct Hin as [Hin | Hin].
           ++ inversion Hin; subst. exact Hhead.
           ++ exact (IH _ _ _ _ _ _ Hw E Hin).
        -- simpl in H. inversion H; subst.
           destruct Hin as [Hin | [Hin | []]]; [| discriminate].
           inversion Hin; subst. exact Hhead.
    + rewrite write_loop_done in H by lia. inversion H; subst. destruct Hin.
Qed.

Lemma only_calls_no_write tr req a : only_calls tr -> ~ In (Write req a) tr.
Proof. intros H Hin. destruct (H _ Hin) as [s [c Hx]]. discriminate. Qed.

Lemma only_calls_eof_turn now st :
  only_calls (action_events true OnEof (eof_command (config st)) ++
              idle_check_events now (set_eof_reached true st)).
Proof.
  apply only_calls_app;
    [apply only_calls_action_events | apply only_calls_idle_check_events].
Qed.

Lemma only_calls_data_turn now st :
  only_calls (data_events now st ++
              idle_check_events now (after_data now st)).
Proof.
  apply only_calls_app;
    [apply only_calls_data_events | apply only_calls_idle_check_events].
Qed.

(** ** What a turn does on the streams *)

Lemma split_in_front {A : Type} (pre : list A) : forall l1 l2 x post,
  l1 ++ l2 = pre ++ x :: post -> ~ In x l2 ->
  exists post', l1 = pre ++ x :: post'.
Proof.
  induction pre as [| p pre IH]; intros l1 l2 x post H Hn.
  - destruct l1 as [| y l1]; simpl in H.
    + subst l2. exfalso. apply Hn. left. reflexivity.
    + injection H as -> _. exists l1. reflexivity.
  - destruct l1 as [| y l1]; simpl in H.
    + subst l2. exfalso. apply Hn. right. apply in_elt.
    + injection H as -> H. destruct (IH _ _ _ _ H Hn) as [post' ->].
      exists post'. reflexivity.
Qed.

(** Each call of [write] in the loop is on what the calls before it have
    left of the chunk: the bytes from [bytes_written] on are those written
    since, followed by those of the request. *)
Lemma write_loop_offers_the_rest answers :
  forall chunk w r ev pre req a post,
  0 <= w ->
  write_loop chunk w answers = (r, ev) ->
  ev = pre ++ Write req a :: post ->
  forallb is_write pre = true /\
  skipn (Z.to_nat w) chunk = forwarded pre ++ req /\ req <> [].
Proof.
  induction answers as [| x answers IH];
    intros chunk w r ev pre req a post Hw H Hev; subst ev.
  - cbn [write_loop] in H.
    destruct (w <? Z.of_nat (length chunk)); inversion H;
      destruct pre; discriminate.
  - destruct (Z.ltb_spec w (Z.of_nat (length chunk))) as [Hlt | Hge].
    2: { rewrite write_loop_done in H by lia. inversion H.
         destruct pre; discriminate. }
    rewrite write_loop_step in H by assumption. rewrite bind_emit in H.
    assert (Hhead : skipn (Z.to_nat w) chunk <> []).
    { intros Hnil. apply (f_equal (@length byte)) in Hnil.
      rewrite length_skipn in Hnil. simpl in Hnil. lia. }
    destruct x as [n | errno].
    + destruct (write_loop chunk (w + Z.of_nat n) answers) as [r' ev'] eqn:E.
      simpl in H. injection H as _ Hl.
      destruct pre as [| p pre]; simpl in Hl.
      * injection Hl as <- _ _. repeat split. exact Hhead.
      * injection Hl as <- Hrest.
        assert (Hw' : 0 <= w + Z.of_nat n) by lia.
        destruct (IH _ _ _ _ _ _ _ _ Hw' E Hrest) as [Hall [Hsk Hne]].
        split; [exact Hall | split; [| exact Hne]].
        rewrite forwarded_cons. simpl forwarded at 1.
        rewrite app_nil_r, <- app_assoc, <- Hsk.
        replace (Z.to_nat (w + Z.of_nat n)) with (n + Z.to_nat w)%nat by lia.
        rewrite <- skipn_skipn. symmetry. apply firstn_skipn.
    + destruct (errno =? EINTR).
      * destruct (write_loop chunk w answers) as [r' ev'] eqn:E.
        simpl in H. injection H as _ Hl.
        destruct pre as [| p pre]; simpl in Hl.
        -- injection Hl as <- _ _. repeat split. exact Hhead.
        -- injection Hl as <- Hrest.
           destruct (IH _ _ _ _ _ _ _ _ Hw E Hrest) as [Hall [Hsk Hne]].
           split; [exact Hall | split; [| exact Hne]].
           rewrite forwarded_cons. exact Hsk.
      * simpl in H. injection H as _ Hl.
        destruct pre as [| p pre]; simpl in Hl.
        -- injection Hl as <- _ _. repeat split. exact Hhead.
        -- injection Hl as _ Hrest.
           destruct pre as [| p' pre]; [discriminate |].
           simpl in Hrest. injection Hrest as _ Hrest.
           destruct pre; discriminate.
Qed.

(** X1. A turn of the loop calls [read] at most once, before anything else
    it does on the streams, and only when [select] has reported the input
    readable.  Every call of [write] comes after that read, with nothing but
    calls of [write] in between, and is on exactly the bytes of the chunk
    that the calls before it have not written: the bytes written so far in
    the turn followed by those of the request are the chunk that was read;
    it is never on zero bytes.  A turn that finishes after reading a chunk
    has written all of it.  A turn that does not read does not write, and a
    turn in which [select] reports nothing does neither. *)
Theorem turn_reads_once_then_writes_the_chunk
    (st : locals) (e : iter_env) (r : result locals) (ev : list event) :
  loop_body st e = (r, ev) ->
  (filter is_read ev = [] \/
   (ready e /\ exists rest,
      ev = Read (read_ans e) :: rest /\ filter is_read rest = [])) /\
  (forall pre req a post, ev = pre ++ Write req a :: post ->
     ready e /\ exists chunk writes,
       read_ans e = RdBytes chunk /\
       pre = Read (RdBytes chunk) :: writes /\
       forallb is_write writes = true /\
       chunk = forwarded pre ++ req /\ req <> []) /\
  (forall st' chunk, r = Done st' -> ready e -> read_ans e = RdBytes chunk ->
     forwarded ev = chunk) /\
  (filter is_read ev = [] -> filter is_write ev = []) /\
  (~ ready e -> filter is_read ev = [] /\ filter is_write ev = []).
Proof.
  intros H. apply loop_body_turn in H.
  assert (Hwl : forall chunk rw wev,
            write_loop chunk 0 (write_ans e) = (rw, wev) ->
            forall tail, only_calls tail ->
            filter is_read (wev ++ tail) = [] /\
            forall pre req a post,
              Read (RdBytes chunk) :: wev ++ tail = pre ++ Write req a :: post ->
              exists writes,
                pre = Read (RdBytes chunk) :: writes /\
                forallb is_write writes = true /\
                chunk = forwarded pre ++ req /\ req <> []).
  { intros chunk rw wev Hw tail Htail.
    destruct (write_loop_trace _ _ _ _ _ (Z.le_refl 0) Hw)
      as [_ [_ [_ [Hrd _]]]].
    destruct (only_calls_quiet tail Htail) as [Hrd' _].
    split; [rewrite filter_app, Hrd, Hrd'; reflexivity |].
    intros pre req a post Hsplit.
    destruct pre as [| p pre]; [discriminate |].
    simpl in Hsplit. injection Hsplit as <- Hsplit.
    destruct (split_in_front _ _ _ _ _ Hsplit
                (only_calls_no_write _ _ _ Htail)) as [post' Hwev].
    destruct (write_loop_offers_the_rest _ _ _ _ _ _ _ _ _
                (Z.le_refl 0) Hw Hwev) as [Hall [Hsk Hne]].
    exists pre. split; [reflexivity | split; [exact Hall |]].
    split; [exact Hsk | exact Hne]. }
  assert (Hnone : forall tr, (forall req a, ~ In (Write req a) tr) ->
            forall pre req a post, tr = pre ++ Write req a :: post -> False).
  { intros tr Hno pre req a post ->. apply (Hno req a). apply in_elt. }
  inversion H as
    [Hsel | Hsel Hnr | errno Hr Hread Hwb | errno Hr Hread Hne1 Hne2
     | Hr Hread | chunk wev Hr Hread Hne Hw | chunk wev code Hr Hread Hne Hw
     | chunk wev call Hr Hread Hne Hw]; subst.
  - split; [left; reflexivity |].
    split; [intros pre req a post Hs; exfalso; revert Hs; apply Hnone;
            intros req' a' [Hin | []]; discriminate |].
    split; [discriminate |].
    split; [reflexivity |]. intros _. split; reflexivity.
  - pose proof (only_calls_idle_check_events (time_now e) st) as Hc.
    destruct (only_calls_quiet _ Hc) as [Hrd [Hwr _]].
    split; [left; exact Hrd |].
    split; [intros pre req a post Hs; exfalso; revert Hs; apply Hnone;
            intros req' a'; apply only_calls_no_write; exact Hc |].
    split; [intros st' chunk _ [Hs Hi] _; exfalso;
            destruct (readable_true e Hs Hi) as [Ht _]; congruence |].
    split; [intros _; exact Hwr |]. intros _. split; assumption.
  - pose proof (only_calls_idle_check_events (time_now e) st) as Hc.
    destruct (only_calls_quiet _ Hc) as [Hrd [Hwr _]].
    split; [right; split; [exact Hr |]; rewrite Hread; eauto |].
    split; [intros pre req a post Hs; exfalso; revert Hs; apply Hnone;
            intros req' a' [Hin | Hin];
            [discriminate | exact (only_calls_no_write _ _ _ Hc Hin)] |].
    split; [intros st' chunk _ _ Hrd2; congruence |].
    split; [discriminate |]. intros Hn; contradiction.
  - split; [right; split; [exact Hr |]; rewrite Hread; eauto |].
    split; [intros pre req a post Hs; exfalso; revert Hs; apply Hnone;
            intros req' a' [Hin | [Hin | []]]; discriminate |].
    split; [discriminate |].
    split; [discriminate |]. intros Hn; contradiction.
  - pose proof (only_calls_eof_turn (time_now e) st) as Hc.
    destruct (only_calls_quiet _ Hc) as [Hrd [Hwr [_ [Hfw _]]]].
    split; [right; split; [exact Hr |]; rewrite Hread; eauto |].
    split; [intros pre req a post Hs; exfalso; revert Hs; apply Hnone;
            intros req' a' [Hin | Hin];
            [discriminate | exact (only_calls_no_write _ _ _ Hc Hin)] |].
    split; [intros st' chunk _ _ Hrd2; rewrite forwarded_cons, Hfw;
            simpl; congruence |].
    split; [discriminate |]. intros Hn; contradiction.
  - destruct (Hwl chunk _ _ Hw _ (only_calls_data_turn (time_now e) st))
      as [Hrd Hreq].
    split; [right; split; [exact Hr |]; rewrite Hread; eauto |].
    split; [intros pre req a post Hs; split; [exact Hr |];
            destruct (Hreq _ _ _ _ Hs) as [writes Hwrites];
            exists chunk, writes; split; [exact Hread | exact Hwrites] |].
    split; [| split; [discriminate | intros Hn; contradiction]].
    intros st' chunk' _ _ Hrd2.
    assert (chunk' = chunk) by congruence. subst chunk'.
    destruct (write_loop_trace _ _ _ _ _ (Z.le_refl 0) Hw)
      as [[rest [Hsk Hrest]] _].
    destruct (only_calls_quiet _ (only_calls_data_turn (time_now e) st))
      as [_ [_ [_ [Hfw _]]]].
    rewrite forwarded_cons, forwarded_app, Hfw, app_nil_r.
    rewrite (Hrest eq_refl), app_nil_r in Hsk. simpl. symmetry. exact Hsk.
  - assert (Hnil : only_calls []) by (intros x []).
    destruct (Hwl chunk _ _ Hw _ Hnil) as [Hrd Hreq].
    rewrite app_nil_r in Hrd, Hreq.
    split; [right; split; [exact Hr |]; rewrite Hread; eauto |].
    split; [intros pre req a post Hs; split; [exact Hr |];
            destruct (Hreq _ _ _ _ Hs) as [writes Hwrites];
            exists chunk, writes; split; [exact Hread | exact Hwrites] |].
    split; [discriminate |].
    split; [discriminate | intros Hn; contradiction].
  - assert (Hnil : only_calls []) by (intros x []).
    destruct (Hwl chunk _ _ Hw _ Hnil) as [Hrd Hreq].
    rewrite app_nil_r in Hrd, Hreq.
    split; [right; split; [exact Hr |]; rewrite Hread; eauto |].
    split; [intros pre req a post Hs; split; [exact Hr |];
            destruct (Hreq _ _ _ _ Hs) as [writes Hwrites];
            exists chunk, writes; split; [exact Hread | exact Hwrites] |].
    split; [discriminate |].
    split; [discriminate | intros Hn; contradiction].
Qed.

Lemma turn_reads_once_then_writes_the_chunk_witness :
  hello =
    forwarded [Read (RdBytes hello); Write hello (WrOk 2)] ++ skipn 2 hello /\
  forwarded
    [Read (RdBytes hello); Write hello (WrOk 2);
     Write (skipn 2 hello) (WrOk 3)] = hello /\
  filter is_write [System ActiveToIdle "notify idle"] = [].
Proof.
  split; [| split].
  - destruct (turn_reads_once_then_writes_the_chunk
                (mkLocals cfg_ex 10 10 false false)
                (mkIter 1 true 10 (RdBytes hello) [WrOk 2; WrOk 3])
                (Done (mkLocals cfg_ex 10 10 false false))
                [Read (RdBytes hello); Write hello (WrOk 2);
                 Write (skipn 2 hello) (WrOk 3)])
      as [_ [Hwrite _]]; [reflexivity |].
    destruct (Hwrite [Read (RdBytes hello); Write hello (WrOk 2)]
                (skipn 2 hello) (WrOk 3) [] eq_refl)
      as [_ [chunk [writes [Hread [_ [_ [Hchunk _]]]]]]].
    simpl in Hread. injection Hread as <-. exact Hchunk.
  - destruct (turn_reads_once_then_writes_the_chunk
                (mkLocals cfg_ex 10 10 false false)
                (mkIter 1 true 10 (RdBytes hello) [WrOk 2; WrOk 3])
                (Done (mkLocals cfg_ex 10 10 false false))
                [Read (RdBytes hello); Write hello (WrOk 2);
                 Write (skipn 2 hello) (WrOk 3)])
      as [_ [_ [Hdone _]]]; [reflexivity |].
    apply (Hdone (mkLocals cfg_ex 10 10 false false) hello eq_refl);
      [split; [simpl; lia | reflexivity] | reflexivity].
  - apply (turn_reads_once_then_writes_the_chunk
             (mkLocals cfg_ex 10 9 false false)
             (mkIter 0 false 11 (RdErr EAGAIN) [])
             (Done (mkLocals cfg_ex 10 11 true false))
             [System ActiveToIdle "notify idle"]);
      [reflexivity |].
    intros [Hs _]. simpl in Hs. lia.
Defined.

(** ** The commands of a turn *)

Lemma in_data_events a c now st :
  In (System a c) (data_events now st) ->
  a = IdleToActive /\ is_idle st = true /\
  now - state_start_time st >= idle_to_active_threshold (config st) /\
  idle_to_active_command (config st) = Some c.
Proof.
  unfold data_events. destruct (is_idle st); [| intros []].
  intros Hin. apply in_action_events in Hin.
  destruct Hin as [-> [Hc Hcmd]]. apply Z.geb_le in Hc.
  repeat split; try assumption. lia.
Qed.

Lemma in_idle_check_events a c now st :
  In (System a c) (idle_check_events now st) ->
  a = ActiveToIdle /\ is_idle st = false /\
  now - last_data_time st >= idle_timeout (config st) /\
  now - state_start_time st >= active_to_idle_threshold (config st) /\
  active_to_idle_command (config st) = Some c.
Proof.
  unfold idle_check_events, idle_due.
  destruct (is_idle st); [intros [] |]. simpl.
  destruct (now - last_data_time st >=? idle_timeout (config st)) eqn:Hto;
    [| intros []].
  intros Hin. apply in_action_events in Hin.
  destruct Hin as [-> [Hc Hcmd]]. apply Z.geb_le in Hc, Hto.
  repeat split; try assumption; lia.
Qed.

Lemma write_loop_no_call chunk w answers r wev a c :
  write_loop chunk w answers = (r, wev) -> 0 <= w -> ~ In (System a c) wev.
Proof.
  intros H Hw Hin.
  destruct (write_loop_trace _ _ _ _ _ Hw H) as [_ [_ [Hsys _]]].
  apply in_system_calls in Hin. rewrite Hsys in Hin. exact Hin.
Qed.

Lemma calls_of_app a tr1 tr2 :
  calls_of a (tr1 ++ tr2) = calls_of a tr1 ++ calls_of a tr2.
Proof. unfold calls_of. rewrite system_calls_app. apply filter_app. Qed.

Lemma calls_of_action_events a cond site cmd :
  (length (calls_of a (action_events cond site cmd)) <=
   if action_eqb site a then 1 else 0)%nat.
Proof.
  unfold calls_of, action_events.
  destruct cmd as [c |]; [destruct cond |]; simpl;
    destruct (action_eqb site a); simpl; lia.
Qed.

Lemma calls_of_data_events a now st :
  (length (calls_of a (data_events now st)) <=
   if action_eqb IdleToActive a then 1 else 0)%nat.
Proof.
  unfold data_events. destruct (is_idle st).
  - apply calls_of_action_events.
  - simpl. lia.
Qed.

Lemma calls_of_idle_check_events a now st :
  (length (calls_of a (idle_check_events now st)) <=
   if action_eqb ActiveToIdle a then 1 else 0)%nat.
Proof.
  unfold idle_check_events. destruct (idle_due now st).
  - apply calls_of_action_events.
  - simpl. lia.
Qed.

Lemma calls_of_write_loop a chunk answers r wev :
  write_loop chunk 0 answers = (r, wev) -> calls_of a wev = [].
Proof.
  intros H. unfold calls_of.
  destruct (write_loop_trace _ _ _ _ _ (Z.le_refl 0) H) as [_ [_ [-> _]]].
  reflexivity.
Qed.

(** Takes a membership in the events of a turn apart. *)
Ltac split_in H :=
  repeat match type of H with
         | In _ (_ :: _) => destruct H as [H | H]; [try discriminate |]
         | In _ (_ ++ _) => apply in_app_or in H; destruct H as [H | H]
         | In _ [] => destruct H
         end.

Lemma delivered_data_turn chunk wev tail :
  chunk <> [] -> delivered (Read (RdBytes chunk) :: wev ++ tail) <> [].
Proof.
  intros Hne Hnil. apply Hne.
  change (Read (RdBytes chunk) :: wev ++ tail)
    with ([Read (RdBytes chunk)] ++ wev ++ tail) in Hnil.
  rewrite delivered_app in Hnil. apply app_eq_nil in Hnil.
  destruct Hnil as [Hnil _]. simpl in Hnil. rewrite app_nil_r in Hnil.
  exact Hnil.
Qed.

Lemma delivered_quiet_turn x tail :
  delivered [x] = [] -> only_calls tail -> delivered (x :: tail) = [].
Proof.
  intros Hx Ht. change (x :: tail) with ([x] ++ tail).
  rewrite delivered_app, Hx. apply (only_calls_quiet tail Ht).
Qed.

(** Where a call of [system] in a turn comes from. *)
Lemma turn_calls st e r ev a c :
  turn st e r ev -> In (System a c) ev ->
  (exists st', r = Done st') /\
  ((a = IdleToActive /\ In (System a c) (data_events (time_now e) st) /\
    delivered ev <> []) \/
   (a = OnEof /\ ready e /\ read_ans e = RdBytes [] /\
    eof_command (config st) = Some c) \/
   (a = ActiveToIdle /\
    exists s1,
      In (System a c) (idle_check_events (time_now e) s1) /\
      config s1 = config st /\
      (((s1 = st \/ s1 = set_eof_reached true st) /\ delivered ev = []) \/
       (s1 = after_data (time_now e) st /\ delivered ev <> [])))).
Proof.
  intros H Hin.
  inversion H as
    [Hsel | Hsel Hnr | errno Hr Hread Hwb | errno Hr Hread Hne1 Hne2
     | Hr Hread | chunk wev Hr Hread Hne Hw | chunk wev code Hr Hread Hne Hw
     | chunk wev call Hr Hread Hne Hw]; subst.
  - split_in Hin.
  - split; [eauto |]. right. right.
    pose proof (in_idle_check_events _ _ _ _ Hin) as [-> _].
    split; [reflexivity |]. exists st. split; [exact Hin |].
    split; [reflexivity |]. left. split; [left; reflexivity |].
    apply only_calls_quiet. apply only_calls_idle_check_events.
  - split; [eauto |]. split_in Hin. right. right.
    pose proof (in_idle_check_events _ _ _ _ Hin) as [-> _].
    split; [reflexivity |]. exists st. split; [exact Hin |].
    split; [reflexivity |]. left. split; [left; reflexivity |].
    apply delivered_quiet_turn;
      [reflexivity | apply only_calls_idle_check_events].
  - split_in Hin.
  - split; [eauto |].
    assert (Hdel : delivered
              (Read (RdBytes []) ::
               action_events true OnEof (eof_command (config st)) ++
               idle_check_events (time_now e) (set_eof_reached true st)) = []).
    { apply delivered_quiet_turn; [reflexivity | apply only_calls_eof_turn]. }
    split_in Hin.
    + apply in_action_events in Hin. destruct Hin as [-> [_ Hcmd]].
      right. left. auto.
    + right. right.
      pose proof (in_idle_check_events _ _ _ _ Hin) as [-> _].
      split; [reflexivity |]. exists (set_eof_reached true st).
      split; [exact Hin |]. split; [reflexivity |].
      left. split; [right; reflexivity | exact Hdel].
  - split; [eauto |].
    pose proof (delivered_data_turn chunk wev
                  (data_events (time_now e) st ++
                   idle_check_events (time_now e)
                     (after_data (time_now e) st)) Hne) as Hdel.
    split_in Hin.
    + exfalso. exact (write_loop_no_call _ _ _ _ _ _ _ Hw (Z.le_refl 0) Hin).
    + left. pose proof (in_data_events _ _ _ _ Hin) as [-> _]. auto.
    + right. right.
      pose proof (in_idle_check_events _ _ _ _ Hin) as [-> _].
      split; [reflexivity |]. exists (after_data (time_now e) st).
      split; [exact Hin |]. split.
      * unfold after_data. destruct (is_idle st); reflexivity.
      * right. split; [reflexivity | exact Hdel].
  - split_in Hin.
    exfalso. exact (write_loop_no_call _ _ _ _ _ _ _ Hw (Z.le_refl 0) Hin).
  - split_in Hin.
    exfalso. exact (write_loop_no_call _ _ _ _ _ _ _ Hw (Z.le_refl 0) Hin).
Qed.

(** X2. The commands that a turn runs.  A turn runs only commands that the
    configuration holds, each at most once, and none at all when it ends the
    process or is left in the write loop.  The idle-to-active command is run
    only in a turn that found the monitor idle, read data, and saw the time
    spent idle reach its threshold; the EOF command only in a turn that read
    the end of the stream; the active-to-idle command (with a positive
    [idle_timeout]) only in a turn that found the monitor active, read no
    data, and saw both [idle_timeout] since the last data and its threshold
    since the state was entered. *)
Theorem commands_of_a_turn
    (st : locals) (e : iter_env) (r : result locals) (ev : list event) :
  loop_body st e = (r, ev) ->
  let now := time_now e in
  (forall a c, In (System a c) ev ->
     command_of a (config st) = Some c /\ exists st', r = Done st') /\
  (forall c, In (System IdleToActive c) ev ->
     is_idle st = true /\ delivered ev <> [] /\
     now - state_start_time st >= idle_to_active_threshold (config st)) /\
  (forall c, In (System OnEof c) ev -> ready e /\ read_ans e = RdBytes []) /\
  (forall c, In (System ActiveToIdle c) ev ->
     0 < idle_timeout (config st) ->
     is_idle st = false /\ delivered ev = [] /\
     now - last_data_time st >= idle_timeout (config st) /\
     now - state_start_time st >= active_to_idle_threshold (config st)) /\
  (forall a, (length (calls_of a ev) <= 1)%nat).
Proof.
  intros H now. apply loop_body_turn in H.
  split; [| split; [| split; [| split]]].
  - intros a c Hin.
    destruct (turn_calls _ _ _ _ _ _ H Hin)
      as [Hdone [[-> [Hd _]] | [[-> [_ [_ Hcmd]]] | [-> [s1 [Hi [Hcfg _]]]]]]];
      (split; [| exact Hdone]).
    + apply in_data_events in Hd. apply Hd.
    + exact Hcmd.
    + apply in_idle_check_events in Hi. simpl. rewrite <- Hcfg. apply Hi.
  - intros c Hin.
    destruct (turn_calls _ _ _ _ _ _ H Hin)
      as [_ [[_ [Hd Hdel]] | [[Ha _] | [Ha _]]]]; try discriminate.
    apply in_data_events in Hd. destruct Hd as [_ [Hidle [Hthr _]]].
    auto.
  - intros c Hin.
    destruct (turn_calls _ _ _ _ _ _ H Hin)
      as [_ [[Ha _] | [[_ [Hr [Hread _]]] | [Ha _]]]]; try discriminate.
    auto.
  - intros c Hin Hpos.
    destruct (turn_calls _ _ _ _ _ _ H Hin)
      as [_ [[Ha _] | [[Ha _] | [_ [s1 [Hi [_ Hs1]]]]]]]; try discriminate.
    apply in_idle_check_events in Hi.
    destruct Hi as [_ [Hidle [Hto [Hthr _]]]].
    destruct Hs1 as [[[-> | ->] Hdel] | [-> _]].
    + auto.
    + auto.
    + exfalso. unfold after_data in Hto.
      destruct (is_idle st); simpl in Hto; lia.
  - intros a.
    inversion H as
      [Hsel | Hsel Hnr | errno Hr Hread Hwb | errno Hr Hread Hne1 Hne2
       | Hr Hread | chunk wev Hr Hread Hne Hw | chunk wev code Hr Hread Hne Hw
       | chunk wev call Hr Hread Hne Hw]; subst.
    + simpl. lia.
    + pose proof (calls_of_idle_check_events a (time_now e) st) as Hc.
      destruct (action_eqb ActiveToIdle a); lia.
    + change (Read (RdErr errno) :: ?l) with ([Read (RdErr errno)] ++ l).
      rewrite calls_of_app.
      pose proof (calls_of_idle_check_events a (time_now e) st) as Hc.
      destruct (action_eqb ActiveToIdle a); simpl; lia.
    + simpl. lia.
    + change (Read (RdBytes []) :: ?l) with ([Read (RdBytes [])] ++ l).
      rewrite !calls_of_app, !length_app.
      pose proof (calls_of_idle_check_events a (time_now e)
                    (set_eof_reached true st)) as Hc.
      pose proof (calls_of_action_events a true OnEof
                    (eof_command (config st))) as Hc'.
      destruct a; simpl in *; lia.
    + change (Read (RdBytes chunk) :: ?l) with ([Read (RdBytes chunk)] ++ l).
      rewrite !calls_of_app, !length_app, (calls_of_write_loop a _ _ _ _ Hw).
      pose proof (calls_of_idle_check_events a (time_now e)
                    (after_data (time_now e) st)) as Hc.
      pose proof (calls_of_data_events a (time_now e) st) as Hc'.
      destruct a; simpl in *; lia.
    + change (Read (RdBytes chunk) :: ?l) with ([Read (RdBytes chunk)] ++ l).
      rewrite !calls_of_app, (calls_of_write_loop a _ _ _ _ Hw). simpl. lia.
    + change (Read (RdBytes chunk) :: ?l) with ([Read (RdBytes chunk)] ++ l).
      rewrite !calls_of_app, (calls_of_write_loop a _ _ _ _ Hw). simpl. lia.
Qed.

Lemma commands_of_a_turn_witness :
  command_of ActiveToIdle (config (mkLocals cfg_ex 10 9 false false)) =
    Some "notify idle" /\
  11 - 9 >= active_to_idle_threshold cfg_ex.
Proof.
  destruct (commands_of_a_turn
              (mkLocals cfg_ex 10 9 false false)
              (mkIter 0 false 11 (RdErr EAGAIN) [])
              (Done (mkLocals cfg_ex 10 11 true false))
              [System ActiveToIdle "notify idle"])
    as [Hcfg [_ [_ [Ha2i _]]]]; [reflexivity |].
  split.
  - apply (Hcfg ActiveToIdle "notify idle"). left. reflexivity.
  - apply (Ha2i "notify idle"); [left; reflexivity | simpl; lia].
Defined.

(** ** The state after a turn *)

(** The state in which a turn that returns reaches the idle check. *)
Lemma turn_Done st e st' ev :
  turn st e (Done st') ev ->
  exists s1,
    st' = after_idle_check (time_now e) s1 /\
    ((s1 = st /\ delivered ev = []) \/
     (s1 = set_eof_reached true st /\ delivered ev = [] /\
      ready e /\ read_ans e = RdBytes []) \/
     (s1 = after_data (time_now e) st /\ delivered ev <> [])).
Proof.
  intros H.
  inversion H as
    [Hsel | Hsel Hnr | errno Hr Hread Hwb | errno Hr Hread Hne1 Hne2
     | Hr Hread | chunk wev Hr Hread Hne Hw | chunk wev code Hr Hread Hne Hw
     | chunk wev call Hr Hread Hne Hw]; subst.
  - exists st. split; [reflexivity |]. left. split; [reflexivity |].
    apply only_calls_quiet. apply only_calls_idle_check_events.
  - exists st. split; [reflexivity |]. left. split; [reflexivity |].
    apply delivered_quiet_turn;
      [reflexivity | apply only_calls_idle_check_events].
  - exists (set_eof_reached true st). split; [reflexivity |]. right. left.
    split; [reflexivity |]. split; [| split; assumption].
    apply delivered_quiet_turn; [reflexivity | apply only_calls_eof_turn].
  - exists (after_data (time_now e) st). split; [reflexivity |].
    right. right. split; [reflexivity |].
    apply delivered_data_turn. exact Hne.
Qed.

Lemma after_idle_check_fields now s :
  config (after_idle_check now s) = config s /\
  last_data_time (after_idle_check now s) = last_data_time s /\
  eof_reached (after_idle_check now s) = eof_reached s /\
  (is_idle (after_idle_check now s) = false ->
   is_idle s = false /\ after_idle_check now s = s /\
   now - last_data_time s < idle_timeout (config s)) /\
  (is_idle (after_idle_check now s) = true ->
   is_idle s = true /\ after_idle_check now s = s \/
   is_idle s = false /\
   now - last_data_time s >= idle_timeout (config s) /\
   state_start_time (after_idle_check now s) = now).
Proof.
  unfold after_idle_check, idle_due.
  destruct (is_idle s) eqn:Hi; simpl.
  - rewrite Hi. repeat split; auto; discriminate.
  - destruct (Z.geb_spec (now - last_data_time s) (idle_timeout (config s)))
      as [Hge | Hlt]; simpl.
    + do 3 (split; [reflexivity |]). split; [discriminate |].
      intros _. right. split; [reflexivity |]. split; [lia | reflexivity].
    + rewrite Hi. do 3 (split; [reflexivity |]).
      split; [intros _; repeat split; lia | discriminate].
Qed.

Lemma after_data_fields now s :
  config (after_data now s) = config s /\
  last_data_time (after_data now s) = now /\
  eof_reached (after_data now s) = eof_reached s /\
  is_idle (after_data now s) = false /\
  (is_idle s = true -> state_start_time (after_data now s) = now) /\
  (is_idle s = false ->
   state_start_time (after_data now s) = state_start_time s).
Proof.
  unfold after_data. destruct (is_idle s) eqn:Hi; simpl;
    repeat split; auto; discriminate.
Qed.

(** X3. At the end of every turn of the loop, a monitor that is active has
    seen data less than [idle_timeout] before the time snapshot of the
    turn. *)
Theorem active_means_recent_data
    (st : locals) (e : iter_env) (st' : locals) (ev : list event) :
  loop_body st e = (Done st', ev) ->
  is_idle st' = false ->
  time_now e - last_data_time st' < idle_timeout (config st').
Proof.
  intros H Hact. apply loop_body_turn, turn_Done in H.
  destruct H as [s1 [-> _]].
  destruct (after_idle_check_fields (time_now e) s1)
    as [Hc [Hl [_ [Hstay _]]]].
  destruct (Hstay Hact) as [_ [_ Hlt]].
  rewrite Hc, Hl. exact Hlt.
Qed.

Lemma active_means_recent_data_witness :
  13 - last_data_time (mkLocals cfg_ex 13 7 false false) <
  idle_timeout (config (mkLocals cfg_ex 13 7 false false)).
Proof.
  apply (active_means_recent_data
           (mkLocals cfg_ex 10 7 false false)
           (mkIter 1 true 13 (RdBytes hello) [WrOk 5])
           (mkLocals cfg_ex 13 7 false false)
           [Read (RdBytes hello); Write hello (WrOk 5)]);
    reflexivity.
Defined.

(** X4. The state changes only for its cause.  A turn that finds the
    monitor idle and leaves it active has read data, and sets both times to
    its snapshot; a turn that finds the monitor active and leaves it idle has
    seen [idle_timeout] pass since the last data, and sets
    [state_start_time] to its snapshot.  With a positive [idle_timeout], a
    turn that reads data leaves the monitor active. *)
Theorem transitions_have_causes
    (st : locals) (e : iter_env) (st' : locals) (ev : list event) :
  loop_body st e = (Done st', ev) ->
  let now := time_now e in
  (is_idle st = true -> is_idle st' = false ->
   delivered ev <> [] /\ last_data_time st' = now /\
   state_start_time st' = now) /\
  (is_idle st = false -> is_idle st' = true ->
   now - last_data_time st' >= idle_timeout (config st') /\
   state_start_time st' = now) /\
  (0 < idle_timeout (config st) -> delivered ev <> [] ->
   is_idle st' = false /\ last_data_time st' = now).
Proof.
  intros H now. subst now. apply loop_body_turn, turn_Done in H.
  destruct H as [s1 [-> Hs1]]. set (now := time_now e) in *.
  destruct (after_idle_check_fields now s1)
    as [Hc [Hl [_ [Hact Hidle]]]].
  destruct (after_data_fields now st) as [Dc [Dl [_ [Di [Ds _]]]]].
  split; [| split].
  - intros Hi Ha. destruct (Hact Ha) as [Hs1a [Heq _]].
    destruct Hs1 as [[-> _] | [[-> _] | [-> Hdel]]].
    + congruence.
    + simpl in Hs1a. congruence.
    + rewrite Heq. auto.
  - intros Ha Hi. rewrite Hc, Hl.
    destruct (Hidle Hi) as [[Hs1i _] | [_ [Hto Hs]]]; [| auto].
    exfalso. destruct Hs1 as [[-> _] | [[-> _] | [-> _]]].
    + congruence.
    + simpl in Hs1i. congruence.
    + congruence.
  - intros Hpos Hdel.
    destruct Hs1 as [[_ Hd] | [[_ [Hd _]] | [-> _]]];
      try contradiction.
    rewrite Hl. split; [| exact Dl].
    destruct (is_idle (after_idle_check now (after_data now st))) eqn:Hi;
      [| reflexivity].
    exfalso.
    destruct (Hidle eq_refl) as [[Hx _] | [_ [Hto _]]]; [congruence |].
    rewrite Dl, Dc in Hto. lia.
Qed.

Lemma transitions_have_causes_witness :
  11 - last_data_time (mkLocals cfg_ex 10 11 true false) >=
    idle_timeout (config (mkLocals cfg_ex 10 11 true false)) /\
  state_start_time (mkLocals cfg_ex 10 11 true false) = 11.
Proof.
  apply (transitions_have_causes
           (mkLocals cfg_ex 10 9 false false)
           (mkIter 0 false 11 (RdErr EAGAIN) [])
           (mkLocals cfg_ex 10 11 true false)
           [System ActiveToIdle "notify idle"]);
    reflexivity.
Defined.

(** X5. What a turn leaves alone.  A turn never changes the configuration;
    it changes [last_data_time] only by setting it to its snapshot, and only
    when it has read data; it changes [state_start_time] only by setting it
    to its snapshot; it never clears [eof_reached], and sets it only when
    [read] has returned zero bytes. *)
Theorem turn_frame
    (st : locals) (e : iter_env) (st' : locals) (ev : list event) :
  loop_body st e = (Done st', ev) ->
  let now := time_now e in
  config st' = config st /\
  ((delivered ev = [] /\ last_data_time st' = last_data_time st) \/
   (delivered ev <> [] /\ last_data_time st' = now)) /\
  (state_start_time st' = state_start_time st \/
   state_start_time st' = now) /\
  (eof_reached st = true -> eof_reached st' = true) /\
  (eof_reached st' = true ->
   eof_reached st = true \/ (ready e /\ read_ans e = RdBytes [])).
Proof.
  intros H now. subst now. apply loop_body_turn, turn_Done in H.
  destruct H as [s1 [-> Hs1]]. set (now := time_now e) in *.
  destruct (after_idle_check_fields now s1) as [Hc [Hl [He _]]].
  destruct (after_data_fields now st) as [Dc [Dl [De [_ [Ds Ds']]]]].
  assert (Hsst : state_start_time (after_idle_check now s1) =
                 state_start_time s1 \/
                 state_start_time (after_idle_check now s1) = now).
  { unfold after_idle_check. destruct (idle_due now s1); auto. }
  rewrite Hc, Hl, He.
  destruct Hs1 as [[-> Hdel] | [[-> [Hdel [Hr Hread]]] | [-> Hdel]]].
  - repeat split; auto.
  - repeat split; auto.
  - rewrite Dc, Dl, De. repeat split; auto.
    destruct Hsst as [Hs | Hs]; [| auto].
    rewrite Hs. destruct (is_idle st); [right | left]; auto.
Qed.

Lemma turn_frame_witness :
  config (mkLocals cfg_ex 13 7 false false) = cfg_ex /\
  last_data_time (mkLocals cfg_ex 13 7 false false) = 13.
Proof.
  destruct (turn_frame
              (mkLocals cfg_ex 10 7 false false)
              (mkIter 1 true 13 (RdBytes hello) [WrOk 5])
              (mkLocals cfg_ex 13 7 false false)
              [Read (RdBytes hello); Write hello (WrOk 5)])
    as [Hc [[[Hd _] | [_ Hl]] _]]; [reflexivity | discriminate |].
  split; [exact Hc | exact Hl].
Defined.

(** ** The times *)

Lemma loop_body_times st e st' ev :
  loop_body st e = (Done st', ev) ->
  (last_data_time st' = last_data_time st \/
   last_data_time st' = time_now e) /\
  (state_start_time st' = state_start_time st \/
   state_start_time st' = time_now e).
Proof.
  intros H. apply loop_body_turn, turn_Done in H.
  destruct H as [s1 [-> Hs1]].
  destruct (after_idle_check_fields (time_now e) s1) as [_ [Hl _]].
  destruct (after_data_fields (time_now e) st) as [_ [Dl [_ [_ [Ds Ds']]]]].
  assert (Hsst : state_start_time (after_idle_check (time_now e) s1) =
                 state_start_time s1 \/
                 state_start_time (after_idle_check (time_now e) s1) =
                 time_now e).
  { unfold after_idle_check. destruct (idle_due (time_now e) s1); auto. }
  rewrite Hl.
  destruct Hs1 as [[-> _] | [[-> _] | [-> _]]]; try (split; auto; fail).
  split; [auto |].
  destruct Hsst as [Hs | Hs]; [| auto].
  rewrite Hs. destruct (is_idle st); [right | left]; auto.
Qed.

(** X6. When the clock never goes back, neither does [last_data_time] nor
    [state_start_time], and neither is ever later than the last reading of
    the clock: the durations that the next turn computes from them are not
    negative. *)
Theorem times_follow_the_clock
    (st : locals) (envs : list iter_env) (st' : locals) (tr : list event)
    (t : Z) :
  loop_reaches st envs st' tr ->
  last_data_time st <= t -> state_start_time st <= t ->
  clock_never_goes_back t envs ->
  last_data_time st <= last_data_time st' <= last_time t envs /\
  state_start_time st <= state_start_time st' <= last_time t envs /\
  forall e, last_time t envs <= time_now e ->
    0 <= time_now e - last_data_time st' /\
    0 <= time_now e - state_start_time st'.
Proof.
  intros Hreach. revert t.
  induction Hreach as [st | st e st1 ev envs st2 tr Heof Hbody Hreach IH];
    intros t Hl Hs Hclock.
  - simpl. repeat split; try lia.
  - destruct Hclock as [Ht Hclock]. cbn [last_time].
    destruct (loop_body_times _ _ _ _ Hbody) as [Hl1 Hs1].
    assert (Hl1' : last_data_time st <= last_data_time st1 <= time_now e)
      by (destruct Hl1 as [-> | ->]; lia).
    assert (Hs1' : state_start_time st <= state_start_time st1 <= time_now e)
      by (destruct Hs1 as [-> | ->]; lia).
    destruct (IH (time_now e)) as [Hl2 [Hs2 Hnext]];
      [lia | lia | exact Hclock |].
    repeat split; try lia; apply Hnext; assumption.
Qed.

Lemma times_follow_the_clock_witness :
  last_data_time (initial_locals cfg_opts_ex su_ex) <=
    last_data_time (mkLocals cfg_opts_ex 10 11 true false) <=
    last_time 10 [data_turn 10; mkIter 0 false 11 (RdErr EAGAIN) []].
Proof.
  apply (times_follow_the_clock
           (initial_locals cfg_opts_ex su_ex)
           [data_turn 10; mkIter 0 false 11 (RdErr EAGAIN) []]
           (mkLocals cfg_opts_ex 10 11 true false)
           ([Read (RdBytes hello); Write hello (WrOk 5)] ++
            [System ActiveToIdle "notify idle"] ++ [])
           10).
  - apply (reaches_turn _ _ (mkLocals cfg_opts_ex 10 10 false false));
      [reflexivity | reflexivity |].
    apply (reaches_turn _ _ (mkLocals cfg_opts_ex 10 11 true false));
      [reflexivity | reflexivity | apply reaches_here].
  - simpl. lia.
  - simpl. lia.
  - simpl. lia.
Defined.

(** ** How a run ends *)

Lemma diagnoses_bind {A B : Type} (m : M A) (f : A -> M B) :
  diagnoses_its_exit m -> (forall a, diagnoses_its_exit (f a)) ->
  diagnoses_its_exit (bind m f).
Proof.
  unfold diagnoses_its_exit.
  destruct m as [[a | code | call] ev]; simpl; intros Hm Hf; auto.
  specialize (Hf a). destruct (f a) as [[b | code | call] ev2]; simpl in *.
  - rewrite filter_app, Hm, Hf. reflexivity.
  - destruct Hf as [-> [quiet [diag [-> [Hq [Hd Hne]]]]]].
    split; [reflexivity |]. exists (ev ++ quiet), diag.
    rewrite filter_app, Hm, Hq, app_assoc. auto.
  - rewrite filter_app, Hm, Hf. reflexivity.
Qed.

Lemma forallb_write_quiet wr :
  forallb is_write wr = true ->
  filter is_diagnostic wr = [] /\ filter is_read wr = [].
Proof.
  induction wr as [| x wr IH]; [auto |].
  simpl. intros H. apply andb_prop in H. destruct H as [Hx Hwr].
  destruct (IH Hwr) as [H1 H2].
  destruct x; try discriminate; simpl; auto.
Qed.

(** The events of the write loop: calls of [write], and then [perror] when
    it ends the process. *)
Lemma write_loop_shape answers : forall chunk w r ev,
  write_loop chunk w answers = (r, ev) ->
  exists wr,
    forallb is_write wr = true /\
    ((ev = wr /\ forall code, r <> Exited code) \/
     (ev = wr ++ [Perror "write"] /\ r = Exited EXIT_FAILURE)).
Proof.
  induction answers as [| a answers IH]; intros chunk w r ev H.
  - exists []. split; [reflexivity |]. left.
    cbn [write_loop] in H.
    destruct (w <? Z.of_nat (length chunk)); inversion H;
      split; [reflexivity | discriminate | reflexivity | discriminate].
  - destruct (Z.ltb_spec w (Z.of_nat (length chunk))) as [Hlt | Hge].
    + rewrite write_loop_step in H by assumption. rewrite bind_emit in H.
      destruct a as [n | errno].
      * destruct (write_loop chunk (w + Z.of_nat n) answers) as [r' ev'] eqn:E.
        simpl in H. inversion H; subst.
        destruct (IH _ _ _ _ E) as [wr [Hwr [[-> Hne] | [-> ->]]]];
          exists (Write (skipn (Z.to_nat w) chunk) (WrOk n) :: wr);
          (split; [exact Hwr |]); [left | right]; auto.
      * destruct (errno =? EINTR).
        -- destruct (write_loop chunk w answers) as [r' ev'] eqn:E.
           simpl in H. inversion H; subst.
           destruct (IH _ _ _ _ E) as [wr [Hwr [[-> Hne] | [-> ->]]]];
             exists (Write (skipn (Z.to_nat w) chunk) (WrErr errno) :: wr);
             (split; [exact Hwr |]); [left | right]; auto.
        -- simpl in H. inversion H; subst.
           exists [Write (skipn (Z.to_nat w) chunk) (WrErr errno)].
           split; [reflexivity |]. right. auto.
    + rewrite write_loop_done in H by lia. inversion H; subst.
      exists []. split; [reflexivity |]. left.
      split; [reflexivity | discriminate].
Qed.

Lemma diagnoses_loop_body st e : diagnoses_its_exit (loop_body st e).
Proof.
  destruct (loop_body st e) as [r ev] eqn:H. apply loop_body_turn in H.
  unfold diagnoses_its_exit.
  inversion H as
    [Hsel | Hsel Hnr | errno Hr Hread Hwb | errno Hr Hread Hne1 Hne2
     | Hr Hread | chunk wev Hr Hread Hne Hw | chunk wev code Hr Hread Hne Hw
     | chunk wev call Hr Hread Hne Hw]; subst; cbn [fst snd].
  - split; [reflexivity |]. exists [], [Perror "select"].
    repeat split. discriminate.
  - apply only_calls_quiet. apply only_calls_idle_check_events.
  - cbn [filter is_diagnostic].
    apply only_calls_quiet. apply only_calls_idle_check_events.
  - split; [reflexivity |]. exists [Read (RdErr errno)], [Perror "read"].
    repeat split. discriminate.
  - cbn [filter is_diagnostic].
    apply only_calls_quiet. apply only_calls_eof_turn.
  - destruct (write_loop_shape _ _ _ _ _ Hw) as [wr [Hwr [[-> _] | [_ Hx]]]];
      [| discriminate].
    cbn [filter is_diagnostic]. rewrite filter_app.
    destruct (forallb_write_quiet wr Hwr) as [-> _].
    apply only_calls_quiet. apply only_calls_data_turn.
  - destruct (write_loop_shape _ _ _ _ _ Hw) as [wr [Hwr [[_ Hx] | [-> Hc]]]];
      [exfalso; exact (Hx code eq_refl) |].
    inversion Hc; subst. split; [reflexivity |].
    exists (Read (RdBytes chunk) :: wr), [Perror "write"].
    split; [reflexivity |]. split; [| split; [reflexivity | discriminate]].
    cbn [filter is_diagnostic]. apply forallb_write_quiet. exact Hwr.
  - destruct (write_loop_shape _ _ _ _ _ Hw) as [wr [Hwr [[-> _] | [_ Hx]]]];
      [| discriminate].
    cbn [filter is_diagnostic]. apply forallb_write_quiet. exact Hwr.
Qed.

Lemma diagnoses_main_loop envs : forall st,
  diagnoses_its_exit (main_loop st envs).
Proof.
  induction envs as [| e envs IH]; intros st; cbn [main_loop];
    destruct (eof_reached st); try reflexivity.
  apply diagnoses_bind; [apply diagnoses_loop_body | apply IH].
Qed.

Lemma diagnoses_main prog opts su envs :
  diagnoses_its_exit (main prog opts su envs).
Proof.
  unfold main. apply diagnoses_bind.
  - unfold parse_args, diagnoses_its_exit.
    destruct (parse_loop_cases prog opts default_config)
      as [[cfg [E _]] | [ev [E [Hev Hne]]]]; rewrite E; cbn [fst snd].
    + reflexivity.
    + split; [reflexivity |]. exists [], ev. auto.
  - intros cfg. destruct (getfl_ans su =? -1).
    { split; [reflexivity |]. exists [], [Perror "fcntl F_GETFL"].
      repeat split. discriminate. }
    destruct (setfl_ans su =? -1).
    { split; [reflexivity |]. exists [], [Perror "fcntl F_SETFL"].
      repeat split. discriminate. }
    apply diagnoses_bind; [apply diagnoses_main_loop |].
    intros _. reflexivity.
Qed.

(** A turn that sets [eof_reached] has read the end of the stream. *)
Lemma loop_body_sets_eof st e st' ev :
  loop_body st e = (Done st', ev) ->
  eof_reached st = false -> eof_reached st' = true ->
  In (Read (RdBytes [])) ev.
Proof.
  intros H Hf Ht. apply loop_body_turn in H.
  inversion H as
    [Hsel | Hsel Hnr | errno Hr Hread Hwb | errno Hr Hread Hne1 Hne2
     | Hr Hread | chunk wev Hr Hread Hne Hw | chunk wev code Hr Hread Hne Hw
     | chunk wev call Hr Hread Hne Hw]; subst.
  - destruct (after_idle_check_fields (time_now e) st) as [_ [_ [He _]]].
    congruence.
  - destruct (after_idle_check_fields (time_now e) st) as [_ [_ [He _]]].
    congruence.
  - left. reflexivity.
  - destruct (after_idle_check_fields (time_now e)
                (after_data (time_now e) st)) as [_ [_ [He _]]].
    destruct (after_data_fields (time_now e) st) as [_ [_ [De _]]].
    congruence.
Qed.

Lemma main_loop_returns_after_eof envs : forall st st' tr,
  main_loop st envs = (Done st', tr) ->
  eof_reached st = false -> In (Read (RdBytes [])) tr.
Proof.
  induction envs as [| e envs IH]; intros st st' tr H Hf;
    cbn [main_loop] in H; rewrite Hf in H; [discriminate |].
  apply bind_Done in H. destruct H as [st1 [ev1 [ev2 [Hb [Hl ->]]]]].
  apply in_or_app.
  destruct (eof_reached st1) eqn:He.
  - left. exact (loop_body_sets_eof _ _ _ _ Hb Hf He).
  - right. exact (IH _ _ _ Hl He).
Qed.

(** X7. How a run ends.  When [main] returns, it returns [EXIT_SUCCESS], a
    read has returned zero bytes, and nothing was written to the error
    stream.  When the process exits, it exits with [EXIT_FAILURE], and its
    diagnostics are the last thing it did: nothing is read, written or run
    after a diagnostic.  A run that is still going has written no
    diagnostic. *)
Theorem run_ends_properly
    (prog : string) (opts : list getopt_result) (su : startup_env)
    (envs : list iter_env) (r : result Z) (tr : list event) :
  main prog opts su envs = (r, tr) ->
  (forall code, r = Done code ->
     code = EXIT_SUCCESS /\ In (Read (RdBytes [])) tr /\
     filter is_diagnostic tr = []) /\
  (forall code, r = Exited code ->
     code = EXIT_FAILURE /\
     exists quiet diag,
       tr = quiet ++ diag /\ filter is_diagnostic quiet = [] /\
       forallb is_diagnostic diag = true /\ diag <> []) /\
  (forall call, r = Blocked call -> filter is_diagnostic tr = []).
Proof.
  intros H. pose proof (diagnoses_main prog opts su envs) as Hd.
  unfold diagnoses_its_exit in Hd. rewrite H in Hd. cbn [fst snd] in Hd.
  split; [| split].
  - intros code ->. split; [| split; [| exact Hd]].
    + unfold main in H. apply bind_Done in H.
      destruct H as [cfg [ev1 [ev2 [_ [H _]]]]].
      destruct (getfl_ans su =? -1); [discriminate |].
      destruct (setfl_ans su =? -1); [discriminate |].
      apply bind_Done in H. destruct H as [st [ev3 [ev4 [_ [H _]]]]].
      inversion H. reflexivity.
    + unfold main in H. apply bind_Done in H.
      destruct H as [cfg [ev1 [ev2 [_ [H ->]]]]].
      destruct (getfl_ans su =? -1); [discriminate |].
      destruct (setfl_ans su =? -1); [discriminate |].
      apply bind_Done in H. destruct H as [st [ev3 [ev4 [Hl [_ ->]]]]].
      apply in_or_app. right. apply in_or_app. left.
      exact (main_loop_returns_after_eof _ _ _ _ Hl eq_refl).
  - intros code ->. exact Hd.
  - intros call ->. exact Hd.
Qed.

Lemma run_ends_properly_witness :
  In (Read (RdBytes []))
    [Read (RdBytes hello); Write hello (WrOk 5); Read (RdBytes []);
     System ActiveToIdle "notify idle"].
Proof.
  destruct (run_ends_properly "idlecat" opts_ex su_ex
              [data_turn 10; eof_turn 11] (Done EXIT_SUCCESS)
              [Read (RdBytes hello); Write hello (WrOk 5); Read (RdBytes []);
               System ActiveToIdle "notify idle"])
    as [Hdone _]; [reflexivity |].
  apply (Hdone EXIT_SUCCESS eq_refl).
Defined.

(** ** Commands and the output *)

Lemma split_at_call quiet : forall tail pre a c post,
  (forall a' c', ~ In (System a' c') quiet) ->
  quiet ++ tail = pre ++ System a c :: post ->
  exists l, pre = quiet ++ l /\ tail = l ++ System a c :: post.
Proof.
  induction quiet as [| x quiet IH]; intros tail pre a c post Hq H.
  - exists pre. auto.
  - destruct pre as [| y pre]; simpl in H; inversion H; subst.
    + exfalso. apply (Hq a c). left. reflexivity.
    + destruct (IH tail pre a c post) as [l [-> ->]];
        [intros a' c' Hin; apply (Hq a' c'); right; exact Hin | assumption |].
      exists l. auto.
Qed.

Lemma calls_after_writes_quiet {A : Type} (r : result A) ev :
  (forall a c, ~ In (System a c) ev) -> calls_after_writes (r, ev).
Proof.
  intros H pre a c post Heq. simpl in Heq. exfalso.
  apply (H a c). rewrite Heq. apply in_elt.
Qed.

(** Calls that follow events in which all that was read was written. *)
Lemma calls_after_writes_tail {A : Type} (r : result A) quiet calls :
  (forall a c, ~ In (System a c) quiet) ->
  forwarded quiet = delivered quiet -> only_calls calls ->
  calls_after_writes (r, quiet ++ calls).
Proof.
  intros Hq Hf Hc pre a c post Heq. simpl in Heq.
  destruct (split_at_call _ _ _ _ _ _ Hq Heq) as [l [-> Hl]].
  assert (Hlc : only_calls l).
  { intros x Hin. apply Hc. rewrite Hl. apply in_or_app. left. exact Hin. }
  destruct (only_calls_quiet l Hlc) as [_ [_ [Hd [Hw _]]]].
  rewrite forwarded_app, delivered_app, Hf, Hd, Hw. reflexivity.
Qed.

Lemma calls_after_writes_bind {A B : Type} (m : M A) (f : A -> M B) :
  forwards_what_it_reads m -> calls_after_writes m ->
  (forall a, calls_after_writes (f a)) ->
  calls_after_writes (bind m f).
Proof.
  intros [rest [Hr Hrest]] Hm Hf.
  destruct m as [[a | code | call] ev]; simpl in *;
    [| exact Hm | exact Hm].
  assert (rest = []) as ->.
  { destruct Hrest as [H | [H | [H _]]]; [exact H | |]; discriminate. }
  rewrite app_nil_r in Hr. specialize (Hf a).
  destruct (f a) as [r2 ev2]. intros pre s c post Heq. simpl in Heq.
  apply app_eq_app in Heq.
  destruct Heq as [l [[-> Hpost] | [-> Hev2]]].
  - destruct l as [| x l].
    + rewrite app_nil_r in Hr. symmetry. exact Hr.
    + simpl in Hpost. inversion Hpost; subst.
      apply (Hm pre s c l). reflexivity.
  - rewrite forwarded_app, delivered_app, Hr.
    f_equal. apply (Hf l s c post). exact Hev2.
Qed.

Lemma calls_after_writes_loop_body st e :
  calls_after_writes (loop_body st e).
Proof.
  destruct (loop_body st e) as [r ev] eqn:H. apply loop_body_turn in H.
  assert (Hnil : forall a c, ~ In (System a c) []) by (intros a c []).
  inversion H as
    [Hsel | Hsel Hnr | errno Hr Hread Hwb | errno Hr Hread Hne1 Hne2
     | Hr Hread | chunk wev Hr Hread Hne Hw | chunk wev code Hr Hread Hne Hw
     | chunk wev call Hr Hread Hne Hw]; subst.
  - apply calls_after_writes_quiet. intros a c Hin. split_in Hin.
  - apply (calls_after_writes_tail _ []);
      [exact Hnil | reflexivity | apply only_calls_idle_check_events].
  - apply (calls_after_writes_tail _ [Read (RdErr errno)]);
      [| reflexivity | apply only_calls_idle_check_events].
    intros a c Hin. split_in Hin.
  - apply calls_after_writes_quiet. intros a c Hin. split_in Hin.
  - apply (calls_after_writes_tail _ [Read (RdBytes [])]);
      [| reflexivity | apply only_calls_eof_turn].
    intros a c Hin. split_in Hin.
  - change (Read (RdBytes chunk) :: wev ++ ?l)
      with ((Read (RdBytes chunk) :: wev) ++ l).
    apply calls_after_writes_tail; [| | apply only_calls_data_turn].
    + intros a c Hin. split_in Hin.
      exact (write_loop_no_call _ _ _ _ _ _ _ Hw (Z.le_refl 0) Hin).
    + destruct (write_loop_trace _ _ _ _ _ (Z.le_refl 0) Hw)
        as [[rest [Hrest Hd]] [Hdel _]].
      rewrite (Hd eq_refl), app_nil_r in Hrest.
      change (Read (RdBytes chunk) :: wev)
        with ([Read (RdBytes chunk)] ++ wev).
      rewrite forwarded_app, delivered_app, Hdel, <- Hrest. simpl.
      rewrite !app_nil_r. reflexivity.
  - apply calls_after_writes_quiet. intros a c Hin. split_in Hin.
    exact (write_loop_no_call _ _ _ _ _ _ _ Hw (Z.le_refl 0) Hin).
  - apply calls_after_writes_quiet. intros a c Hin. split_in Hin.
    exact (write_loop_no_call _ _ _ _ _ _ _ Hw (Z.le_refl 0) Hin).
Qed.

Lemma calls_after_writes_main_loop envs : forall st,
  calls_after_writes (main_loop st envs).
Proof.
  induction envs as [| e envs IH]; intros st; cbn [main_loop];
    destruct (eof_reached st);
    try (apply calls_after_writes_quiet; intros a c []).
  apply calls_after_writes_bind;
    [apply forwards_loop_body | apply calls_after_writes_loop_body
     | apply IH].
Qed.

(** X8. Commands see the output up to date.  In every run, at each call of
    [system] (for any of the three commands) every byte that has been read
    so far has already been written: the chunk that wakes the monitor is
    forwarded before the idle-to-active command is run. *)
Theorem commands_run_after_the_bytes_are_written
    (prog : string) (opts : list getopt_result) (su : startup_env)
    (envs : list iter_env) (r : result Z) (tr : list event)
    (pre : list event) (a : action) (c : string) (post : list event) :
  main prog opts su envs = (r, tr) ->
  tr = pre ++ System a c :: post ->
  forwarded pre = delivered pre.
Proof.
  intros H Htr.
  assert (Hmain : calls_after_writes (main prog opts su envs)).
  { unfold main. apply calls_after_writes_bind.
    - unfold parse_args.
      destruct (parse_loop_cases prog opts default_config)
        as [[cfg [E _]] | [ev [E [Hev _]]]]; rewrite E.
      + apply forwards_no_bytes; reflexivity.
      + destruct (diagnostics_no_bytes ev Hev) as [H1 [H2 _]].
        apply forwards_no_bytes; assumption.
    - unfold parse_args.
      destruct (parse_loop_cases prog opts default_config)
        as [[cfg [E _]] | [ev [E [Hev _]]]]; rewrite E.
      + apply calls_after_writes_quiet. intros s x [].
      + apply calls_after_writes_quiet. intros s x Hin.
        destruct (diagnostics_no_bytes ev Hev) as [_ [_ [Hsys _]]].
        apply in_system_calls in Hin. rewrite Hsys in Hin. exact Hin.
    - intros cfg. destruct (getfl_ans su =? -1).
      { apply calls_after_writes_quiet. intros s x Hin. split_in Hin. }
      destruct (setfl_ans su =? -1).
      { apply calls_after_writes_quiet. intros s x Hin. split_in Hin. }
      apply calls_after_writes_bind;
        [apply forwards_main_loop | apply calls_after_writes_main_loop |].
      intros _. apply calls_after_writes_quiet. intros s x []. }
  unfold calls_after_writes in Hmain. rewrite H in Hmain.
  exact (Hmain pre a c post Htr).
Qed.

Lemma commands_run_after_the_bytes_are_written_witness :
  forwarded
    [Read (RdBytes hello); Write hello (WrOk 2);
     Write (skipn 2 hello) (WrOk 3)] =
  delivered
    [Read (RdBytes hello); Write hello (WrOk 2);
     Write (skipn 2 hello) (WrOk 3)].
Proof.
  apply (commands_run_after_the_bytes_are_written "idlecat"
           [("i"%char, "2"); ("I"%char, "touch /tmp/marker")] su_ex
           [mkIter 1 true 13 (RdBytes hello) [WrOk 2; WrOk 3]]
           (Blocked InSelect)
           ([Read (RdBytes hello); Write hello (WrOk 2);
             Write (skipn 2 hello) (WrOk 3)] ++
            [System IdleToActive "touch /tmp/marker"])
           _ IdleToActive "touch /tmp/marker" []);
    reflexivity.
Defined.

(** ** More on the command line *)

Lemma atoi_range s : - 2 ^ 31 <= atoi s <= INT_MAX.
Proof.
  unfold atoi, to_int, INT_MAX.
  pose proof (Z.mod_pos_bound (strtol10 s + 2 ^ 31) (2 ^ 32) eq_refl).
  lia.
Qed.

(** What one option does to the configuration, when it is accepted. *)
Lemma parse_opt_effect prog cfg opt optarg :
  (option_accepted (opt, optarg) = true /\
   exists cfg',
     parse_opt prog cfg (opt, optarg) = (Done cfg', []) /\
     idle_timeout cfg' =
       (if Ascii.eqb opt "t" then atoi optarg else idle_timeout cfg) /\
     idle_to_active_threshold cfg' =
       (if Ascii.eqb opt "i" then atoi optarg
        else idle_to_active_threshold cfg) /\
     active_to_idle_threshold cfg' =
       (if Ascii.eqb opt "a" then atoi optarg
        else active_to_idle_threshold cfg) /\
     idle_to_active_command cfg' =
       (if Ascii.eqb opt "I" then Some optarg
        else idle_to_active_command cfg) /\
     active_to_idle_command cfg' =
       (if Ascii.eqb opt "A" then Some optarg
        else active_to_idle_command cfg) /\
     eof_command cfg' =
       (if Ascii.eqb opt "E" then Some optarg else eof_command cfg)) \/
  (option_accepted (opt, optarg) = false /\
   exists ev,
     (forall cfg0, parse_opt prog cfg0 (opt, optarg) =
                     (Exited EXIT_FAILURE, ev)) /\
     (is_numeric_option opt = true -> exists msg, ev = [Fprintf msg []]) /\
     (is_numeric_option opt = false ->
      ev = snd (print_usage prog : M unit))).
Proof.
  unfold option_accepted, is_numeric_option, is_command_option, parse_opt.
  cbn [fst snd].
  destruct (Ascii.eqb_spec opt "t") as [-> | Ht].
  { cbn. destruct (Z.leb_spec (atoi optarg) 0) as [Hle | Hgt].
    - right. split; [apply Z.ltb_ge; exact Hle |]. eexists.
      split; [intros cfg0; reflexivity |].
      split; [eauto | discriminate].
    - left. split; [apply Z.ltb_lt; exact Hgt |]. eexists.
      repeat split. }
  destruct (Ascii.eqb_spec opt "i") as [-> | Hi].
  { cbn. destruct (Z.leb_spec (atoi optarg) 0) as [Hle | Hgt].
    - right. split; [apply Z.ltb_ge; exact Hle |]. eexists.
      split; [intros cfg0; reflexivity |].
      split; [eauto | discriminate].
    - left. split; [apply Z.ltb_lt; exact Hgt |]. eexists.
      repeat split. }
  destruct (Ascii.eqb_spec opt "a") as [-> | Ha].
  { cbn. destruct (Z.leb_spec (atoi optarg) 0) as [Hle | Hgt].
    - right. split; [apply Z.ltb_ge; exact Hle |]. eexists.
      split; [intros cfg0; reflexivity |].
      split; [eauto | discriminate].
    - left. split; [apply Z.ltb_lt; exact Hgt |]. eexists.
      repeat split. }
  cbn [orb].
  destruct (Ascii.eqb_spec opt "I") as [-> | HI].
  { left. split; [reflexivity |]. eexists. repeat split. }
  destruct (Ascii.eqb_spec opt "A") as [-> | HA].
  { left. split; [reflexivity |]. eexists. repeat split. }
  destruct (Ascii.eqb_spec opt "E") as [-> | HE].
  { left. split; [reflexivity |]. eexists. repeat split. }
  right. split; [reflexivity |]. eexists.
  split; [intros cfg0; reflexivity |].
  split; [discriminate | reflexivity].
Qed.

(** X9. Which command lines pass.  [parse_args] returns a configuration
    exactly when every option is [-I], [-A] or [-E], or is [-t], [-i] or
    [-a] with an argument that [atoi] reads as a positive number; it then
    writes nothing.  Otherwise the process exits with [EXIT_FAILURE] at the
    first option that is not so, whatever follows it: with one line on the
    error stream when that option is numeric, and with the usage text when
    it is [-h] or an option that [getopt] does not know. *)
Theorem parse_args_accepts_or_exits
    (prog : string) (opts : list getopt_result) :
  match find (fun o => negb (option_accepted o)) opts with
  | None =>
      exists cfg, parse_args prog opts = (Done cfg, []) /\ valid_config cfg
  | Some o =>
      exists ev,
        parse_args prog opts = (Exited EXIT_FAILURE, ev) /\
        (forall cfg, parse_opt prog cfg o = (Exited EXIT_FAILURE, ev)) /\
        (is_numeric_option (fst o) = true ->
         exists msg, ev = [Fprintf msg []]) /\
        (is_numeric_option (fst o) = false ->
         ev = snd (print_usage prog : M unit))
  end.
Proof.
  unfold parse_args.
  assert (Hgen : forall cfg0, valid_config cfg0 ->
            match find (fun o => negb (option_accepted o)) opts with
            | None =>
                exists cfg,
                  parse_loop prog cfg0 opts = (Done cfg, []) /\
                  valid_config cfg
            | Some o =>
                exists ev,
                  parse_loop prog cfg0 opts = (Exited EXIT_FAILURE, ev) /\
                  (forall cfg, parse_opt prog cfg o =
                                 (Exited EXIT_FAILURE, ev)) /\
                  (is_numeric_option (fst o) = true ->
                   exists msg, ev = [Fprintf msg []]) /\
                  (is_numeric_option (fst o) = false ->
                   ev = snd (print_usage prog : M unit))
            end).
  { induction opts as [| [opt optarg] opts IH]; intros cfg0 Hv.
    - exists cfg0. split; [reflexivity | exact Hv].
    - cbn [find parse_loop].
      destruct (parse_opt_effect prog cfg0 opt optarg)
        as [[Hacc [cfg1 [E _]]] | [Hacc [ev [E [Hnum Husage]]]]];
        rewrite Hacc; cbn [negb].
      + rewrite E. unfold bind.
        assert (Hv1 : valid_config cfg1).
        { destruct (parse_opt_cases prog cfg0 (opt, optarg))
            as [[cfg' [E' V]] | [ev' [E' _]]]; rewrite E in E';
            inversion E'; subst. apply V. exact Hv. }
        specialize (IH cfg1 Hv1).
        destruct (find (fun o => negb (option_accepted o)) opts) as [o |].
        * destruct IH as [ev [-> H]]. exists ev. split; [reflexivity | exact H].
        * destruct IH as [cfg [-> H]]. exists cfg. split; [reflexivity | exact H].
      + exists ev. rewrite (E cfg0). split; [reflexivity |].
        split; [exact E |]. split; assumption. }
  apply Hgen. repeat split.
Qed.

Lemma last_arg_step c opt optarg opts (d : Z) :
  setting_from d (last_arg c ((opt, optarg) :: opts)) =
  setting_from (if Ascii.eqb opt c then atoi optarg else d) (last_arg c opts).
Proof.
  cbn [last_arg fst snd]. destruct (last_arg c opts); [reflexivity |].
  destruct (Ascii.eqb opt c); reflexivity.
Qed.

Lemma last_arg_step_command c opt optarg opts (d : option string) :
  command_from d (last_arg c ((opt, optarg) :: opts)) =
  command_from (if Ascii.eqb opt c then Some optarg else d) (last_arg c opts).
Proof.
  cbn [last_arg fst snd]. destruct (last_arg c opts); [reflexivity |].
  destruct (Ascii.eqb opt c); reflexivity.
Qed.

Lemma parse_loop_result prog opts : forall cfg0 cfg ev,
  parse_loop prog cfg0 opts = (Done cfg, ev) ->
  idle_timeout cfg = setting_from (idle_timeout cfg0) (last_arg "t" opts) /\
  idle_to_active_threshold cfg =
    setting_from (idle_to_active_threshold cfg0) (last_arg "i" opts) /\
  active_to_idle_threshold cfg =
    setting_from (active_to_idle_threshold cfg0) (last_arg "a" opts) /\
  idle_to_active_command cfg =
    command_from (idle_to_active_command cfg0) (last_arg "I" opts) /\
  active_to_idle_command cfg =
    command_from (active_to_idle_command cfg0) (last_arg "A" opts) /\
  eof_command cfg = command_from (eof_command cfg0) (last_arg "E" opts).
Proof.
  induction opts as [| [opt optarg] opts IH]; intros cfg0 cfg ev H.
  - inversion H. repeat split.
  - cbn [parse_loop] in H. apply bind_Done in H.
    destruct H as [cfg1 [ev1 [ev2 [H1 [H2 _]]]]].
    destruct (parse_opt_effect prog cfg0 opt optarg)
      as [[_ [cfg' [E [F1 [F2 [F3 [F4 [F5 F6]]]]]]]] | [_ [ev' [E _]]]];
      rewrite E in H1; [| discriminate].
    inversion H1; subst cfg'. clear H1.
    destruct (IH _ _ _ H2) as [G1 [G2 [G3 [G4 [G5 G6]]]]].
    rewrite !last_arg_step, !last_arg_step_command.
    rewrite G1, G2, G3, G4, G5, G6, F1, F2, F3, F4, F5, F6.
    repeat split.
Qed.

(** X10. What the configuration holds.  When [parse_args] returns, each of
    the three numbers is what [atoi] reads in the argument of the last
    occurrence of its option, or the default (5, 120, 180 seconds) when the
    option is absent, and lies between 1 and [INT_MAX]; each of the three
    commands is the argument of the last occurrence of its option, as it is
    given, and is unset when the option is absent. *)
Theorem parse_args_takes_the_last_occurrence
    (prog : string) (opts : list getopt_result) (cfg : Config)
    (ev : list event) :
  parse_args prog opts = (Done cfg, ev) ->
  idle_timeout cfg = setting_from 5 (last_arg "t" opts) /\
  idle_to_active_threshold cfg = setting_from 120 (last_arg "i" opts) /\
  active_to_idle_threshold cfg = setting_from 180 (last_arg "a" opts) /\
  idle_to_active_command cfg = last_arg "I" opts /\
  active_to_idle_command cfg = last_arg "A" opts /\
  eof_command cfg = last_arg "E" opts /\
  1 <= idle_timeout cfg <= INT_MAX /\
  1 <= idle_to_active_threshold cfg <= INT_MAX /\
  1 <= active_to_idle_threshold cfg <= INT_MAX.
Proof.
  intros H.
  destruct (parse_args_valid _ _ _ _ H) as [[V1 [V2 V3]] _].
  unfold parse_args in H.
  destruct (parse_loop_result _ _ _ _ _ H) as [G1 [G2 [G3 [G4 [G5 G6]]]]].
  cbn in G1, G2, G3, G4, G5, G6.
  assert (Hr : forall d o, d <= INT_MAX -> setting_from d o <= INT_MAX).
  { intros d [s |] Hd; simpl; [apply atoi_range | exact Hd]. }
  split; [exact G1 |]. split; [exact G2 |]. split; [exact G3 |].
  split; [rewrite G4; destruct (last_arg "I" opts); reflexivity |].
  split; [rewrite G5; destruct (last_arg "A" opts); reflexivity |].
  split; [rewrite G6; destruct (last_arg "E" opts); reflexivity |].
  repeat split; try lia.
  - rewrite G1. apply Hr. cbv. discriminate.
  - rewrite G2. apply Hr. cbv. discriminate.
  - rewrite G3. apply Hr. cbv. discriminate.
Qed.

Lemma parse_args_takes_the_last_occurrence_witness :
  idle_timeout
    (mkConfig 7 DEFAULT_IDLE_TO_ACTIVE_THRESHOLD
       DEFAULT_ACTIVE_TO_IDLE_THRESHOLD None None (Some "")) = 7 /\
  eof_command
    (mkConfig 7 DEFAULT_IDLE_TO_ACTIVE_THRESHOLD
       DEFAULT_ACTIVE_TO_IDLE_THRESHOLD None None (Some "")) = Some "".
Proof.
  destruct (parse_args_takes_the_last_occurrence "idlecat"
              [("t"%char, "3"); ("E"%char, "bye"); ("t"%char, "7 seconds");
               ("E"%char, "")]
              (mkConfig 7 DEFAULT_IDLE_TO_ACTIVE_THRESHOLD
                 DEFAULT_ACTIVE_TO_IDLE_THRESHOLD None None (Some "")) [])
    as [H1 [_ [_ [_ [_ [H6 _]]]]]]; [reflexivity |].
  split; [exact H1 | exact H6].
Defined.

(** ** More on the write loop *)

(** X11. When every call of [write] takes at least one byte, the write loop
    ends, with the rest of the chunk written, after at most as many calls as
    bytes were left. *)
Theorem write_loop_ends_when_writes_progress
    (chunk : list byte) (w : Z) (answers : list write_result) :
  0 <= w ->
  (forall a, In a answers -> exists n, a = WrOk (S n)) ->
  Z.of_nat (length chunk) - w <= Z.of_nat (length answers) ->
  exists ev,
    write_loop chunk w answers = (Done tt, ev) /\
    forwarded ev = skipn (Z.to_nat w) chunk /\
    Z.of_nat (length ev) <= Z.max 0 (Z.of_nat (length chunk) - w).
Proof.
  revert w.
  induction answers as [| a answers IH]; intros w Hw Hpos Hlen.
  - exists []. simpl in Hlen.
    rewrite write_loop_done by lia.
    split; [reflexivity |]. split; [| simpl; lia].
    simpl. symmetry. apply skipn_past. lia.
  - destruct (Z.ltb_spec w (Z.of_nat (length chunk))) as [Hlt | Hge].
    + destruct (Hpos a (or_introl eq_refl)) as [n ->].
      destruct (IH (w + Z.of_nat (S n))) as [ev [E [_ Hn]]].
      * lia.
      * intros a Hin. apply Hpos. right. exact Hin.
      * simpl length in Hlen. lia.
      * exists (Write (skipn (Z.to_nat w) chunk) (WrOk (S n)) :: ev).
        assert (Hrun : write_loop chunk w (WrOk (S n) :: answers) =
                       (Done tt,
                        Write (skipn (Z.to_nat w) chunk) (WrOk (S n)) :: ev)).
        { rewrite write_loop_step by assumption.
          rewrite bind_emit, E. reflexivity. }
        split; [exact Hrun |]. split.
        -- destruct (write_loop_trace _ _ _ _ _ Hw Hrun) as [[rest [Hr Hd]] _].
           rewrite (Hd eq_refl), app_nil_r in Hr. symmetry. exact Hr.
        -- simpl length. lia.
    + exists []. rewrite write_loop_done by lia.
      split; [reflexivity |]. split; [| simpl; lia].
      simpl. symmetry. apply skipn_past. lia.
Qed.

Lemma write_loop_ends_when_writes_progress_witness :
  exists ev,
    write_loop hello 0 [WrOk 1; WrOk 3; WrOk 2; WrOk 1; WrOk 1] =
      (Done tt, ev) /\
    forwarded ev = skipn (Z.to_nat 0) hello /\
    Z.of_nat (length ev) <= Z.max 0 (Z.of_nat (length hello) - 0).
Proof.
  apply (write_loop_ends_when_writes_progress hello 0
           [WrOk 1; WrOk 3; WrOk 2; WrOk 1; WrOk 1]).
  - lia.
  - intros a Hin. simpl in Hin.
    destruct Hin as [<- | [<- | [<- | [<- | [<- | []]]]]]; eauto.
  - simpl. lia.
Defined.

(** X12. A call of [write] that takes no byte is answered like an
    interrupted one: by the same call again.  The loop sets no limit on
    this: as long as the answers are of these two kinds it stays in the
    write loop, and nothing is forwarded. *)
Theorem write_loop_repeats_without_bound
    (chunk : list byte) (w : Z) (answers : list write_result) :
  0 <= w -> w < Z.of_nat (length chunk) ->
  (forall a, In a answers -> a = WrOk 0 \/ a = WrErr EINTR) ->
  write_loop chunk w answers =
    (Blocked InWrite, map (Write (skipn (Z.to_nat w) chunk)) answers) /\
  forwarded (map (Write (skipn (Z.to_nat w) chunk)) answers) = [].
Proof.
  intros Hw Hlt.
  induction answers as [| a answers IH]; intros Hans.
  - cbn [write_loop map]. apply Z.ltb_lt in Hlt. rewrite Hlt. auto.
  - destruct IH as [E Hf];
      [intros x Hin; apply Hans; right; exact Hin |].
    rewrite write_loop_step by assumption. rewrite bind_emit.
    destruct (Hans a (or_introl eq_refl)) as [-> | ->].
    + change (w + Z.of_nat 0) with (w + 0). rewrite Z.add_0_r, E.
      split; [reflexivity |]. cbn [map]. rewrite forwarded_cons, Hf.
      reflexivity.
    + rewrite Z.eqb_refl, E.
      split; [reflexivity |]. cbn [map]. rewrite forwarded_cons, Hf.
      reflexivity.
Qed.

Lemma write_loop_repeats_without_bound_witness :
  write_loop hello 2 [WrOk 0; WrErr EINTR; WrOk 0] =
    (Blocked InWrite,
     map (Write (skipn (Z.to_nat 2) hello)) [WrOk 0; WrErr EINTR; WrOk 0]).
Proof.
  apply (write_loop_repeats_without_bound hello 2
           [WrOk 0; WrErr EINTR; WrOk 0]).
  - lia.
  - simpl. lia.
  - intros a Hin. simpl in Hin.
    destruct Hin as [<- | [<- | [<- | []]]]; auto.
Defined.

(** ** How often a command can run *)

Lemma clock_never_goes_back_app envs : forall t e,
  clock_never_goes_back t (envs ++ [e]) ->
  clock_never_goes_back t envs /\ last_time t envs <= time_now e.
Proof.
  induction envs as [| x envs IH]; intros t e H.
  - simpl in *. tauto.
  - destruct H as [Ht H]. destruct (IH _ _ H) as [H1 H2].
    simpl. auto.
Qed.

Lemma loop_reaches_state_start_time st envs st' tr :
  loop_reaches st envs st' tr ->
  forall t, state_start_time st <= t -> clock_never_goes_back t envs ->
  state_start_time st <= state_start_time st' <= last_time t envs.
Proof.
  induction 1 as [st | st e st1 ev envs st2 tr Heof Hbody Hreach IH];
    intros t Hs Hclock.
  - simpl. lia.
  - destruct Hclock as [Ht Hclock]. cbn [last_time].
    destruct (loop_body_times _ _ _ _ Hbody) as [_ Hs1].
    assert (state_start_time st <= state_start_time st1 <= time_now e)
      by (destruct Hs1 as [-> | ->]; lia).
    assert (IH' : state_start_time st1 <= state_start_time st2 <=
                  last_time (time_now e) envs)
      by (apply IH; [lia | exact Hclock]).
    lia.
Qed.

(** A turn that runs a transition command leaves [state_start_time] at its
    snapshot, and ran the command for a threshold counted from the
    [state_start_time] it found. *)
Lemma turn_with_transition_command st e st' ev a c :
  0 < idle_timeout (config st) ->
  loop_body st e = (Done st', ev) ->
  In (System a c) ev -> a <> OnEof ->
  state_start_time st' = time_now e /\
  time_now e - state_start_time st >= threshold_of a (config st).
Proof.
  intros Hpos H Hin Ha. apply loop_body_turn in H.
  destruct (turn_calls _ _ _ _ _ _ H Hin)
    as [_ [[-> [Hd Hdel]] | [[-> _] | [-> [s1 [Hi [_ Hs1]]]]]]];
    [| contradiction |].
  - apply in_data_events in Hd. destruct Hd as [_ [Hidle [Hthr _]]].
    split; [| exact Hthr].
    apply turn_Done in H. destruct H as [s2 [-> Hs2]].
    destruct (after_data_fields (time_now e) st) as [_ [_ [_ [_ [Ds _]]]]].
    destruct Hs2 as [[_ Hx] | [[_ [Hx _]] | [-> _]]]; try contradiction.
    unfold after_idle_check.
    destruct (idle_due (time_now e) (after_data (time_now e) st));
      [reflexivity | exact (Ds Hidle)].
  - apply in_idle_check_events in Hi.
    destruct Hi as [_ [Hact [Hto [Hthr _]]]].
    destruct Hs1 as [[Hs1' Hquiet] | [-> _]].
    2: { exfalso. destruct (after_data_fields (time_now e) st)
           as [Dc [Dl _]]. rewrite Dl, Dc in Hto. lia. }
    assert (Hst : is_idle st = false /\
                  time_now e - last_data_time st >=
                  idle_timeout (config st) /\
                  time_now e - state_start_time st >=
                  active_to_idle_threshold (config st)).
    { destruct Hs1' as [-> | ->]; auto. }
    destruct Hst as [Hi' [Ht' Hthr']].
    split; [| exact Hthr'].
    assert (Hdue : forall s, (s = st \/ s = set_eof_reached true st) ->
              state_start_time (after_idle_check (time_now e) s) =
              time_now e).
    { intros s [-> | ->]; unfold after_idle_check, idle_due; simpl;
        rewrite Hi'; simpl;
        (replace (time_now e - last_data_time st >=?
                  idle_timeout (config st)) with true;
         [reflexivity | symmetry; apply Z.geb_le; lia]). }
    apply turn_Done in H. destruct H as [s2 [-> Hs2]].
    destruct Hs2 as [[-> _] | [[-> _] | [_ Hdel]]].
    + apply Hdue. left. reflexivity.
    + apply Hdue. right. reflexivity.
    + contradiction.
Qed.

(** X13. The thresholds space the commands.  With a clock that never goes
    back and a positive [idle_timeout], two runs of the idle-to-active
    command are at least [idle_to_active_threshold] apart, and two runs of
    the active-to-idle command at least [active_to_idle_threshold] apart,
    by the time snapshots of their turns. *)
Theorem transition_commands_are_spaced
    (st1 : locals) (e1 : iter_env) (st2 : locals) (ev1 : list event)
    (envs : list iter_env) (st3 : locals) (tr : list event)
    (e2 : iter_env) (st4 : locals) (ev2 : list event)
    (a : action) (c1 c2 : string) :
  0 < idle_timeout (config st1) ->
  loop_body st1 e1 = (Done st2, ev1) -> In (System a c1) ev1 ->
  loop_reaches st2 envs st3 tr ->
  loop_body st3 e2 = (Done st4, ev2) -> In (System a c2) ev2 ->
  clock_never_goes_back (time_now e1) (envs ++ [e2]) ->
  a <> OnEof ->
  time_now e2 - time_now e1 >= threshold_of a (config st1).
Proof.
  intros Hpos H1 Hin1 Hreach H2 Hin2 Hclock Ha.
  destruct (turn_with_transition_command _ _ _ _ _ _ Hpos H1 Hin1 Ha)
    as [Hs2 _].
  assert (Hcfg : config st3 = config st1).
  { destruct (loop_reaches_invariant _ _ _ _ Hreach) as [-> _].
    exact (loop_body_config _ _ _ _ H1). }
  assert (Hpos3 : 0 < idle_timeout (config st3)) by (rewrite Hcfg; exact Hpos).
  destruct (turn_with_transition_command _ _ _ _ _ _ Hpos3 H2 Hin2 Ha)
    as [_ Hthr].
  destruct (clock_never_goes_back_app _ _ _ Hclock) as [Hc Hlast].
  pose proof (loop_reaches_state_start_time _ _ _ _ Hreach (time_now e1))
    as Hmono.
  rewrite Hs2 in Hmono. specialize (Hmono (Z.le_refl _) Hc).
  rewrite Hcfg in Hthr. lia.
Qed.

Lemma transition_commands_are_spaced_witness :
  time_now (data_turn 16) - time_now (data_turn 13) >=
  threshold_of IdleToActive (config (mkLocals cfg_ex 10 10 true false)).
Proof.
  apply (transition_commands_are_spaced
           (mkLocals cfg_ex 10 10 true false) (data_turn 13)
           (mkLocals cfg_ex 13 13 false false)
           [Read (RdBytes hello); Write hello (WrOk 5);
            System IdleToActive "touch /tmp/marker"]
           [mkIter 0 false 14 (RdErr EAGAIN) []]
           (mkLocals cfg_ex 13 14 true false) ([] ++ [])
           (data_turn 16)
           (mkLocals cfg_ex 16 16 false false)
           [Read (RdBytes hello); Write hello (WrOk 5);
            System IdleToActive "touch /tmp/marker"]
           IdleToActive "touch /tmp/marker" "touch /tmp/marker").
  - simpl. lia.
  - reflexivity.
  - right. right. left. reflexivity.
  - apply (reaches_turn _ _ (mkLocals cfg_ex 13 14 true false));
      [reflexivity | reflexivity | apply reaches_here].
  - reflexivity.
  - right. right. left. reflexivity.
  - simpl. lia.
  - discriminate.
Defined.

(** ** The output against the input *)

Lemma input_of_not_ready e envs :
  (select_ret e >? 0) && stdin_isset e = false ->
  input_of (e :: envs) = input_of envs /\ reads_eof e = false.
Proof.
  intros H. unfold reads_eof. cbn [input_of]. rewrite H. auto.
Qed.

Lemma input_of_ready e envs :
  ready e ->
  (forall errno, read_ans e = RdErr errno ->
     input_of (e :: envs) = input_of envs /\ reads_eof e = false) /\
  (read_ans e = RdBytes [] ->
     input_of (e :: envs) = [] /\ reads_eof e = true) /\
  (forall chunk, read_ans e = RdBytes chunk -> chunk <> [] ->
     input_of (e :: envs) = chunk ++ input_of envs /\ reads_eof e = false).
Proof.
  intros [Hs Hi]. destruct (readable_true e Hs Hi) as [Hb _].
  unfold reads_eof. cbn [input_of]. rewrite Hb.
  split; [| split].
  - intros errno ->. auto.
  - intros ->. auto.
  - intros chunk -> Hne. destruct chunk; [contradiction | auto].
Qed.

(** What a turn reads is the next part of the input, and the turn sets
    [eof_reached] exactly when it reads the end of the stream. *)
Lemma turn_input st e r ev envs :
  eof_reached st = false ->
  turn st e r ev ->
  r <> Blocked InSelect /\
  (exists later, input_of (e :: envs) = delivered ev ++ later) /\
  (forall st', r = Done st' ->
     eof_reached st' = reads_eof e /\
     input_of (e :: envs) =
       delivered ev ++ (if reads_eof e then [] else input_of envs)).
Proof.
  intros Heof H.
  inversion H as
    [Hsel | Hsel Hnr | errno Hr Hread Hwb | errno Hr Hread Hne1 Hne2
     | Hr Hread | chunk wev Hr Hread Hne Hw | chunk wev code Hr Hread Hne Hw
     | chunk wev call Hr Hread Hne Hw]; subst.
  - split; [discriminate |]. split; [eexists; reflexivity | discriminate].
  - destruct (input_of_not_ready e envs Hnr) as [Hin Hre].
    destruct (only_calls_quiet _
                (only_calls_idle_check_events (time_now e) st))
      as [_ [_ [Hd _]]].
    destruct (after_idle_check_fields (time_now e) st) as [_ [_ [He _]]].
    rewrite Hd, Hin, Hre. split; [discriminate |].
    split; [eexists; reflexivity |].
    intros st' E. injection E as <-. rewrite He. auto.
  - destruct (input_of_ready e envs Hr) as [Herr _].
    destruct (Herr _ Hread) as [Hin Hre].
    assert (Hd : delivered (Read (RdErr errno) ::
                            idle_check_events (time_now e) st) = []).
    { apply delivered_quiet_turn;
        [reflexivity | apply only_calls_idle_check_events]. }
    destruct (after_idle_check_fields (time_now e) st) as [_ [_ [He _]]].
    rewrite Hd, Hin, Hre. split; [discriminate |].
    split; [eexists; reflexivity |].
    intros st' E. injection E as <-. rewrite He. auto.
  - split; [discriminate |]. split; [eexists; reflexivity | discriminate].
  - destruct (input_of_ready e envs Hr) as [_ [Hend _]].
    destruct (Hend Hread) as [Hin Hre].
    assert (Hd : delivered
                   (Read (RdBytes []) ::
                    action_events true OnEof (eof_command (config st)) ++
                    idle_check_events (time_now e) (set_eof_reached true st))
                 = []).
    { apply delivered_quiet_turn;
        [reflexivity | apply only_calls_eof_turn]. }
    destruct (after_idle_check_fields (time_now e) (set_eof_reached true st))
      as [_ [_ [He _]]].
    rewrite Hd, Hin, Hre. split; [discriminate |].
    split; [eexists; reflexivity |].
    intros st' E. injection E as <-. rewrite He. auto.
  - destruct (input_of_ready e envs Hr) as [_ [_ Hdata]].
    destruct (Hdata _ Hread Hne) as [Hin Hre].
    destruct (write_loop_trace _ _ _ _ _ (Z.le_refl 0) Hw)
      as [_ [Hdw _]].
    destruct (only_calls_quiet _ (only_calls_data_turn (time_now e) st))
      as [_ [_ [Hdc _]]].
    assert (Hd : delivered
                   (Read (RdBytes chunk) :: wev ++
                    data_events (time_now e) st ++
                    idle_check_events (time_now e)
                      (after_data (time_now e) st)) = chunk).
    { change (Read (RdBytes chunk) :: ?x) with ([Read (RdBytes chunk)] ++ x).
      rewrite !delivered_app, Hdw. rewrite <- delivered_app, Hdc.
      simpl. rewrite !app_nil_r. reflexivity. }
    destruct (after_idle_check_fields (time_now e)
                (after_data (time_now e) st)) as [_ [_ [He _]]].
    destruct (after_data_fields (time_now e) st) as [_ [_ [He' _]]].
    rewrite Hd, Hin, Hre. split; [discriminate |].
    split; [eexists; reflexivity |].
    intros st' E. injection E as <-. rewrite He, He'. auto.
  - destruct (input_of_ready e envs Hr) as [_ [_ Hdata]].
    destruct (Hdata _ Hread Hne) as [Hin Hre].
    destruct (write_loop_trace _ _ _ _ _ (Z.le_refl 0) Hw)
      as [_ [Hdw _]].
    split; [discriminate |]. split; [| discriminate].
    exists (input_of envs). rewrite Hin.
    change (Read (RdBytes chunk) :: wev) with ([Read (RdBytes chunk)] ++ wev).
    rewrite delivered_app, Hdw. simpl. rewrite !app_nil_r. reflexivity.
  - destruct (input_of_ready e envs Hr) as [_ [_ Hdata]].
    destruct (Hdata _ Hread Hne) as [Hin Hre].
    destruct (write_loop_trace _ _ _ _ _ (Z.le_refl 0) Hw)
      as [_ [Hdw [_ [_ [_ Hnb]]]]].
    split; [congruence |]. split; [| discriminate].
    exists (input_of envs). rewrite Hin.
    change (Read (RdBytes chunk) :: wev) with ([Read (RdBytes chunk)] ++ wev).
    rewrite delivered_app, Hdw. simpl. rewrite !app_nil_r. reflexivity.
Qed.

Lemma main_loop_after_eof st envs :
  eof_reached st = true -> main_loop st envs = (Done st, []).
Proof. intros H. destruct envs; cbn [main_loop]; rewrite H; reflexivity. Qed.

(** The loop reads the input from its beginning, in order, and has read
    all of it when it waits in [select] or returns. *)
Lemma main_loop_input envs : forall st r tr,
  eof_reached st = false ->
  main_loop st envs = (r, tr) ->
  exists later,
    input_of envs = delivered tr ++ later /\
    ((exists st', r = Done st') \/ r = Blocked InSelect -> later = []).
Proof.
  induction envs as [| e envs IH]; intros st r tr Heof H;
    cbn [main_loop] in H; rewrite Heof in H.
  - inversion H. exists []. auto.
  - destruct (loop_body st e) as [r1 ev1] eqn:Hb.
    destruct (turn_input st e r1 ev1 envs Heof (loop_body_turn _ _ _ _ Hb))
      as [Hns [[later Hlater] Hdone]].
    destruct r1 as [st1 | code | call].
    + destruct (Hdone st1 eq_refl) as [He Hin].
      destruct (main_loop st1 envs) as [r2 tr2] eqn:Hm.
      unfold bind in H. rewrite Hm in H. injection H as <- <-.
      destruct (reads_eof e).
      * rewrite (main_loop_after_eof st1 envs He) in Hm.
        injection Hm as <- <-. exists []. cbv iota in Hin.
        rewrite app_nil_r in Hin. rewrite !app_nil_r. auto.
      * destruct (IH st1 r2 tr2 He Hm) as [later2 [Hl2 Hend]].
        exists later2. rewrite Hin, Hl2, delivered_app, app_assoc. auto.
    + unfold bind in H. injection H as <- <-. exists later.
      split; [exact Hlater |].
      intros [[st' E] | E]; discriminate.
    + unfold bind in H. injection H as <- <-. exists later.
      split; [exact Hlater |].
      intros [[st' E] | E]; [discriminate | contradiction].
Qed.

(** A turn in which nothing fails comes to its end. *)
Lemma turn_goes_through st e r ev :
  answers_suffice e -> turn st e r ev -> exists st', r = Done st'.
Proof.
  intros [Hsel Hans] H.
  inversion H as
    [Hs | Hs Hnr | errno Hr Hread Hwb | errno Hr Hread Hne1 Hne2
     | Hr Hread | chunk wev Hr Hread Hne Hw | chunk wev code Hr Hread Hne Hw
     | chunk wev call Hr Hread Hne Hw]; subst; eauto;
    try contradiction;
    destruct Hr as [Hr1 Hr2]; destruct (readable_true e Hr1 Hr2) as [Hb _];
    specialize (Hans Hb); rewrite Hread in Hans.
  - destruct Hans; contradiction.
  - destruct Hans as [Hint Htaken].
    destruct (write_loop_progress (write_ans e) chunk 0 Hint) as [ev' E];
      [lia | congruence].
  - destruct Hans as [Hint Htaken].
    destruct (write_loop_progress (write_ans e) chunk 0 Hint) as [ev' E];
      [lia | congruence].
Qed.

(** When nothing fails, the loop goes on until the end of the stream is
    read, and waits in [select] when the turns end before that. *)
Lemma main_loop_goes_through envs : forall st,
  eof_reached st = false ->
  (forall e, In e envs -> answers_suffice e) ->
  if existsb reads_eof envs
  then exists st', fst (main_loop st envs) = Done st'
  else fst (main_loop st envs) = Blocked InSelect.
Proof.
  induction envs as [| e envs IH]; intros st Heof Hall;
    cbn [main_loop existsb]; rewrite Heof.
  - reflexivity.
  - destruct (loop_body st e) as [r1 ev1] eqn:Hb.
    pose proof (loop_body_turn _ _ _ _ Hb) as Hturn.
    destruct (turn_goes_through st e r1 ev1 (Hall e (or_introl eq_refl)) Hturn)
      as [st1 ->].
    destruct (turn_input st e _ ev1 envs Heof Hturn) as [_ [_ Hdone]].
    destruct (Hdone st1 eq_refl) as [He _].
    unfold bind. destruct (main_loop st1 envs) as [r2 tr2] eqn:Hm.
    destruct (reads_eof e); cbn [orb fst].
    + rewrite (main_loop_after_eof st1 envs He) in Hm.
      injection Hm as <- _. eauto.
    + assert (Hall' : forall e', In e' envs -> answers_suffice e')
        by (intros e' Hin; apply Hall; right; exact Hin).
      specialize (IH st1 He Hall'). rewrite Hm in IH. exact IH.
Qed.

Lemma main_started prog opts cfg su envs :
  parse_args prog opts = (Done cfg, []) ->
  getfl_ans su <> -1 -> setfl_ans su <> -1 ->
  main prog opts su envs =
    (match fst (main_loop (initial_locals cfg su) envs) with
     | Done _ => Done EXIT_SUCCESS
     | Exited code => Exited code
     | Blocked call => Blocked call
     end,
     snd (main_loop (initial_locals cfg su) envs)).
Proof.
  intros Hparse Hget Hset. unfold main.
  rewrite Hparse. apply Z.eqb_neq in Hget, Hset.
  unfold bind at 1. rewrite Hget, Hset.
  destruct (main_loop (initial_locals cfg su) envs) as [[st | code | call] tr];
    simpl; rewrite ?app_nil_r; reflexivity.
Qed.

Lemma main_not_started prog opts su envs :
  (forall cfg, parse_args prog opts = (Done cfg, []) ->
     getfl_ans su = -1 \/ setfl_ans su = -1) ->
  (exists code, fst (main prog opts su envs) = Exited code) /\
  delivered (snd (main prog opts su envs)) = [].
Proof.
  intros Hfail. unfold main.
  destruct (parse_loop_cases prog opts default_config)
    as [[cfg [E _]] | [ev [E [Hev _]]]].
  - fold (parse_args prog opts) in E. rewrite E. unfold bind at 1.
    destruct (Hfail cfg E) as [Hx | Hx].
    + rewrite Hx. simpl. eauto.
    + rewrite Hx. destruct (getfl_ans su =? -1); simpl; eauto.
  - fold (parse_args prog opts) in E. rewrite E. simpl.
    destruct (diagnostics_no_bytes ev Hev) as [Hd _]. eauto.
Qed.



